(** * play2win: the tabular loader, the aggregation engine and the
      assistant endpoints

    A shallow embedding of [src/app/api/comprehensive-data.js]
    ([parseCSV] and [processComprehensiveData]) together with the
    properties of the analytics pipeline that the specification states,
    and of the handlers of [src/app/api/researcher.js],
    [src/app/api/model-pred.js] and [conclusions.js] with the properties
    of their validation, of their loop over the models and of their
    answers to errors.

    Conventions of the embedding.
    - A JavaScript string is a [string]; every character stands for one
      code unit below 256.
    - A property read [row['K']] yields a string or [undefined]: it is an
      [option string], [None] being [undefined].
    - An object used as a dictionary is the finite map ([gmap]) of its own
      properties. An assignment [obj[key] = value] adds or replaces the
      property [key], except for the name [__proto__], which is the accessor
      of the prototype: assigning to it adds no property ([assign]).
    - A JavaScript number is an IEEE 754 binary64 value, [spec_float] with
      precision 53 and maximal exponent 1024; array lengths and counters
      are kept as [nat] and converted with [ofNat] where the code divides.
    - [parseFloat], [parseInt] and the coercion of [a - b] read numeric
      literals with correct rounding (to nearest, ties to even).
    - [Array.prototype.sort] is a stable insertion sort.
    - [console.warn] appends to a log that is threaded through the code. *)

From Stdlib Require Import ZArith List Bool Ascii String Lia Permutation Sorted.
From Stdlib Require Import Floats.SpecFloat.
From stdpp Require Import gmap strings list fin_maps.

Local Open Scope string_scope.
Local Open Scope list_scope.
Local Open Scope Z_scope.

(** ** JavaScript primitives used by the source *)

Module JS.

(** *** Numbers *)

Abbreviation num := spec_float.

Definition prec : Z := 53.
Definition emax : Z := 1024.

Definition NaN : num := S754_nan.
Definition zero : num := S754_zero false.

Definition add : num → num → num := SFadd prec emax.
Definition sub : num → num → num := SFsub prec emax.
Definition mul : num → num → num := SFmul prec emax.
Definition div : num → num → num := SFdiv prec emax.

(** The number closest to an integer (ties to even); exact below 2^53. *)
Definition ofZ (z : Z) : num := binary_normalize prec emax z 0 false.
Definition ofNat (n : nat) : num := ofZ (Z.of_nat n).

Definition isNaN (x : num) : bool :=
  match x with S754_nan => true | _ => false end.

(** [x < 0] and [x > 0] *)
Definition ltZero (x : num) : bool := SFltb x zero.
Definition gtZero (x : num) : bool := SFltb zero x.

(** A finite non-zero number or an infinity, of sign [s]. *)
Definition signedNonzero (s : bool) (x : num) : Prop :=
  (∃ m e, x = S754_finite s m e) ∨ x = S754_infinity s.

(** The exact value of a number, in units of 2^-1074 (the smallest
    positive number): an integer, or an infinity. *)
Inductive ext := NegInf | Fin (z : Z) | PosInf.

Definition extLe (a b : ext) : Prop :=
  match a, b with
  | NegInf, _ | _, PosInf => True
  | Fin x, Fin y => x ≤ y
  | _, _ => False
  end.

Definition exactValue (x : num) : ext :=
  match x with
  | S754_zero _ | S754_nan => Fin 0
  | S754_infinity s => if s then NegInf else PosInf
  | S754_finite s m e => Fin (cond_Zopp s (Zpos m * 2 ^ (e + 1074)))
  end.

(** The exponent of a finite number is at least the smallest one. *)
Definition aboveEmin (x : num) : Prop :=
  match x with
  | S754_finite _ _ e => emin prec emax ≤ e
  | _ => True
  end.

(** ToBoolean on a number: [NaN], [+0] and [-0] are falsy. *)
Definition numTruthy (x : num) : bool :=
  match x with
  | S754_nan | S754_zero _ => false
  | _ => true
  end.

(** [x || 0] on numbers *)
Definition orZero (x : num) : num := if numTruthy x then x else zero.

(** ToBoolean on a string-or-undefined: [undefined] and [''] are falsy. *)
Definition truthy (v : option string) : bool :=
  match v with
  | Some (String _ _) => true
  | _ => false
  end.

(** *** Strings *)

(** White space and line terminators among the code units below 256. *)
Definition isWhite (c : ascii) : bool :=
  let n := nat_of_ascii c in
  ((9 <=? n)%nat && (n <=? 13)%nat) || (n =? 32)%nat || (n =? 160)%nat.

Fixpoint trimStart (s : string) : string :=
  match s with
  | String c s' => if isWhite c then trimStart s' else s
  | EmptyString => EmptyString
  end.

Fixpoint trimEnd (s : string) : string :=
  match s with
  | EmptyString => EmptyString
  | String c s' =>
      match trimEnd s' with
      | EmptyString => if isWhite c then EmptyString else String c EmptyString
      | t => String c t
      end
  end.

Definition trim (s : string) : string := trimEnd (trimStart s).

(** [s.split(sep)] for a one-character separator: never empty. *)
Fixpoint split (sep : ascii) (s : string) : list string :=
  match s with
  | EmptyString => [EmptyString]
  | String c s' =>
      if Ascii.eqb c sep then EmptyString :: split sep s'
      else match split sep s' with
           | w :: ws => String c w :: ws
           | [] => [String c EmptyString]
           end
  end.

(** *** Numeric literals *)

Definition digitVal (radix : N) (c : ascii) : option N :=
  let n := N_of_ascii c in
  let v := if (48 <=? n)%N && (n <=? 57)%N then Some (n - 48)%N
           else if (97 <=? n)%N && (n <=? 122)%N then Some (n - 87)%N
           else if (65 <=? n)%N && (n <=? 90)%N then Some (n - 55)%N
           else None in
  match v with
  | Some d => if (d <? radix)%N then Some d else None
  | None => None
  end.

(** The longest prefix of digits of [s] in [radix]: the value accumulated
    on top of [acc], the number of digits read, and the rest. *)
Fixpoint readDigits (radix : N) (s : string) (acc : N) (cnt : nat)
  : N * nat * string :=
  match s with
  | String c s' =>
      match digitVal radix c with
      | Some d => readDigits radix s' (acc * radix + d)%N (S cnt)
      | None => (acc, cnt, s)
      end
  | EmptyString => (acc, cnt, s)
  end.

Definition readSign (s : string) : bool * string :=
  match s with
  | String c s' =>
      if Ascii.eqb c "-" then (true, s')
      else if Ascii.eqb c "+" then (false, s')
      else (false, s)
  | EmptyString => (false, s)
  end.

(** The number closest to [(-1)^neg * m * 10^e]. *)
Definition ofDecimal (neg : bool) (m : N) (e : Z) : num :=
  match m with
  | N0 => S754_zero neg
  | Npos p =>
      if 0 <=? e then
        binary_normalize prec emax (cond_Zopp neg (Zpos p * 10 ^ e)) 0 neg
      else
        let '(q, e', l) :=
          SFdiv_core_binary prec emax (Zpos p) 0 (10 ^ (- e)) 0 in
        binary_round_aux prec emax neg q e' l
  end.

(** ExponentPart: [e] or [E], an optional sign, at least one digit;
    otherwise nothing is consumed. *)
Definition readExponent (s : string) : Z * string :=
  match s with
  | String c s' =>
      if Ascii.eqb c "e" || Ascii.eqb c "E" then
        let '(eneg, s'') := readSign s' in
        let '(v, cnt, rest) := readDigits 10 s'' 0%N 0%nat in
        match cnt with
        | O => (0, s)
        | _ => (cond_Zopp eneg (Z.of_N v), rest)
        end
      else (0, s)
  | EmptyString => (0, s)
  end.

Definition dropInfinity (s : string) : option string :=
  if String.prefix "Infinity" s
  then Some (String.substring 8 (String.length s - 8) s) else None.

(** The longest prefix of [s] that is a StrDecimalLiteral: its value and
    the rest of the string; [None] when no prefix is one. *)
Definition readDecimal (s : string) : option (num * string) :=
  let '(neg, s1) := readSign s in
  match dropInfinity s1 with
  | Some rest => Some (S754_infinity neg, rest)
  | None =>
      let '(ip, icnt, s2) := readDigits 10 s1 0%N 0%nat in
      let '(m, fcnt, s3) :=
        match s2 with
        | String c s2' =>
            if Ascii.eqb c "." then
              let '(m, fcnt, s3) := readDigits 10 s2' ip 0%nat in
              match icnt, fcnt with
              | O, O => (ip, 0%nat, s2)
              | _, _ => (m, fcnt, s3)
              end
            else (ip, 0%nat, s2)
        | EmptyString => (ip, 0%nat, s2)
        end in
      match icnt, fcnt with
      | O, O => None
      | _, _ =>
          let '(e, s4) := readExponent s3 in
          Some (ofDecimal neg m (e - Z.of_nat fcnt), s4)
      end
  end.

(** [parseFloat(v)]; [undefined] reads as the text "undefined". *)
Definition parseFloat (v : option string) : num :=
  match v with
  | None => NaN
  | Some s =>
      match readDecimal (trimStart s) with
      | Some (x, _) => x
      | None => NaN
      end
  end.

(** [parseInt(v)] with no radix: base 16 after [0x] or [0X], else 10. *)
Definition parseInt (v : option string) : num :=
  match v with
  | None => NaN
  | Some s =>
      let '(neg, s1) := readSign (trimStart s) in
      let '(radix, s2) :=
        match s1 with
        | String c0 (String c s') =>
            if Ascii.eqb c0 "0" && (Ascii.eqb c "x" || Ascii.eqb c "X")
            then (16%N, s') else (10%N, s1)
        | _ => (10%N, s1)
        end in
      let '(v, cnt, _) := readDigits radix s2 0%N 0%nat in
      match cnt with
      | O => NaN
      | _ => binary_normalize prec emax (cond_Zopp neg (Z.of_N v)) 0 neg
      end
  end.

Definition readRadixLiteral (s : string) : option num :=
  match s with
  | String c0 (String c s') =>
      let radix :=
        if negb (Ascii.eqb c0 "0") then None
        else if Ascii.eqb c "x" || Ascii.eqb c "X" then Some 16%N
        else if Ascii.eqb c "o" || Ascii.eqb c "O" then Some 8%N
        else if Ascii.eqb c "b" || Ascii.eqb c "B" then Some 2%N
        else None in
      match radix with
      | Some r =>
          match readDigits r s' 0%N 0%nat with
          | (v, S _, EmptyString) => Some (ofZ (Z.of_N v))
          | _ => None
          end
      | None => None
      end
  | _ => None
  end.

(** ToNumber on a string-or-undefined (the coercion done by [a - b]). *)
Definition toNumber (v : option string) : num :=
  match v with
  | None => NaN
  | Some s =>
      match trim s with
      | EmptyString => zero
      | t =>
          match readRadixLiteral t with
          | Some x => x
          | None =>
              match readDecimal t with
              | Some (x, EmptyString) => x
              | _ => NaN
              end
          end
      end
  end.

(** *** Objects used as dictionaries *)

(** [obj[key] = value] on an object created by [{}], seen as the finite
    map of its own properties. The name [__proto__] is the accessor of the
    prototype, not a property: assigning an object to it replaces the
    prototype, assigning a string does nothing, and in both cases the
    object gets no property of that name. *)
Definition assign {V} (key : string) (value : V) (obj : gmap string V)
  : gmap string V :=
  if decide (key = "__proto__") then obj else <[key := value]> obj.

(** *** Collections *)

(** [[...new Set(l)]]: the distinct values in first-seen order. *)
Definition uniq {A} `{EqDecision A} (l : list A) : list A :=
  foldl (λ seen x, if decide (x ∈ seen) then seen else seen ++ [x]) [] l.

(** [l.filter(x => x)] on strings-or-undefined: the non-empty strings. *)
Definition truthyOnly (l : list (option string)) : list string :=
  omap (λ v, if truthy v then v else None) l.

(** [Array.prototype.sort(compareFn)]: the [undefined] elements go last
    and are never compared; the others are sorted stably, [x] going before
    [y] when [compareFn(y, x) > 0]. For a comparator that is a consistent
    ordering this is the order every conforming engine produces. Where the
    comparator is not one (with [(a, b) => a - b], when some identifier
    reads as [NaN]) ECMAScript leaves the order to the engine: the order
    computed here is then one the standard allows, not the one of a given
    engine, and no property below speaks of it. *)
Fixpoint sortInsert {A} (compareFn : A → A → num) (x : A) (l : list A) : list A :=
  match l with
  | [] => [x]
  | y :: l' =>
      if gtZero (compareFn y x) then x :: y :: l'
      else y :: sortInsert compareFn x l'
  end.

Definition sortDefined {A} (compareFn : A → A → num) (l : list A) : list A :=
  foldl (λ sorted x, sortInsert compareFn x sorted) [] l.

Definition sort (compareFn : option string → option string → num)
    (l : list (option string)) : list (option string) :=
  sortDefined compareFn (filter (λ v, v ≠ None) l) ++ filter (λ v, v = None) l.

End JS.

Export JS.

(** ** The console *)

Module Console.

(** A raw record: the object [parseCSV] builds for one row. *)
Abbreviation row := (gmap string string).

(** The three [console.warn] calls of the source. *)
Inductive warning :=
| MalformedRow (line : nat) (content : string)
| NoPlays (gameId : option string)
| MissingFields (gameId : option string) (firstPlay : row).

Definition log := list warning.

(** Code that may warn: a state monad over the log. *)
Definition M (A : Type) : Type := log → A * log.

#[export] Instance ret : MRet M := λ A (a : A) out, (a, out).

#[export] Instance bind : MBind M := λ A B (k : A → M B) (m : M A) out,
  let '(a, out') := m out in k a out'.

Definition warn (w : warning) : M unit := λ out, (tt, out ++ [w]).

(** [l.map(f)] for an [f] that may warn, left to right. *)
Fixpoint mapM {A B} (f : A → M B) (l : list A) : M (list B) :=
  match l with
  | [] => mret []
  | a :: l' => b ← f a; bs ← mapM f l'; mret (b :: bs)
  end.

(** Run on a fresh console. *)
Definition run {A} (m : M A) : A * log := m [].
Definition value {A} (m : M A) : A := fst (run m).
Definition warnings {A} (m : M A) : log := snd (run m).

(** A computation that only appends to the log and whose result does not
    depend on what was logged before. *)
Definition appends {A} (m : M A) : Prop :=
  ∀ out, m out = (value m, out ++ warnings m).

End Console.

Export Console.

(** ** The tabular loader: [parseCSV] *)

Module Csv.

Definition LF : ascii := ascii_of_nat 10.

(** [values[index] ? values[index].trim() : ''] *)
Definition cell (values : list string) (index : nat) : string :=
  if truthy (values !! index) then trim (default "" (values !! index)) else "".

(** [headers.forEach((header, index) => row[header.trim()] = ...)] *)
Fixpoint forEachHeader (values : list string) (index : nat)
    (headers : list string) (r : row) : row :=
  match headers with
  | [] => r
  | header :: rest =>
      forEachHeader values (S index) rest
        (assign (trim header) (cell values index) r)
  end.

Definition mkRow (headers values : list string) : row :=
  forEachHeader values 0 headers ∅.

(** The body of the [for] loop at index [i]. *)
Definition parseLine (headers : list string) (data : list row)
    (i : nat) (line : string) : M (list row) :=
  if truthy (Some (trim line)) then
    let values := split "," line in
    if decide (length values ≠ length headers) then
      warn (MalformedRow (i + 1) line) ;; mret data
    else mret (data ++ [mkRow headers values])
  else mret data.

(** [for (let i = ...; i < lines.length; i++)] over the lines from [i] on. *)
Fixpoint forLines (headers : list string) (i : nat) (lines : list string)
    (data : list row) : M (list row) :=
  match lines with
  | [] => mret data
  | line :: rest =>
      data' ← parseLine headers data i line;
      forLines headers (S i) rest data'
  end.

Definition parseCSV (csvContent : string) : M (list row) :=
  match split LF csvContent with
  | line0 :: rest => forLines (split "," line0) 1 rest []
  | [] => mret []
  end.

End Csv.

(** ** The aggregation engine: [processComprehensiveData] *)

Module Play.
Record t := mk {
  minute : num;
  playType : option string;
  shotAttempt : option string;
  shotDistance : option num;
  shotOutcome : option string;
  xG : num;
  playContext : option string;
  location : option string;
  outcome : option string;
  success : bool;
  winImpact : num;
  assistType : option string;
  phaseOfMatch : option string
}.
End Play.

Module Game.
Record t := mk {
  gameId : option string;
  opponent : option string;
  date : option string;
  season : option string;
  plays : list Play.t
}.
End Game.

Module Goal.
Record t := mk {
  minute : num;
  gameId : option string;
  opponent : option string;
  playType : option string;
  playContext : option string;
  location : option string;
  xG : num;
  winImpact : num
}.
End Goal.

Module ShotMap.
Record t := mk {
  totalShots : nat;
  goals : nat;
  avgXG : num;
  successRate : num
}.
End ShotMap.

Module PlayType.
Record t := mk {
  count : nat;
  shots : nat;
  goals : nat;
  avgXG : num
}.
End PlayType.

Module Team.
Record t := mk {
  gamesPlayed : nat;
  totalGoals : nat;
  totalShots : nat;
  totalXG : num;
  conversionRate : num;
  avgXGPerShot : num
}.
End Team.

Module KeyStats.
Record t := mk {
  totalGames : nat;
  totalGoals : nat;
  totalShots : nat;
  totalXG : num;
  overallConversionRate : num;
  avgXGPerShot : num
}.
End KeyStats.

Module Result.
Record t := mk {
  goalsTimeline : list Goal.t;
  shotMapData : gmap string ShotMap.t;
  playTypeData : gmap string PlayType.t;
  teamComparison : gmap string Team.t;
  keyStats : KeyStats.t;
  games : list Game.t;
  opponents : list string
}.
End Result.

Module Engine.

(** [(a, b) => a - b] on game identifiers *)
Definition compareIds (a b : option string) : num :=
  sub (toNumber a) (toNumber b).

Definition gameIds (data : list row) : list (option string) :=
  sort compareIds (uniq ((λ r : row, r !! "Game ID") <$> data)).

Definition opponentsOf (data : list row) : list string :=
  truthyOnly (uniq ((λ r : row, r !! "Opponent") <$> data)).

Definition toPlay (play : row) : Play.t :=
  {| Play.minute := orZero (parseInt (play !! "Minute"));
     Play.playType := play !! "Play Type";
     Play.shotAttempt := play !! "Shot Attempt";
     Play.shotDistance :=
       if truthy (play !! "Shot Distance")
       then Some (parseInt (play !! "Shot Distance")) else None;
     Play.shotOutcome := play !! "Shot Outcome";
     Play.xG := orZero (parseFloat (play !! "xG"));
     Play.playContext := play !! "Play Context";
     Play.location := play !! "Location on Field";
     Play.outcome := play !! "Outcome";
     Play.success := bool_decide (play !! "Success" = Some "Yes");
     Play.winImpact := orZero (parseInt (play !! "Win Impact"));
     Play.assistType := play !! "Assist Type";
     Play.phaseOfMatch := play !! "Phase of Match" |}.

Definition gamePlaysOf (data : list row) (gameId : option string) : list row :=
  filter (λ r : row, r !! "Game ID" = gameId) data.

(** [!firstPlay['Opponent'] || !firstPlay['Date'] || !firstPlay['Season']] *)
Definition missingRequired (firstPlay : row) : bool :=
  negb (truthy (firstPlay !! "Opponent"))
  || negb (truthy (firstPlay !! "Date"))
  || negb (truthy (firstPlay !! "Season")).

(** The callback of [games.map]: a game, or [null]. *)
Definition buildGame (data : list row) (gameId : option string)
  : M (option Game.t) :=
  let gamePlays := gamePlaysOf data gameId in
  match head gamePlays with
  | None => warn (NoPlays gameId) ;; mret None
  | Some firstPlay =>
      if missingRequired firstPlay
      then warn (MissingFields gameId firstPlay) ;; mret None
      else mret (Some
        {| Game.gameId := gameId;
           Game.opponent := firstPlay !! "Opponent";
           Game.date := firstPlay !! "Date";
           Game.season := firstPlay !! "Season";
           Game.plays := toPlay <$> gamePlays |})
  end.

Definition gameDataOf (data : list row) (games : list (option string))
  : M (list Game.t) :=
  built ← mapM (buildGame data) games;
  mret (omap id built).

Definition goalsOfGame (game : Game.t) : list Goal.t :=
  fmap (λ goal,
         {| Goal.minute := Play.minute goal;
            Goal.gameId := Game.gameId game;
            Goal.opponent := Game.opponent game;
            Goal.playType := Play.playType goal;
            Goal.playContext := Play.playContext goal;
            Goal.location := Play.location goal;
            Goal.xG := Play.xG goal;
            Goal.winImpact := Play.winImpact goal |})
      (filter (λ play, Play.shotOutcome play = Some "Goal") (Game.plays game)).

Definition goalsTimelineOf (gameData : list Game.t) : list Goal.t :=
  flat_map goalsOfGame gameData.

(** [rows.reduce((sum, play) => sum + (parseFloat(play['xG']) || 0), 0)] *)
Definition sumRowXG (rows : list row) : num :=
  foldl (λ sum (play : row), add sum (orZero (parseFloat (play !! "xG")))) zero rows.

(** [plays.reduce((sum, play) => sum + play.xG, 0)] *)
Definition sumPlayXG (plays : list Play.t) : num :=
  foldl (λ sum play, add sum (Play.xG play)) zero plays.

Definition isGoalRow (r : row) : Prop := r !! "Shot Outcome" = Some "Goal".
Definition isShotRow (r : row) : Prop := r !! "Shot Attempt" = Some "Yes".

Definition locationPlaysOf (data : list row) (location : string) : list row :=
  filter (λ r : row, r !! "Location on Field" = Some location ∧ isShotRow r) data.

Definition shotEntry (data : list row) (location : string) : ShotMap.t :=
  let locationPlays := locationPlaysOf data location in
  {| ShotMap.totalShots := length locationPlays;
     ShotMap.goals := length (filter isGoalRow locationPlays);
     ShotMap.avgXG :=
       orZero (div (sumRowXG locationPlays) (ofNat (length locationPlays)));
     ShotMap.successRate :=
       if (0 <? length locationPlays)%nat
       then mul (div (ofNat (length (filter isGoalRow locationPlays)))
                     (ofNat (length locationPlays))) (ofZ 100)
       else zero |}.

Definition locationsOf (data : list row) : list string :=
  truthyOnly (uniq ((λ r : row, r !! "Location on Field") <$> data)).

Definition shotMapDataOf (data : list row) : gmap string ShotMap.t :=
  foldl (λ m location, assign location (shotEntry data location) m)
        ∅ (locationsOf data).

Definition typePlaysOf (data : list row) (playType : string) : list row :=
  filter (λ r : row, r !! "Play Type" = Some playType) data.

Definition playTypeEntry (data : list row) (playType : string) : PlayType.t :=
  let typePlays := typePlaysOf data playType in
  {| PlayType.count := length typePlays;
     PlayType.shots := length (filter isShotRow typePlays);
     PlayType.goals := length (filter isGoalRow typePlays);
     PlayType.avgXG :=
       orZero (div (sumRowXG typePlays) (ofNat (length typePlays))) |}.

Definition playTypesOf (data : list row) : list string :=
  truthyOnly (uniq ((λ r : row, r !! "Play Type") <$> data)).

Definition playTypeDataOf (data : list row) : gmap string PlayType.t :=
  foldl (λ m playType, assign playType (playTypeEntry data playType) m)
        ∅ (playTypesOf data).

Definition isGoalPlay (play : Play.t) : Prop := Play.shotOutcome play = Some "Goal".
Definition isShotPlay (play : Play.t) : Prop := Play.shotAttempt play = Some "Yes".

Definition opponentGamesOf (gameData : list Game.t) (opponent : string)
  : list Game.t :=
  filter (λ game, Game.opponent game = Some opponent) gameData.

Definition teamEntry (gameData : list Game.t) (opponent : string) : Team.t :=
  let opponentGames := opponentGamesOf gameData opponent in
  let allPlays := flat_map Game.plays opponentGames in
  {| Team.gamesPlayed := length opponentGames;
     Team.totalGoals := length (filter isGoalPlay allPlays);
     Team.totalShots := length (filter isShotPlay allPlays);
     Team.totalXG := sumPlayXG allPlays;
     Team.conversionRate :=
       if (0 <? length (filter isShotPlay allPlays))%nat
       then mul (div (ofNat (length (filter isGoalPlay allPlays)))
                     (ofNat (length (filter isShotPlay allPlays)))) (ofZ 100)
       else zero;
     Team.avgXGPerShot :=
       if (0 <? length (filter isShotPlay allPlays))%nat
       then div (sumPlayXG allPlays) (ofNat (length (filter isShotPlay allPlays)))
       else zero |}.

Definition teamComparisonOf (gameData : list Game.t) (opponents : list string)
  : gmap string Team.t :=
  foldl (λ m opponent, assign opponent (teamEntry gameData opponent) m)
        ∅ opponents.

Definition keyStatsOf (data : list row) (games : list (option string))
  : KeyStats.t :=
  {| KeyStats.totalGames := length games;
     KeyStats.totalGoals := length (filter isGoalRow data);
     KeyStats.totalShots := length (filter isShotRow data);
     KeyStats.totalXG := sumRowXG data;
     KeyStats.overallConversionRate :=
       if (0 <? length (filter isShotRow data))%nat
       then mul (div (ofNat (length (filter isGoalRow data)))
                     (ofNat (length (filter isShotRow data)))) (ofZ 100)
       else zero;
     KeyStats.avgXGPerShot :=
       if (0 <? length (filter isShotRow data))%nat
       then div (sumRowXG data) (ofNat (length (filter isShotRow data)))
       else zero |}.

Definition processComprehensiveData (data : list row) : M Result.t :=
  let games := gameIds data in
  let opponents := opponentsOf data in
  gameData ← gameDataOf data games;
  mret {| Result.goalsTimeline := goalsTimelineOf gameData;
         Result.shotMapData := shotMapDataOf data;
         Result.playTypeData := playTypeDataOf data;
         Result.teamComparison := teamComparisonOf gameData opponents;
         Result.keyStats := keyStatsOf data games;
         Result.games := gameData;
         Result.opponents := opponents |}.

(** The result and the warnings of a run on a fresh console. *)
Definition analyse (data : list row) : Result.t :=
  value (processComprehensiveData data).

Definition diagnostics (data : list row) : log :=
  warnings (processComprehensiveData data).

(** [parseCSV] followed by [processComprehensiveData], as the endpoint
    [getComprehensiveData] chains them on the file's text. *)
Definition pipeline (csvContent : string) : M Result.t :=
  data ← Csv.parseCSV csvContent;
  processComprehensiveData data.

End Engine.

Import Csv Engine.

(** ** Vocabulary of the specification *)

Module Spec.

(** A field that is present and not the empty string. *)
Definition nonEmpty (v : option string) : Prop := ∃ s, v = Some s ∧ s ≠ "".

(** The identifying fields a game needs: opponent, date and season. *)
Definition requiredPresent (firstPlay : row) : Prop :=
  nonEmpty (firstPlay !! "Opponent")
  ∧ nonEmpty (firstPlay !! "Date")
  ∧ nonEmpty (firstPlay !! "Season").

(** [location] is observed in some row of [data]. *)
Definition observedLocation (data : list row) (location : string) : Prop :=
  location ≠ "" ∧ ∃ r : row, r ∈ data ∧ r !! "Location on Field" = Some location.

(** [location] is observed in some row of [data] that attempts a shot. *)
Definition shotLocation (data : list row) (location : string) : Prop :=
  location ≠ ""
  ∧ ∃ r : row, r ∈ data ∧ r !! "Location on Field" = Some location ∧ isShotRow r.

(** The keys of the Shot Map are the locations of attempted shots. *)
Definition keysAreShotLocations (data : list row) : Prop :=
  ∀ location,
    is_Some (Result.shotMapData (analyse data) !! location)
    ↔ shotLocation data location.

(** Every non-empty opponent of a record is listed and is a key of the
    Team Comparison. *)
Definition opponentsAreKeys (data : list row) : Prop :=
  ∀ opponent,
    opponent ≠ "" →
    (∃ r : row, r ∈ data ∧ r !! "Opponent" = Some opponent) →
    opponent ∈ Result.opponents (analyse data)
    ∧ is_Some (Result.teamComparison (analyse data) !! opponent).

(** The entry of a location in which no shot was attempted. *)
Definition noShots : ShotMap.t :=
  {| ShotMap.totalShots := 0; ShotMap.goals := 0;
     ShotMap.avgXG := zero; ShotMap.successRate := zero |}.

(** The entry of an opponent none of whose games was materialized. *)
Definition noGames : Team.t :=
  {| Team.gamesPlayed := 0; Team.totalGoals := 0; Team.totalShots := 0;
     Team.totalXG := zero; Team.conversionRate := zero;
     Team.avgXGPerShot := zero |}.




(** A game identifier that reads as a number, and the order of
    identifiers by the numbers they read as. *)
Definition isNumeric (v : option string) : Prop := isNaN (toNumber v) = false.

Definition numLe (a b : option string) : Prop :=
  extLe (exactValue (toNumber a)) (exactValue (toNumber b)).

(** Decimal numerals: non-empty strings of the digits 0 to 9, and the
    natural number such a string denotes. *)
Definition isDigit (c : ascii) : Prop := (48 ≤ N_of_ascii c ≤ 57)%N.

Fixpoint allDigits (s : string) : Prop :=
  match s with
  | EmptyString => True
  | String c s' => isDigit c ∧ allDigits s'
  end.

Definition isDecimal (s : string) : Prop := s ≠ "" ∧ allDigits s.

Fixpoint decimalValueFrom (acc : N) (s : string) : N :=
  match s with
  | EmptyString => acc
  | String c s' => decimalValueFrom (acc * 10 + (N_of_ascii c - 48)) s'
  end.

Definition decimalValue (s : string) : N := decimalValueFrom 0 s.

(** An identifier that is a decimal numeral below 2^53, and its value. *)
Definition isSmallDecimal (v : option string) : Prop :=
  ∃ s, v = Some s ∧ isDecimal s ∧ (decimalValue s < 2 ^ 53)%N.

Definition idValue (v : option string) : N :=
  match v with
  | Some s => decimalValue s
  | None => 0
  end.

(** The identifiers ascend by the numbers their numerals denote; and, for
    an input whose identifiers all read as numbers, so do the distinct
    identifiers and the identifiers of the games in output order. *)
Definition ascendingIds (ids : list (option string)) : Prop :=
  StronglySorted (λ a b, idValue a ≤ idValue b)%N ids.

Definition idsSortedByValue (data : list row) : Prop :=
  (∀ r : row, r ∈ data → isNumeric (r !! "Game ID")) →
  ascendingIds (gameIds data)
  ∧ ascendingIds (Game.gameId <$> Result.games (analyse data)).

(** [matching / total * 100], the shape of every rate of the source. *)
Definition percentage (matching total : nat) : num :=
  mul (div (ofNat matching) (ofNat total)) (ofZ 100).

(** Every percentage, ratio and average of the result is 0 when its
    denominator is 0 and is never [NaN], and a positive number of shots
    gives the success rate [goals / totalShots * 100]. *)
Definition ratesWellDefined (data : list row) : Prop :=
  (∀ location entry,
      Result.shotMapData (analyse data) !! location = Some entry →
      (ShotMap.totalShots entry = 0%nat →
       ShotMap.successRate entry = zero ∧ ShotMap.avgXG entry = zero)
      ∧ ((0 < ShotMap.totalShots entry)%nat →
         ShotMap.successRate entry
         = percentage (ShotMap.goals entry) (ShotMap.totalShots entry))
      ∧ isNaN (ShotMap.successRate entry) = false
      ∧ isNaN (ShotMap.avgXG entry) = false)
  ∧ (∀ playType entry,
      Result.playTypeData (analyse data) !! playType = Some entry →
      (PlayType.count entry = 0%nat → PlayType.avgXG entry = zero)
      ∧ isNaN (PlayType.avgXG entry) = false)
  ∧ (∀ opponent entry,
      Result.teamComparison (analyse data) !! opponent = Some entry →
      (Team.totalShots entry = 0%nat →
       Team.conversionRate entry = zero ∧ Team.avgXGPerShot entry = zero)
      ∧ isNaN (Team.conversionRate entry) = false
      ∧ isNaN (Team.avgXGPerShot entry) = false)
  ∧ (KeyStats.totalShots (Result.keyStats (analyse data)) = 0%nat →
     KeyStats.overallConversionRate (Result.keyStats (analyse data)) = zero
     ∧ KeyStats.avgXGPerShot (Result.keyStats (analyse data)) = zero)
  ∧ isNaN (KeyStats.overallConversionRate (Result.keyStats (analyse data))) = false
  ∧ isNaN (KeyStats.avgXGPerShot (Result.keyStats (analyse data))) = false.

(** The header line of a text and the lines after it. *)
Definition headerOf (csvContent : string) : list string :=
  split "," (default "" (head (split LF csvContent))).

Definition dataLinesOf (csvContent : string) : list string :=
  tail (split LF csvContent).

(** A non-blank line with as many values as there are columns, and one
    with a different number of values. *)
Definition wellFormed (headers : list string) (line : string) : Prop :=
  trim line ≠ "" ∧ length (split "," line) = length headers.

Definition ragged (headers : list string) (line : string) : Prop :=
  trim line ≠ "" ∧ length (split "," line) ≠ length headers.

(** The records of the well-formed lines, in order. *)
Definition rowsOf (headers : list string) (lines : list string) : list row :=
  (λ line, mkRow headers (split "," line)) <$> filter (wellFormed headers) lines.

(** The diagnostics of the ragged lines among [lines], the first of which
    is read at loop index [i]: each names the line number [index + 1] and
    quotes the line. *)
Definition skipsAt (headers : list string) (i : nat) (lines : list string)
  : log :=
  (λ il, MalformedRow (il.1 + 1) il.2)
    <$> filter (λ il, ragged headers il.2) (imap (λ j line, (i + j, line)%nat) lines).

(** The skip set of a text: the header is line 1 and loop index 0. *)
Definition skipSet (csvContent : string) : log :=
  skipsAt (headerOf csvContent) 1 (dataLinesOf csvContent).

(** The result for an input without records. *)
Definition emptyResult : Result.t :=
  {| Result.goalsTimeline := [];
     Result.shotMapData := ∅;
     Result.playTypeData := ∅;
     Result.teamComparison := ∅;
     Result.keyStats :=
       {| KeyStats.totalGames := 0; KeyStats.totalGoals := 0;
          KeyStats.totalShots := 0; KeyStats.totalXG := zero;
          KeyStats.overallConversionRate := zero;
          KeyStats.avgXGPerShot := zero |};
     Result.games := [];
     Result.opponents := [] |}.

(** A row from a list of (column, value) pairs. *)
Definition rowOf (fields : list (string * string)) : row := list_to_map fields.

End Spec.

Import Spec.

(** ** Sample inputs *)

Module Sample.

(** Game 1 against A: a goal and a miss, both from the box. *)
Definition goalA : row :=
  rowOf [("Game ID", "1"); ("Opponent", "A"); ("Date", "2024-03-01");
         ("Season", "2024"); ("Minute", "12"); ("Play Type", "Open Play");
         ("Shot Attempt", "Yes"); ("Shot Outcome", "Goal"); ("xG", "0.3");
         ("Location on Field", "Box")].

Definition missA : row :=
  rowOf [("Game ID", "1"); ("Opponent", "A"); ("Date", "2024-03-01");
         ("Season", "2024"); ("Minute", "40"); ("Play Type", "Open Play");
         ("Shot Attempt", "Yes"); ("Shot Outcome", "Miss"); ("xG", "0.1");
         ("Location on Field", "Box")].

(** Game 2 against B has no date: a pass in midfield. *)
Definition passB : row :=
  rowOf [("Game ID", "2"); ("Opponent", "B"); ("Date", "");
         ("Season", "2024"); ("Minute", "5"); ("Play Type", "Pass");
         ("Shot Attempt", "No"); ("Shot Outcome", ""); ("xG", "");
         ("Location on Field", "Midfield")].

Definition records : list row := [goalA; missA; passB].

(** The Shot Map entry of the box in [records]: two shots, one goal,
    an average xG of 0.2 and a success rate of 50. *)
Definition boxEntry : ShotMap.t :=
  {| ShotMap.totalShots := 2; ShotMap.goals := 1;
     ShotMap.avgXG := parseFloat (Some "0.2");
     ShotMap.successRate := ofZ 50 |}.

(** Two shots whose xG fields read as plus and minus infinity. *)
Definition overTheTop : row :=
  rowOf [("Game ID", "1"); ("Opponent", "A"); ("Date", "2024-03-01");
         ("Season", "2024"); ("Shot Attempt", "Yes"); ("xG", "Infinity")].

Definition underTheFloor : row :=
  rowOf [("Game ID", "1"); ("Opponent", "A"); ("Date", "2024-03-01");
         ("Season", "2024"); ("Shot Attempt", "Yes"); ("xG", "-Infinity")].

Definition infiniteXG : list row := [overTheTop; underTheFloor].

(** Rows of the games 10, 9 and 100, in this order. *)
Definition unordered : list row :=
  [rowOf [("Game ID", "10")]; rowOf [("Game ID", "9")];
   rowOf [("Game ID", "100")]; rowOf [("Game ID", "9")]].

(** Rows of two games whose identifiers differ beyond the precision of a
    double: both read as 9007199254740992. *)
Definition beyond : list row :=
  [rowOf [("Game ID", "9007199254740993")];
   rowOf [("Game ID", "9007199254740992")]].

(** A goal in a game against an opponent named [__proto__]. *)
Definition protoGoal : row :=
  rowOf [("Game ID", "1"); ("Opponent", "__proto__"); ("Date", "2024-03-01");
         ("Season", "2024"); ("Shot Attempt", "Yes"); ("Shot Outcome", "Goal");
         ("Location on Field", "__proto__"); ("Play Type", "__proto__")].

Definition protoGame : Game.t :=
  {| Game.gameId := Some "1"; Game.opponent := Some "__proto__";
     Game.date := Some "2024-03-01"; Game.season := Some "2024";
     Game.plays := [toPlay protoGoal] |}.

(** A text whose first column is named [__proto__]. *)
Definition protoText : string := "__proto__,b" +:+ String LF "1,2".

(** A text with a header, two good lines, a ragged line, a blank line. *)
Definition text : string :=
  "Game ID,Opponent" +:+ String LF "1,A" +:+ String LF "2"
  +:+ String LF "" +:+ String LF "3, C ".

(** A header-only text, ending in a line break. *)
Definition headerOnly : string := "Game ID,Opponent,Date" +:+ String LF "".


End Sample.


(** ** Further vocabulary *)

Module Views.

(** A line that is empty once trimmed. *)
Definition blank (line : string) : Prop := trim line = "".

(** The sum of a count over all entries of a Team Comparison. *)
Definition sumOverTeams (f : Team.t → nat) (teamComparison : gmap string Team.t)
  : nat :=
  map_fold (λ _ entry acc, f entry + acc)%nat 0%nat teamComparison.

(** The sum of a count over all entries of a Shot Map and of a Play Type
    Distribution. *)
Definition sumOverShots (f : ShotMap.t → nat) (shotMap : gmap string ShotMap.t)
  : nat :=
  map_fold (λ _ entry acc, f entry + acc)%nat 0%nat shotMap.

Definition sumOverTypes (f : PlayType.t → nat) (types : gmap string PlayType.t)
  : nat :=
  map_fold (λ _ entry acc, f entry + acc)%nat 0%nat types.

(** The materialized games whose opponent has an entry in the Team
    Comparison: all but the games against [__proto__]. *)
Definition keyedGames (data : list row) : list Game.t :=
  filter (λ game, Game.opponent game ≠ Some "__proto__")
         (Result.games (analyse data)).

(** The timeline entry of a goal row of a game. *)
Definition goalEntry (game : Game.t) (r : row) : Goal.t :=
  {| Goal.minute := orZero (parseInt (r !! "Minute"));
     Goal.gameId := Game.gameId game;
     Goal.opponent := Game.opponent game;
     Goal.playType := r !! "Play Type";
     Goal.playContext := r !! "Play Context";
     Goal.location := r !! "Location on Field";
     Goal.xG := orZero (parseFloat (r !! "xG"));
     Goal.winImpact := orZero (parseInt (r !! "Win Impact")) |}.

End Views.

Import Views.

Module Endings.

Definition CR : ascii := ascii_of_nat 13.

(** The text with Windows line endings: every line feed becomes a carriage
    return followed by a line feed. *)
Fixpoint crlf (s : string) : string :=
  match s with
  | EmptyString => EmptyString
  | String c s' =>
      if Ascii.eqb c LF then String CR (String LF (crlf s'))
      else String c (crlf s')
  end.

(** A line and the same line followed by a carriage return. *)
Definition sameLine (line line' : string) : Prop :=
  line' = line ∨ line' = (line ++ String CR "")%string.

End Endings.
Import Endings.

(** ** The assistant endpoints: [researcher.js], [model-pred.js],
       [conclusions.js] *)

(** String operations of the handlers, on code units below 256. *)
Module Text.

(** [toLowerCase]: the letters A-Z and the capital letters of Latin-1
    (192-222 but the multiplication sign) move up by 32. *)
Definition lowerChar (c : ascii) : ascii :=
  let n := nat_of_ascii c in
  if ((65 <=? n)%nat && (n <=? 90)%nat)
     || ((192 <=? n)%nat && (n <=? 222)%nat && negb (n =? 215)%nat)
  then ascii_of_nat (n + 32) else c.

Fixpoint toLowerCase (s : string) : string :=
  match s with
  | EmptyString => EmptyString
  | String c s' => String (lowerChar c) (toLowerCase s')
  end.

(** [s.includes(sub)] *)
Fixpoint includes (s sub : string) : bool :=
  String.prefix sub s
  || match s with
     | EmptyString => false
     | String _ s' => includes s' sub
     end.

(** A value in a template literal: [undefined] and [null] print as such. *)
Definition orUndefined (v : option string) : string := default "undefined" v.

Definition orNull (v : option string) : string := default "null" v.

(** [v || d] on a string-or-undefined. *)
Definition orElse (v : option string) (d : string) : string :=
  if truthy v then default d v else d.

(** [v || null] *)
Definition orNothing (v : option string) : option string :=
  if truthy v then v else None.

Definition nl : string := String Csv.LF "".

Definition dq : string := String (ascii_of_nat 34) "".

End Text.

Import Text.

(** The three handlers answer a question with the help of a language model.
    The embedding takes as given what the libraries around them deliver:
    the fields of the JSON body are strings or absent, [csvRows] is what
    [csv-parse] returns for the data file (no rows when reading or parsing
    fails), and one call of the model service, that is [getGenerativeModel],
    [generateContent] and reading the text of the response, either answers
    with a text or fails with an error that carries an optional message and
    an optional HTTP status. The service is an oracle that may answer
    differently at each call: it is given the number of calls made before.
    The state threaded through a handler is the list of the calls made,
    each with its model name and prompt. What the handlers print on the
    console is left out. The system prompts are fixed texts of the source;
    they are parameters here. *)
Module Assistant.

Local Open Scope string_scope.

Module Error.
Record t := { message : option string; status : option Z }.
End Error.

(** [new Error(message)] *)
Definition Error (message : string) : Error.t :=
  {| Error.message := Some message; Error.status := None |}.

Inductive outcome :=
| Answer (text : string)
| Failure (error : Error.t).

Definition service : Type := nat → string → string → outcome.

Definition calls : Type := list (string * string).

(** The JSON bodies the handlers send. *)
Inductive body :=
| Reply (response : string)
| Conclusion (response : string) (researcher model : option string)
| Refusal (error : string) (details : option string).

Module Response.
Record t := { statusCode : Z; json : body }.
End Response.

(** A computation that calls the service and may throw. *)
Definition Run (A : Type) : Type := calls → (Error.t + A) * calls.

#[export] Instance run_ret : MRet Run := λ A (a : A) made, (inr a, made).

#[export] Instance run_bind : MBind Run := λ A B (k : A → Run B) (m : Run A) made,
  match m made with
  | (inl error, made') => (inl error, made')
  | (inr a, made') => k a made'
  end.

Definition throw {A} (error : Error.t) : Run A := λ made, (inl error, made).

(** [try { m } catch (error) { h error }] *)
Definition catch {A} (m : Run A) (h : Error.t → Run A) : Run A := λ made,
  match m made with
  | (inl error, made') => h error made'
  | (inr a, made') => (inr a, made')
  end.

(** What an iteration of a loop over the models comes to: the function
    returns, or the loop goes on with [lastError]. *)
Inductive iteration (A : Type) :=
| Return (a : A)
| Continue (lastError : option Error.t).

Arguments Return {A} a.
Arguments Continue {A} lastError.

Definition modelsToTry : list string :=
  ["gemini-2.0-flash"; "gemini-1.5-pro"; "gemini-pro"; "gemini-1.0-pro"]%list.

(** [!query || query.trim() === ''] *)
Definition blankQuery (query : option string) : bool :=
  negb (truthy query) || bool_decide (trim (default "" query) = "").

(** The message of an error names a model that is not to be had:
    [errorMsg.includes('not found') || errorMsg.includes('404') ||
     errorMsg.includes('model')]. *)
Definition unavailable (error : Error.t) : bool :=
  let errorMsg := toLowerCase (orElse (Error.message error) "") in
  includes errorMsg "not found" || includes errorMsg "404"
  || includes errorMsg "model".

(** [Object.values(row).some(val => String(val).toLowerCase().includes(queryLower))] *)
Definition relevant (queryLower : string) (r : row) : bool :=
  existsb (λ val, includes (toLowerCase val) queryLower) (map_to_list r).*2.

(** The line of a row in the prompt, with and without its game. *)
Definition describe (r : row) : string :=
  "Opponent: " ++ orUndefined (r !! "Opponent")
  ++ ", Minute: " ++ orUndefined (r !! "Minute")
  ++ ", Play Type: " ++ orUndefined (r !! "Play Type")
  ++ ", Shot Attempt: " ++ orUndefined (r !! "Shot Attempt")
  ++ ", Shot Outcome: " ++ orUndefined (r !! "Shot Outcome")
  ++ ", xG: " ++ orUndefined (r !! "xG")
  ++ ", Location: " ++ orUndefined (r !! "Location on Field")
  ++ ", Outcome: " ++ orUndefined (r !! "Outcome") ++ nl.

Definition describeWithGame (r : row) : string :=
  "- Game ID: " ++ orUndefined (r !! "Game ID") ++ ", " ++ describe r.

Definition describeWithoutGame (r : row) : string := "- " ++ describe r.

(** Up to five of the relevant rows, or the notice that there is none. *)
Definition relevantDataText (line : row → string) (queryLower : string)
    (csvRows : list row) : string :=
  let relevantRows := filter (λ r, relevant queryLower r = true) csvRows in
  if (0 <? length relevantRows)%nat then
    foldl (λ text r, text ++ line r) ("Relevant match data rows:" ++ nl)
      (take 5 relevantRows)
  else "No directly matching rows found for this query.".

Definition dataSources : string :=
  "You have access to soccer match data including:
- Game information (opponents, dates, seasons)
- Play-by-play data with minutes, play types, shot attempts, outcomes
- Expected goals (xG) values
- Shot locations and distances
- Play contexts and phases of match
- Team performance metrics

".

Section handlers.

Variable generateContent : service.

(** One call of the service: it is recorded, and answers or throws. *)
Definition generate (modelName prompt : string) : Run string := λ made,
  let made' := (made ++ [(modelName, prompt)])%list in
  match generateContent (length made) modelName prompt with
  | Answer text => (inr text, made')
  | Failure error => (inl error, made')
  end.

(** *** [researcher.js] and [model-pred.js] *)

(** The loop over the models of both handlers: an empty text is an error
    like one of the service, an error that names a model leads to the next
    model, any other error leaves the loop. *)
Fixpoint tryModels (fullPrompt : string) (models : list string)
    (lastError : option Error.t) : Run Response.t :=
  match models with
  | [] =>
      throw (default (Error "All model attempts failed. Please check your API key has access to Gemini models.")
               lastError)
  | modelName :: rest =>
      it ← catch
             (text ← generate modelName fullPrompt;
              if negb (truthy (Some text)) then
                throw (Error "Empty response from Gemini API")
              else
                mret (Return {| Response.statusCode := 200;
                                Response.json := Reply text |}))
             (λ error,
                if unavailable error then mret (Continue (Some error))
                else throw error);
      match it with
      | Return response => mret response
      | Continue lastError' => tryModels fullPrompt rest lastError'
      end
  end.

Section researcher.

Variable systemPrompt : string.

Definition researcherPrompt (query : string) (csvRows : list row) : string :=
  let queryLower := toLowerCase query in
  let dataSummary :=
    dataSources ++ "Use this data to answer the user's query." ++ nl ++ nl
    ++ relevantDataText describeWithGame queryLower csvRows in
  systemPrompt ++ nl ++ nl ++ dataSummary ++ nl ++ nl ++ "User Query: " ++ query.

Definition getResearcherResponse (query GEMINI_API_KEY : option string)
    (csvRows : list row) : Run Response.t :=
  catch
    (if blankQuery query then
       mret {| Response.statusCode := 400;
               Response.json := Refusal "Query is required" None |}
     else if negb (truthy GEMINI_API_KEY) then
       mret {| Response.statusCode := 500;
               Response.json :=
                 Refusal "Gemini API key not configured"
                   (Some "Please set GEMINI_API_KEY in your .env file") |}
     else
       tryModels (researcherPrompt (default "" query) csvRows) modelsToTry None)
    (λ error,
       mret {| Response.statusCode := 500;
               Response.json :=
                 Refusal "Failed to generate response"
                   (Some (orElse (Error.message error) "Unknown error occurred")) |}).

Definition predictionPrompt (query : string) (csvRows : list row) : string :=
  let queryLower := toLowerCase query in
  let dataSummary :=
    dataSources
    ++ "Use this data to answer the user's query with advanced AI model analysis."
    ++ nl ++ nl ++ relevantDataText describeWithoutGame queryLower csvRows in
  systemPrompt ++ nl ++ nl ++ dataSummary ++ nl ++ nl ++ "User Query: " ++ query.

(** The answer of [model-pred.js] to an error: the first of the tests on
    its message, in lower case, and on its status that applies. *)
Definition answerTo (error : Error.t) : Response.t :=
  let errorMsgLower :=
    toLowerCase (orElse (Error.message error) "") in
  if includes errorMsgLower "api key" || includes errorMsgLower "invalid api key"
     || includes errorMsgLower "authentication" then
    {| Response.statusCode := 500;
       Response.json :=
         Refusal "Gemini API key error"
           (Some "Invalid or missing API key. Please check your .env file and ensure GEMINI_API_KEY is set correctly.") |}
  else if includes errorMsgLower "quota" || includes errorMsgLower "exceeded" then
    {| Response.statusCode := 429;
       Response.json :=
         Refusal "Gemini Quota Exceeded"
           (Some "You have exceeded your Gemini API quota. Please check your billing and plan details at https://makersuite.google.com/app/apikey.") |}
  else if includes errorMsgLower "rate limit" || includes errorMsgLower "429"
          || bool_decide (Error.status error = Some 429%Z) then
    {| Response.statusCode := 429;
       Response.json :=
         Refusal "Rate Limit Exceeded"
           (Some "Too many requests. Please try again in a few moments.") |}
  else if includes errorMsgLower "model" || includes errorMsgLower "not found"
          || includes errorMsgLower "not available"
          || includes errorMsgLower "404" then
    {| Response.statusCode := 500;
       Response.json :=
         Refusal "Model error"
           (Some ("The selected model is not available for your API key. Error: "
                  ++ orUndefined (Error.message error) ++ nl ++ nl
                  ++ "Possible solutions:" ++ nl
                  ++ "1. Check your API key has access to Gemini models at https://makersuite.google.com/app/apikey" ++ nl
                  ++ "2. Try using a different API key" ++ nl
                  ++ "3. The model may require a different API version or billing plan" ++ nl
                  ++ "4. Common model names: 'gemini-2.0-flash', 'gemini-1.5-pro', 'gemini-pro', 'gemini-1.0-pro'")) |}
  else if includes errorMsgLower "permission" || includes errorMsgLower "forbidden"
          || bool_decide (Error.status error = Some 403%Z) then
    {| Response.statusCode := 403;
       Response.json :=
         Refusal "Permission Denied"
           (Some "Your API key does not have permission to access this resource. Please check your API key permissions.") |}
  else if includes errorMsgLower "network" || includes errorMsgLower "timeout"
          || includes errorMsgLower "connection" then
    {| Response.statusCode := 500;
       Response.json :=
         Refusal "Network Error"
           (Some "Failed to connect to Gemini API. Please check your internet connection and try again.") |}
  else
    {| Response.statusCode := 500;
       Response.json :=
         Refusal "Failed to generate prediction"
           (Some (orElse (Error.message error) "Unknown error occurred")) |}.

Definition getModelPrediction (query GEMINI_API_KEY : option string)
    (csvRows : list row) : Run Response.t :=
  catch
    (if blankQuery query then
       mret {| Response.statusCode := 400;
               Response.json := Refusal "Query is required" None |}
     else if negb (truthy GEMINI_API_KEY) then
       mret {| Response.statusCode := 500;
               Response.json :=
                 Refusal "Gemini API key not configured"
                   (Some "Please set GEMINI_API_KEY in your .env file") |}
     else
       tryModels (predictionPrompt (default "" query) csvRows) modelsToTry None)
    (λ error, mret (answerTo error)).

End researcher.

(** *** [conclusions.js] *)

(** [tryGenerate]: as the loop above, but an empty text leads to the next
    model without an error. *)
Fixpoint tryGenerateFrom (prompt : string) (models : list string)
    (lastError : option Error.t) : Run (string * string) :=
  match models with
  | [] => throw (default (Error "All model attempts failed") lastError)
  | modelName :: rest =>
      it ← catch
             (text ← generate modelName prompt;
              if truthy (Some text) then mret (Return (modelName, text))
              else mret (Continue lastError))
             (λ err,
                if unavailable err then mret (Continue (Some err))
                else throw err);
      match it with
      | Return result => mret result
      | Continue lastError' => tryGenerateFrom prompt rest lastError'
      end
  end.

Definition tryGenerate (prompt : string) : Run (string * string) :=
  tryGenerateFrom prompt modelsToTry None.

Section conclusions.

Variables researcherSystemPrompt modelSystemPrompt : string.

Definition synthPrompt (researcherText modelText : option string) : string :=
  "You are a concise coach summarizer. Given the below two analyses, produce a single clear coach-style conclusion."
  ++ nl ++ nl ++ "Researcher analysis (human):" ++ nl ++ orNull researcherText
  ++ nl ++ nl ++ "Model analysis (AI):" ++ nl ++ orNull modelText
  ++ nl ++ nl ++ "Instructions for synthesis:" ++ nl
  ++ "- Start with a one-line " ++ dq ++ "Play Assessment:" ++ dq
  ++ " that restates the user's question succinctly." ++ nl
  ++ "- Provide a short combined summary (3 bullet points) that draws together the key evidence from both analyses."
  ++ nl
  ++ "- Give a clear " ++ dq ++ "Coach's Decision:" ++ dq ++ " that is either "
  ++ dq ++ "This is a good play" ++ dq ++ " or " ++ dq
  ++ "This is not a good play" ++ dq ++ " (or close variant)." ++ nl
  ++ "- The Coach's Decision should be consistent with the majority verdict of the researcher and model analyses. If both say good play, coach should say good play. If both say bad play, coach should say bad play. If they disagree, use the evidence and data to pick the most supported verdict, and explain briefly."
  ++ nl
  ++ "- Add 2 brief actionable recommendations (what to do next or how to mitigate risks)."
  ++ nl ++ "- Keep everything concise and direct (max ~250 words)." ++ nl ++ nl
  ++ "Now produce the conclusion.".

(** The synthesis of the two analyses and the answer that carries it. *)
Definition conclude (researcherText modelText : option string) : Run Response.t :=
  synthResult ← tryGenerate (synthPrompt researcherText modelText);
  mret {| Response.statusCode := 200;
          Response.json := Conclusion synthResult.2 researcherText modelText |}.

Definition getConclusion (query providedResearcher providedModel
    GEMINI_API_KEY : option string) (csvRows : list row) : Run Response.t :=
  catch
    (if negb (truthy providedResearcher) && negb (truthy providedModel)
        && blankQuery query then
       mret {| Response.statusCode := 400;
               Response.json :=
                 Refusal "Either query or researcher/model texts are required"
                   None |}
     else if negb (truthy GEMINI_API_KEY) then
       mret {| Response.statusCode := 500;
               Response.json :=
                 Refusal "Gemini API key not configured"
                   (Some "Please set GEMINI_API_KEY in your .env file") |}
     else
       let queryLower := toLowerCase (orElse query "") in
       let dataSummary :=
         dataSources ++ relevantDataText describeWithoutGame queryLower csvRows in
       let researcherText := orNothing providedResearcher in
       let modelText := orNothing providedModel in
       if negb (truthy researcherText) || negb (truthy modelText) then
         if blankQuery query then
           mret {| Response.statusCode := 400;
                   Response.json :=
                     Refusal "Query is required when researcher/model texts are not provided"
                       None |}
         else
           researcherText' ←
             (if negb (truthy researcherText) then
                researcherResult ←
                  tryGenerate (researcherSystemPrompt ++ nl ++ nl ++ dataSummary
                               ++ nl ++ nl ++ "User Query: " ++ orUndefined query);
                mret (Some researcherResult.2)
              else mret researcherText);
           modelText' ←
             (if negb (truthy modelText) then
                modelResult ←
                  tryGenerate (modelSystemPrompt ++ nl ++ nl ++ dataSummary
                               ++ nl ++ nl ++ "User Query: " ++ orUndefined query);
                mret (Some modelResult.2)
              else mret modelText);
           conclude researcherText' modelText'
       else conclude researcherText modelText)
    (λ error,
       mret {| Response.statusCode := 500;
               Response.json :=
                 Refusal "Failed to generate conclusion"
                   (Some (orElse (Error.message error) "Unknown error")) |}).

End conclusions.

End handlers.

End Assistant.

(** Vocabulary for the behaviour of the service over the models of a loop. *)
Module Script.

Import Assistant.

(** The calls a loop adds when it gets as far as [k] models: the first [k]
    models in order, each with the prompt. *)
Definition callsTo (prompt : string) (k : nat) : calls :=
  (λ modelName, (modelName, prompt)) <$> take k modelsToTry.

(** After the calls [made], each of the first [k] models fails with an
    error whose message names a model as not to be had. *)
Definition unavailableFirst (generateContent : service) (prompt : string)
    (made : calls) (k : nat) : Prop :=
  ∀ i modelName, (i < k)%nat → modelsToTry !! i = Some modelName →
    ∃ error, generateContent (length made + i)%nat modelName prompt = Failure error
             ∧ unavailable error = true.

(** The same, where a model may also answer with an empty text. *)
Definition silentFirst (generateContent : service) (prompt : string)
    (made : calls) (k : nat) : Prop :=
  ∀ i modelName, (i < k)%nat → modelsToTry !! i = Some modelName →
    generateContent (length made + i)%nat modelName prompt = Answer ""
    ∨ ∃ error, generateContent (length made + i)%nat modelName prompt = Failure error
               ∧ unavailable error = true.

(** A service for examples: the first call fails because the model is not
    found, every later call answers. *)
Definition secondAnswers : service := λ n _ _,
  match n with
  | O => Failure (Error "models/gemini-2.0-flash is not found for API version v1beta")
  | _ => Answer "Shoot."
  end.

End Script.

(** * Properties *)

(** ** Collections *)

Section uniq.
Context {A : Type} `{EqDecision A}.

Lemma uniq_foldl_spec (l seen : list A) :
  NoDup seen →
  let out := foldl (λ seen x, if decide (x ∈ seen) then seen else seen ++ [x]) seen l in
  NoDup out ∧ (∀ x, x ∈ out ↔ x ∈ seen ∨ x ∈ l).
Proof.
  revert seen. induction l as [|a l IH]; intros seen Hnd; simpl.
  - split; [done|]. intros x. rewrite elem_of_nil. tauto.
  - destruct (decide (a ∈ seen)) as [Hin|Hnin].
    + destruct (IH seen Hnd) as [H1 H2]. split; [done|].
      intros x. rewrite H2, elem_of_cons. split; [tauto|].
      intros [?|[->|?]]; tauto.
    + assert (NoDup (seen ++ [a])) as Hnd'.
      { apply NoDup_app. split_and!; [done| |apply NoDup_singleton].
        intros x Hx Hx'. apply list_elem_of_singleton in Hx'. by subst. }
      destruct (IH _ Hnd') as [H1 H2]. split; [done|].
      intros x. rewrite H2, elem_of_app, list_elem_of_singleton, elem_of_cons. tauto.
Qed.

Lemma NoDup_uniq (l : list A) : NoDup (uniq l).
Proof. apply (uniq_foldl_spec l []), NoDup_nil_2. Qed.

Lemma elem_of_uniq (l : list A) x : x ∈ uniq l ↔ x ∈ l.
Proof.
  destruct (uniq_foldl_spec l [] (NoDup_nil_2)) as [_ H].
  unfold uniq. rewrite H, elem_of_nil. tauto.
Qed.

Lemma uniq_nil : uniq (@nil A) = [].
Proof. reflexivity. Qed.
End uniq.

Lemma elem_of_truthyOnly (l : list (option string)) (s : string) :
  s ∈ truthyOnly l ↔ Some s ∈ l ∧ s ≠ "".
Proof.
  unfold truthyOnly. rewrite list_elem_of_omap. split.
  - intros ([[|c t]|] & Hin & Hx); simpl in Hx; try discriminate.
    injection Hx as <-. done.
  - intros [Hin Hne]. exists (Some s). split; [done|].
    destruct s; [done|reflexivity].
Qed.

Lemma NoDup_truthyOnly (l : list (option string)) :
  NoDup l → NoDup (truthyOnly l).
Proof.
  induction 1 as [|x l Hx Hnd IH]; simpl; [constructor|].
  unfold truthyOnly in *. simpl.
  destruct x as [[|c t]|]; simpl; try done.
  constructor; [|done].
  intros Hin. apply Hx. by apply (elem_of_truthyOnly l (String c t)) in Hin as [? _].
Qed.

Section sort.
Context {A : Type} (compareFn : A → A → num).

Lemma sortInsert_perm x (l : list A) : sortInsert compareFn x l ≡ₚ x :: l.
Proof.
  induction l as [|y l IH]; simpl; [done|].
  destruct (gtZero _); [done|]. rewrite IH. apply perm_swap.
Qed.

Lemma sortDefined_foldl_perm (l acc : list A) :
  foldl (λ sorted x, sortInsert compareFn x sorted) acc l ≡ₚ acc ++ l.
Proof.
  revert acc. induction l as [|x l IH]; intros acc; simpl.
  - by rewrite app_nil_r.
  - rewrite IH, sortInsert_perm. simpl. apply Permutation_middle.
Qed.

Lemma sortDefined_perm (l : list A) : sortDefined compareFn l ≡ₚ l.
Proof. apply (sortDefined_foldl_perm l []). Qed.
End sort.

Lemma sort_perm compareFn (l : list (option string)) : sort compareFn l ≡ₚ l.
Proof.
  unfold sort. rewrite sortDefined_perm.
  induction l as [|[s|] l IH]; [done| |].
  - rewrite filter_cons_True, filter_cons_False by naive_solver.
    simpl. by rewrite IH.
  - rewrite filter_cons_False, filter_cons_True by naive_solver.
    rewrite <- Permutation_middle. by rewrite IH.
Qed.

Section foldl_insert.
Context {V : Type} (f : string → V).

Lemma lookup_foldl_insert (l : list string) (m : gmap string V) k :
  foldl (λ m k, <[k := f k]> m) m l !! k =
    if decide (k ∈ l) then Some (f k) else m !! k.
Proof.
  revert m. induction l as [|a l IH]; intros m; simpl; [done|].
  rewrite IH. destruct (decide (k ∈ l)) as [Hin|Hnin].
  - rewrite decide_True; [done|by right].
  - destruct (decide (a = k)) as [->|Hne].
    + rewrite lookup_insert_eq, decide_True; [done|by left].
    + rewrite lookup_insert_ne by done. rewrite decide_False; [done|].
      rewrite elem_of_cons. intros [->|?]; done.
Qed.

(** Assigning entries name by name comes to inserting them for the names
    other than [__proto__]. *)
Lemma foldl_assign (l : list string) (m : gmap string V) :
  foldl (λ m k, assign k (f k) m) m l
  = foldl (λ m k, <[k := f k]> m) m (filter (λ k, k ≠ "__proto__") l).
Proof.
  revert m. induction l as [|a l IH]; intros m; [done|].
  cbn [foldl]. rewrite IH, filter_cons. unfold assign.
  destruct (decide (a = "__proto__")) as [->|Hne].
  - by rewrite decide_False by (intros H; by apply H).
  - by rewrite decide_True by done.
Qed.

Lemma lookup_foldl_assign (l : list string) (m : gmap string V) k :
  foldl (λ m k, assign k (f k) m) m l !! k =
    if decide (k ∈ l ∧ k ≠ "__proto__") then Some (f k) else m !! k.
Proof.
  rewrite foldl_assign, lookup_foldl_insert.
  destruct (decide (k ∈ filter (λ k, k ≠ "__proto__") l)) as [Hin|Hnin].
  - apply list_elem_of_filter in Hin. by rewrite decide_True by tauto.
  - rewrite decide_False; [done|]. intros [? ?]. apply Hnin.
    by apply list_elem_of_filter.
Qed.
End foldl_insert.

(** ** The console *)

Section console.
Context {A B : Type}.

Lemma appends_ret (a : A) : appends (mret a).
Proof. intros out. unfold value, warnings, run, mret, ret. simpl. by rewrite app_nil_r. Qed.

Lemma appends_warn w : appends (warn w).
Proof. intros out. reflexivity. Qed.

Lemma bind_run (m : M A) (k : A → M B) :
  appends m → (∀ a, appends (k a)) →
  ∀ out, (m ≫= k) out =
    (value (k (value m)), out ++ warnings m ++ warnings (k (value m))).
Proof.
  intros Hm Hk out. unfold mbind, bind. rewrite (Hm out), (Hk _ (out ++ _)).
  by rewrite app_assoc.
Qed.

Lemma appends_bind (m : M A) (k : A → M B) :
  appends m → (∀ a, appends (k a)) → appends (m ≫= k).
Proof.
  intros Hm Hk out. unfold value, warnings, run.
  rewrite !(bind_run m k Hm Hk). simpl. done.
Qed.

Lemma value_bind (m : M A) (k : A → M B) :
  appends m → (∀ a, appends (k a)) → value (m ≫= k) = value (k (value m)).
Proof. intros Hm Hk. unfold value at 1, run. by rewrite (bind_run m k Hm Hk). Qed.

Lemma warnings_bind (m : M A) (k : A → M B) :
  appends m → (∀ a, appends (k a)) →
  warnings (m ≫= k) = warnings m ++ warnings (k (value m)).
Proof. intros Hm Hk. unfold warnings at 1, run. by rewrite (bind_run m k Hm Hk). Qed.

Lemma value_ret (a : A) : value (mret a) = a.
Proof. reflexivity. Qed.

Lemma warnings_ret (a : A) : warnings (mret a) = [].
Proof. reflexivity. Qed.
End console.

Section mapM.
Context {A B : Type} (f : A → M B) (Hf : ∀ a, appends (f a)).

Lemma appends_mapM l : appends (mapM f l).
Proof using Hf.
  induction l as [|a l IH]; simpl; [apply appends_ret|].
  apply appends_bind; [done|]. intros b.
  apply appends_bind; [done|]. intros bs. apply appends_ret.
Qed.

Lemma value_mapM l : value (mapM f l) = (λ a, value (f a)) <$> l.
Proof using Hf.
  induction l as [|a l IH]; simpl; [done|].
  rewrite value_bind; [|done|].
  - rewrite value_bind; [|apply appends_mapM|intros; apply appends_ret].
    rewrite value_ret. by rewrite IH.
  - intros b. apply appends_bind; [apply appends_mapM|intros; apply appends_ret].
Qed.

Lemma warnings_mapM l :
  warnings (mapM f l) = flat_map (λ a, warnings (f a)) l.
Proof using Hf.
  induction l as [|a l IH]; simpl; [done|].
  rewrite warnings_bind; [|done|].
  - rewrite warnings_bind; [|apply appends_mapM|intros; apply appends_ret].
    rewrite warnings_ret, app_nil_r. by rewrite IH.
  - intros b. apply appends_bind; [apply appends_mapM|intros; apply appends_ret].
Qed.
End mapM.

(** ** Unfolding the engine *)

Lemma appends_buildGame data gameId : appends (buildGame data gameId).
Proof.
  unfold buildGame. destruct (head _) as [firstPlay|].
  - destruct (missingRequired firstPlay).
    + apply appends_bind; [apply appends_warn|intros; apply appends_ret].
    + apply appends_ret.
  - apply appends_bind; [apply appends_warn|intros; apply appends_ret].
Qed.

Lemma value_buildGame data gameId :
  value (buildGame data gameId) =
    match head (gamePlaysOf data gameId) with
    | Some firstPlay =>
        if missingRequired firstPlay then None
        else Some {| Game.gameId := gameId;
                     Game.opponent := firstPlay !! "Opponent";
                     Game.date := firstPlay !! "Date";
                     Game.season := firstPlay !! "Season";
                     Game.plays := toPlay <$> gamePlaysOf data gameId |}
    | None => None
    end.
Proof.
  unfold buildGame. destruct (head _) as [firstPlay|]; [|done].
  by destruct (missingRequired firstPlay).
Qed.

Lemma warnings_buildGame data gameId :
  warnings (buildGame data gameId) =
    match head (gamePlaysOf data gameId) with
    | Some firstPlay =>
        if missingRequired firstPlay then [MissingFields gameId firstPlay] else []
    | None => [NoPlays gameId]
    end.
Proof.
  unfold buildGame. destruct (head _) as [firstPlay|]; [|done].
  by destruct (missingRequired firstPlay).
Qed.

Lemma appends_gameDataOf data games : appends (gameDataOf data games).
Proof.
  apply appends_bind; [|intros; apply appends_ret].
  apply appends_mapM, appends_buildGame.
Qed.

Lemma value_gameDataOf data games :
  value (gameDataOf data games) = omap (λ g, value (buildGame data g)) games.
Proof.
  unfold gameDataOf. rewrite value_bind;
    [|apply appends_mapM, appends_buildGame|intros; apply appends_ret].
  rewrite value_ret, value_mapM by apply appends_buildGame.
  induction games as [|g games IH]; [done|]. csimpl.
  destruct (value (buildGame data g)); csimpl; by rewrite IH.
Qed.

Lemma warnings_gameDataOf data games :
  warnings (gameDataOf data games) = flat_map (λ g, warnings (buildGame data g)) games.
Proof.
  unfold gameDataOf. rewrite warnings_bind;
    [|apply appends_mapM, appends_buildGame|intros; apply appends_ret].
  rewrite warnings_ret, app_nil_r. apply warnings_mapM, appends_buildGame.
Qed.

Lemma analyse_unfold data :
  analyse data =
    let gameData := value (gameDataOf data (gameIds data)) in
    {| Result.goalsTimeline := goalsTimelineOf gameData;
       Result.shotMapData := shotMapDataOf data;
       Result.playTypeData := playTypeDataOf data;
       Result.teamComparison := teamComparisonOf gameData (opponentsOf data);
       Result.keyStats := keyStatsOf data (gameIds data);
       Result.games := gameData;
       Result.opponents := opponentsOf data |}.
Proof.
  unfold analyse, processComprehensiveData.
  rewrite value_bind; [done|apply appends_gameDataOf|intros; apply appends_ret].
Qed.

Lemma diagnostics_unfold data :
  diagnostics data = flat_map (λ g, warnings (buildGame data g)) (gameIds data).
Proof.
  unfold diagnostics, processComprehensiveData.
  rewrite warnings_bind; [|apply appends_gameDataOf|intros; apply appends_ret].
  rewrite warnings_ret, app_nil_r. apply warnings_gameDataOf.
Qed.

Lemma NoDup_gameIds data : NoDup (gameIds data).
Proof. unfold gameIds. rewrite sort_perm. apply NoDup_uniq. Qed.

Lemma elem_of_gameIds data g :
  g ∈ gameIds data ↔ ∃ r : row, r ∈ data ∧ r !! "Game ID" = g.
Proof.
  unfold gameIds. rewrite sort_perm, elem_of_uniq, list_elem_of_fmap.
  split; intros (r & H1 & H2); exists r; done.
Qed.

Lemma gameId_of_built data g game :
  value (buildGame data g) = Some game → Game.gameId game = g.
Proof.
  rewrite value_buildGame. destruct (head _) as [fp|]; [|done].
  destruct (missingRequired fp); [done|]. by intros [= <-].
Qed.

Lemma filter_omap_key {K V} `{EqDecision K} (F : K → option V) (key : V → K)
    (l : list K) (k : K) :
  (∀ k' v, F k' = Some v → key v = k') →
  NoDup l →
  filter (λ v, key v = k) (omap F l) =
    if decide (k ∈ l) then option_list (F k) else [].
Proof.
  intros Hkey. induction 1 as [|a l Ha Hnd IH]; [done|].
  assert (k ∈ a :: l ↔ a = k ∨ k ∈ l) as Hcons.
  { rewrite elem_of_cons. intuition congruence. }
  csimpl. destruct (F a) as [v|] eqn:HFa; csimpl.
  - pose proof (Hkey _ _ HFa) as Hv. rewrite filter_cons, IH.
    destruct (decide (key v = k)) as [Hk|Hk].
    + assert (a = k) as -> by congruence.
      rewrite decide_False by done. rewrite decide_True by left.
      by rewrite HFa.
    + assert (a ≠ k) by congruence.
      destruct (decide (k ∈ l)).
      * rewrite decide_True; [done|]. apply Hcons. by right.
      * rewrite decide_False; [done|]. rewrite Hcons. intros [?|?]; done.
  - rewrite IH. destruct (decide (a = k)) as [->|Hne].
    + rewrite decide_False by done. rewrite decide_True by left. by rewrite HFa.
    + destruct (decide (k ∈ l)).
      * rewrite decide_True; [done|]. apply Hcons. by right.
      * rewrite decide_False; [done|]. rewrite Hcons. intros [?|?]; done.
Qed.

Lemma games_with_id data gameId :
  filter (λ game, Game.gameId game = gameId) (Result.games (analyse data)) =
    option_list (value (buildGame data gameId)).
Proof.
  rewrite analyse_unfold. simpl. rewrite value_gameDataOf.
  rewrite (filter_omap_key (λ g, value (buildGame data g)) Game.gameId);
    [|apply gameId_of_built|apply NoDup_gameIds].
  destruct (decide (gameId ∈ gameIds data)) as [|Hnin]; [done|].
  rewrite value_buildGame.
  destruct (head _) as [fp|] eqn:Hhd; [|done].
  exfalso. apply Hnin, elem_of_gameIds. exists fp.
  apply head_Some_elem_of in Hhd. apply list_elem_of_filter in Hhd.
  destruct Hhd; done.
Qed.

(** ** The Shot Map *)

Lemma truthy_nonEmpty v : truthy v = true ↔ nonEmpty v.
Proof.
  unfold nonEmpty. destruct v as [[|c s]|]; simpl; split; try done.
  - intros (s & [= <-] & Hs). done.
  - intros _. by exists (String c s).
  - intros (s & [=] & _).
Qed.

Lemma missingRequired_false firstPlay :
  missingRequired firstPlay = false ↔ requiredPresent firstPlay.
Proof.
  unfold missingRequired, requiredPresent.
  rewrite <- !truthy_nonEmpty.
  destruct (truthy (firstPlay !! "Opponent")), (truthy (firstPlay !! "Date")),
    (truthy (firstPlay !! "Season")); simpl; intuition congruence.
Qed.

Lemma elem_of_games data game :
  game ∈ Result.games (analyse data) ↔
    ∃ g, g ∈ gameIds data ∧ value (buildGame data g) = Some game.
Proof.
  rewrite analyse_unfold. simpl. rewrite value_gameDataOf.
  apply list_elem_of_omap.
Qed.

Lemma elem_of_locationsOf data location :
  location ∈ locationsOf data ↔ observedLocation data location.
Proof.
  unfold locationsOf, observedLocation.
  rewrite elem_of_truthyOnly, elem_of_uniq, list_elem_of_fmap.
  split.
  - intros [(r & Hr & Hin) Hne]. split; [done|]. by exists r.
  - intros [Hne (r & Hin & Hr)]. split; [|done]. by exists r.
Qed.

Lemma shotMapData_lookup data location :
  Result.shotMapData (analyse data) !! location =
    if decide (location ∈ locationsOf data ∧ location ≠ "__proto__")
    then Some (shotEntry data location) else None.
Proof.
  rewrite analyse_unfold. simpl. unfold shotMapDataOf.
  rewrite (lookup_foldl_assign (shotEntry data)). by rewrite lookup_empty.
Qed.

Lemma shotMapData_is_Some data location :
  is_Some (Result.shotMapData (analyse data) !! location)
  ↔ observedLocation data location ∧ location ≠ "__proto__".
Proof.
  rewrite shotMapData_lookup, <- elem_of_locationsOf.
  destruct (decide _) as [|Hno]; split; intros H; done.
Qed.

Lemma locationPlaysOf_nil data location :
  (∀ r : row, r ∈ data → r !! "Location on Field" = Some location → ¬ isShotRow r) →
  locationPlaysOf data location = [].
Proof.
  intros H. unfold locationPlaysOf.
  induction data as [|r data IH]; [done|].
  rewrite filter_cons_False.
  - apply IH. intros r' Hin. apply H. by right.
  - intros [Hloc Hshot]. by apply (H r); [left|..].
Qed.

Lemma shotEntry_noShots data location :
  locationPlaysOf data location = [] → shotEntry data location = noShots.
Proof. unfold shotEntry. intros ->. reflexivity. Qed.

(** C1 (as stated): the Shot Map would have an entry exactly for the
    non-empty locations seen in rows that attempt a shot. A single pass in
    midfield refutes it: the location gets an entry although no shot was
    attempted there. *)
Lemma shot_map_keys_counterexample :
  ¬ keysAreShotLocations
      [rowOf [("Location on Field", "Midfield"); ("Shot Attempt", "No")]].
Proof.
  intros H. destruct (H "Midfield") as [Hshot _].
  destruct Hshot as [_ (r & Hin & _ & Hyes)].
  - apply shotMapData_is_Some. split; [|done]. split; [done|].
    eexists. split; [by left|]. reflexivity.
  - apply list_elem_of_singleton in Hin. subst r.
    unfold isShotRow in Hyes. vm_compute in Hyes. discriminate.
Qed.

(** C1 (amended): the Shot Map has an entry exactly for the non-empty
    locations other than [__proto__] seen in any row, whether or not a
    shot was attempted; such a location seen only in rows without an
    attempted shot has the entry with zero shots, zero goals, average xG 0
    and success rate 0. The name [__proto__] never gets an entry. *)
Theorem shot_map_keys (data : list row) (location : string) :
  (is_Some (Result.shotMapData (analyse data) !! location)
   ↔ observedLocation data location ∧ location ≠ "__proto__")
  ∧ (observedLocation data location →
     location ≠ "__proto__" →
     ¬ shotLocation data location →
     Result.shotMapData (analyse data) !! location = Some noShots)
  ∧ Result.shotMapData (analyse data) !! "__proto__" = None.
Proof.
  split; [apply shotMapData_is_Some|]. split.
  - intros Hobs Hown Hno. rewrite shotMapData_lookup.
    rewrite decide_True by (split; [by apply elem_of_locationsOf|done]).
    f_equal. apply shotEntry_noShots, locationPlaysOf_nil.
    intros r Hin Hloc Hshot. apply Hno. split; [apply Hobs|]. by exists r.
  - rewrite shotMapData_lookup. by rewrite decide_False by (intros [_ ?]; done).
Qed.

Lemma shot_map_keys_witness :
  Result.shotMapData
    (analyse [rowOf [("Location on Field", "Midfield"); ("Shot Attempt", "No")]])
    !! "Midfield" = Some noShots.
Proof.
  apply (shot_map_keys
    [rowOf [("Location on Field", "Midfield"); ("Shot Attempt", "No")]] "Midfield").
  - split; [done|]. eexists. split; [by left|]. reflexivity.
  - done.
  - intros [_ (r & Hin & _ & Hyes)].
    apply list_elem_of_singleton in Hin. subst r.
    unfold isShotRow in Hyes. vm_compute in Hyes. discriminate.
Defined.

Lemma locationPlaysOf_insert data1 (r : row) data2 location :
  ¬ isShotRow r →
  locationPlaysOf (data1 ++ r :: data2) location
  = locationPlaysOf (data1 ++ data2) location.
Proof.
  intros Hno. unfold locationPlaysOf.
  rewrite !filter_app, filter_cons_False; [done|].
  intros [_ Hshot]. done.
Qed.

Lemma shotEntry_insert data1 (r : row) data2 location :
  ¬ isShotRow r →
  shotEntry (data1 ++ r :: data2) location = shotEntry (data1 ++ data2) location.
Proof. intros Hno. unfold shotEntry. by rewrite locationPlaysOf_insert. Qed.

Lemma locationPlaysOf_unobserved data location :
  location ≠ "" → ¬ observedLocation data location →
  locationPlaysOf data location = [].
Proof.
  intros Hne Hno. apply locationPlaysOf_nil. intros r Hin Hloc _.
  apply Hno. split; [done|]. by exists r.
Qed.

Lemma Forall_isShotRow_locationPlaysOf data location :
  Forall isShotRow (locationPlaysOf data location).
Proof.
  apply Forall_forall. intros r Hin.
  apply list_elem_of_filter in Hin. by destruct Hin as [[_ ?] _].
Qed.

(** C2: every row counted in a Shot Map entry's totalShots, goals and
    avgXG attempts a shot: the entry is computed from the rows of its
    location whose Shot Attempt is the yes-marker, and from nothing else.
    A row without a shot attempt contributes to no count: taking such a
    row out of the input leaves the entry as it is, or removes an entry
    whose counts were all zero. *)
Theorem shot_map_counts_attempts (data : list row) (location : string)
    (entry : ShotMap.t) :
  Result.shotMapData (analyse data) !! location = Some entry →
  (∃ counted : list row,
      counted = filter (λ r : row, r !! "Location on Field" = Some location
                                   ∧ r !! "Shot Attempt" = Some "Yes") data
      ∧ Forall (λ r : row, r !! "Shot Attempt" = Some "Yes") counted
      ∧ ShotMap.totalShots entry = length counted
      ∧ ShotMap.goals entry
        = length (filter (λ r : row, r !! "Shot Outcome" = Some "Goal") counted)
      ∧ ShotMap.avgXG entry
        = orZero (div (sumRowXG counted) (ofNat (length counted))))
  ∧ (∀ data1 (r : row) data2,
      data = data1 ++ r :: data2 →
      r !! "Shot Attempt" ≠ Some "Yes" →
      Result.shotMapData (analyse (data1 ++ data2)) !! location = Some entry
      ∨ (Result.shotMapData (analyse (data1 ++ data2)) !! location = None
         ∧ entry = noShots)).
Proof.
  intros Hentry. pose proof Hentry as Hobs.
  rewrite shotMapData_lookup in Hentry.
  destruct (decide _) as [[Hin Hown]|]; [|done]. injection Hentry as <-.
  apply elem_of_locationsOf in Hin. split.
  - exists (locationPlaysOf data location).
    split; [done|]. split; [apply Forall_isShotRow_locationPlaysOf|done].
  - intros data1 r data2 -> Hno.
    rewrite shotMapData_lookup, (shotEntry_insert _ _ _ _ Hno).
    destruct (decide _) as [Hin'|Hnin']; [by left|right].
    split; [done|]. apply shotEntry_noShots, locationPlaysOf_unobserved.
    + apply Hin.
    + rewrite <- elem_of_locationsOf. tauto.
Qed.

Lemma shot_map_counts_attempts_witness :
  Result.shotMapData (analyse Sample.records) !! "Box" = Some Sample.boxEntry
  ∧ ∃ counted : list row,
      Forall (λ r : row, r !! "Shot Attempt" = Some "Yes") counted
      ∧ ShotMap.totalShots Sample.boxEntry = length counted.
Proof.
  assert (Result.shotMapData (analyse Sample.records) !! "Box"
          = Some Sample.boxEntry) as H by (vm_compute; reflexivity).
  split; [exact H|].
  destruct (shot_map_counts_attempts _ _ _ H)
    as [(counted & _ & Hall & Hn & _) _].
  exists counted. split; [exact Hall|exact Hn].
Defined.

(** ** Games *)

Lemma first_play_of_id data gameId :
  gameId ∈ (λ r : row, r !! "Game ID") <$> data →
  ∃ firstPlay, head (gamePlaysOf data gameId) = Some firstPlay.
Proof.
  intros Hin. apply list_elem_of_fmap in Hin as (r & -> & Hin).
  destruct (gamePlaysOf data (r !! "Game ID")) as [|fp l] eqn:Hplays.
  - exfalso. apply (filter_nil_not_elem_of _ _ r) in Hplays; done.
  - by exists fp.
Qed.

(** C5: for every game identifier occurring in the records there is a
    first record carrying it, and a Game is materialized for the identifier
    if and only if that record's Opponent, Date and Season are all
    non-empty. The materialized Game is the only one with that identifier,
    takes opponent, date and season from the first record, and its plays are
    exactly the matching records in source order. Otherwise no Game with
    that identifier is produced, a warning naming the identifier is logged,
    and the run still yields its result. The plays of the Game are as many
    as the matching records, and the play at each position has its fields
    from the record at that position. *)
Theorem game_materialized (data : list row) (gameId : option string) :
  gameId ∈ (λ r : row, r !! "Game ID") <$> data →
  ∃ firstPlay : row,
    head (filter (λ r : row, r !! "Game ID" = gameId) data) = Some firstPlay
    ∧ ((∃ game, game ∈ Result.games (analyse data) ∧ Game.gameId game = gameId)
       ↔ requiredPresent firstPlay)
    ∧ (requiredPresent firstPlay →
       filter (λ game, Game.gameId game = gameId) (Result.games (analyse data))
       = [ {| Game.gameId := gameId;
              Game.opponent := firstPlay !! "Opponent";
              Game.date := firstPlay !! "Date";
              Game.season := firstPlay !! "Season";
              Game.plays :=
                toPlay <$> filter (λ r : row, r !! "Game ID" = gameId) data |} ])
    ∧ (¬ requiredPresent firstPlay →
       filter (λ game, Game.gameId game = gameId) (Result.games (analyse data)) = []
       ∧ MissingFields gameId firstPlay ∈ diagnostics data)
    ∧ (∀ game, game ∈ Result.games (analyse data) → Game.gameId game = gameId →
       length (Game.plays game)
       = length (filter (λ r : row, r !! "Game ID" = gameId) data)
       ∧ ∀ i (r : row),
           filter (λ r : row, r !! "Game ID" = gameId) data !! i = Some r →
           ∃ play,
             Game.plays game !! i = Some play
             ∧ Play.minute play = orZero (parseInt (r !! "Minute"))
             ∧ Play.playType play = r !! "Play Type"
             ∧ Play.shotAttempt play = r !! "Shot Attempt"
             ∧ Play.shotDistance play
               = (if truthy (r !! "Shot Distance")
                  then Some (parseInt (r !! "Shot Distance")) else None)
             ∧ Play.shotOutcome play = r !! "Shot Outcome"
             ∧ Play.xG play = orZero (parseFloat (r !! "xG"))
             ∧ Play.playContext play = r !! "Play Context"
             ∧ Play.location play = r !! "Location on Field"
             ∧ Play.outcome play = r !! "Outcome"
             ∧ Play.success play = bool_decide (r !! "Success" = Some "Yes")
             ∧ Play.winImpact play = orZero (parseInt (r !! "Win Impact"))
             ∧ Play.assistType play = r !! "Assist Type"
             ∧ Play.phaseOfMatch play = r !! "Phase of Match").
Proof.
  intros Hin. destruct (first_play_of_id _ _ Hin) as [firstPlay Hfirst].
  exists firstPlay. split; [done|].
  assert (∀ A B C D : Prop, D → A ∧ B ∧ C → A ∧ B ∧ C ∧ D) as Hadd by tauto.
  apply Hadd; clear Hadd.
  { intros game Hgame Hid.
    pose proof (games_with_id data gameId) as Hgames.
    rewrite value_buildGame, Hfirst in Hgames.
    assert (game ∈ filter (λ game, Game.gameId game = gameId)
                      (Result.games (analyse data))) as Hf
      by by apply list_elem_of_filter.
    rewrite Hgames in Hf.
    destruct (missingRequired firstPlay); [by apply elem_of_nil in Hf|].
    apply list_elem_of_singleton in Hf. subst game. cbn [Game.plays].
    split; [by rewrite length_fmap|].
    intros i r Hr. exists (toPlay r). split.
    - unfold gamePlaysOf. by rewrite list_lookup_fmap, Hr.
    - unfold toPlay. cbn. repeat split; reflexivity. }
  assert (gameId ∈ gameIds data) as Hid.
  { apply elem_of_gameIds. apply list_elem_of_fmap in Hin as (r & -> & ?).
    by exists r. }
  pose proof (games_with_id data gameId) as Hgames.
  rewrite value_buildGame in Hgames. unfold gamePlaysOf in *.
  rewrite Hfirst in Hgames.
  destruct (missingRequired firstPlay) eqn:Hmiss.
  - assert (¬ requiredPresent firstPlay) as Hno.
    { rewrite <- missingRequired_false. congruence. }
    split; [|split; [done|]].
    + split; [|done]. intros (game & Hgame & Hgid). exfalso.
      assert (game ∈ filter (λ game, Game.gameId game = gameId)
                        (Result.games (analyse data))) as Hf
        by by apply list_elem_of_filter.
      rewrite Hgames in Hf. by apply elem_of_nil in Hf.
    + intros _. split; [done|].
      rewrite diagnostics_unfold. apply list_elem_of_In, in_flat_map.
      exists gameId. split; [by apply list_elem_of_In|].
      rewrite warnings_buildGame. unfold gamePlaysOf. rewrite Hfirst, Hmiss.
      by left.
  - assert (requiredPresent firstPlay) as Hyes by by apply missingRequired_false.
    split; [|split; [done|done]].
    split; [done|]. intros _.
    assert (∀ game,
      game ∈ filter (λ game, Game.gameId game = gameId)
                    (Result.games (analyse data)) →
      ∃ game, game ∈ Result.games (analyse data) ∧ Game.gameId game = gameId)
      as Hex.
    { intros game Hf. apply list_elem_of_filter in Hf as [? ?]. by exists game. }
    eapply Hex. rewrite Hgames. by left.
Qed.

Lemma game_materialized_witness :
  Some "1" ∈ (λ r : row, r !! "Game ID") <$> Sample.records
  ∧ ∃ firstPlay : row,
      head (filter (λ r : row, r !! "Game ID" = Some "1") Sample.records)
      = Some firstPlay
      ∧ ((∃ game, game ∈ Result.games (analyse Sample.records)
                  ∧ Game.gameId game = Some "1")
         ↔ requiredPresent firstPlay).
Proof.
  assert (Some "1" ∈ (λ r : row, r !! "Game ID") <$> Sample.records) as Hin
    by (vm_compute; left).
  split; [exact Hin|].
  destruct (game_materialized _ _ Hin) as (firstPlay & Hfirst & Hiff & _).
  exists firstPlay. split; [exact Hfirst|exact Hiff].
Defined.

Lemma game_has_plays data game :
  game ∈ Result.games (analyse data) →
  ∃ firstPlay : row,
    head (gamePlaysOf data (Game.gameId game)) = Some firstPlay
    ∧ requiredPresent firstPlay
    ∧ game = {| Game.gameId := Game.gameId game;
                Game.opponent := firstPlay !! "Opponent";
                Game.date := firstPlay !! "Date";
                Game.season := firstPlay !! "Season";
                Game.plays := toPlay <$> gamePlaysOf data (Game.gameId game) |}.
Proof.
  intros Hin. apply elem_of_games in Hin as (g & Hg & Hbuilt).
  pose proof (gameId_of_built _ _ _ Hbuilt) as Hid.
  rewrite value_buildGame in Hbuilt.
  destruct (head _) as [firstPlay|] eqn:Hfirst; [|done].
  destruct (missingRequired firstPlay) eqn:Hmiss; [done|].
  injection Hbuilt as <-. simpl in *. exists firstPlay.
  split; [done|]. split; [by apply missingRequired_false|done].
Qed.

Lemma goal_of_game data goal :
  goal ∈ Result.goalsTimeline (analyse data) →
  ∃ game, game ∈ Result.games (analyse data)
          ∧ Goal.gameId goal = Game.gameId game.
Proof.
  rewrite analyse_unfold. simpl. unfold goalsTimelineOf.
  intros Hin. apply list_elem_of_In, in_flat_map in Hin as (game & Hgame & Hgoal).
  exists game. split; [by apply list_elem_of_In|].
  unfold goalsOfGame in Hgoal. apply list_elem_of_In, list_elem_of_fmap in Hgoal
    as (play & -> & _). done.
Qed.

Lemma teamComparison_lookup data opponent :
  Result.teamComparison (analyse data) !! opponent =
    if decide (opponent ∈ opponentsOf data ∧ opponent ≠ "__proto__")
    then Some (teamEntry (Result.games (analyse data)) opponent) else None.
Proof.
  rewrite analyse_unfold. simpl. unfold teamComparisonOf.
  rewrite (lookup_foldl_assign (teamEntry _)). by rewrite lookup_empty.
Qed.

Lemma elem_of_opponentsOf data opponent :
  opponent ∈ opponentsOf data ↔
    opponent ≠ "" ∧ ∃ r : row, r ∈ data ∧ r !! "Opponent" = Some opponent.
Proof.
  unfold opponentsOf.
  rewrite elem_of_truthyOnly, elem_of_uniq, list_elem_of_fmap.
  split.
  - intros [(r & Hr & Hin) Hne]. split; [done|]. by exists r.
  - intros [Hne (r & Hin & Hr)]. split; [|done]. by exists r.
Qed.

Lemma no_NoPlays data gameId : NoPlays gameId ∉ diagnostics data.
Proof.
  rewrite diagnostics_unfold. intros Hin.
  apply list_elem_of_In, in_flat_map in Hin as (g & Hg & Hw).
  apply list_elem_of_In, elem_of_gameIds in Hg as (r & Hr & Hid).
  rewrite warnings_buildGame in Hw.
  destruct (head (gamePlaysOf data g)) as [fp|] eqn:Hhead.
  - destruct (missingRequired fp); [|done].
    destruct Hw as [Hw|[]]. discriminate.
  - apply head_None in Hhead.
    by apply (filter_nil_not_elem_of (λ r' : row, r' !! "Game ID" = g) data r).
Qed.

Lemma filter_ext_elem_of {X} (P1 P2 : X → Prop)
    `{!∀ x, Decision (P1 x), !∀ x, Decision (P2 x)} (l : list X) :
  (∀ x, x ∈ l → (P1 x ↔ P2 x)) → filter P1 l = filter P2 l.
Proof.
  induction l as [|a l IH]; intros Hiff; [done|].
  assert (filter P1 l = filter P2 l) as Hl.
  { apply IH. intros x Hx. apply Hiff. by right. }
  assert (P1 a ↔ P2 a) as Ha by (apply Hiff; left).
  destruct (decide (P1 a)).
  - rewrite !filter_cons_True by tauto. by rewrite Hl.
  - rewrite !filter_cons_False by tauto. done.
Qed.

(** C9: a game identifier with no associated play has no game in the games
    output, no entry in goalsTimeline, and no part in any gamesPlayed count
    of the Team Comparison; and the no-plays branch of the materialization
    is never taken: every identifier that is looked up has a play, and no
    no-plays warning is ever logged. *)
Theorem playless_game_absent (data : list row) (gameId : option string) :
  filter (λ r : row, r !! "Game ID" = gameId) data = [] →
  (∀ game, game ∈ Result.games (analyse data) → Game.gameId game ≠ gameId)
  ∧ (∀ goal, goal ∈ Result.goalsTimeline (analyse data) →
       Goal.gameId goal ≠ gameId)
  ∧ (∀ opponent entry,
       Result.teamComparison (analyse data) !! opponent = Some entry →
       Team.gamesPlayed entry
       = length (filter (λ game, Game.opponent game = Some opponent
                                 ∧ Game.gameId game ≠ gameId)
                        (Result.games (analyse data))))
  ∧ (∀ g, g ∈ gameIds data → filter (λ r : row, r !! "Game ID" = g) data ≠ [])
  ∧ (∀ g, NoPlays g ∉ diagnostics data).
Proof.
  intros Hempty.
  assert (∀ game, game ∈ Result.games (analyse data) →
                  Game.gameId game ≠ gameId) as Hgames.
  { intros game Hin Hid.
    destruct (game_has_plays _ _ Hin) as (fp & Hhead & _).
    unfold gamePlaysOf in Hhead. rewrite Hid, Hempty in Hhead. done. }
  split; [done|]. split; [|split; [|split]].
  - intros goal Hin. destruct (goal_of_game _ _ Hin) as (game & Hgame & ->).
    by apply Hgames.
  - intros opponent entry. rewrite teamComparison_lookup.
    destruct (decide _); [|done]. intros [= <-]. simpl.
    unfold opponentGamesOf. f_equal.
    apply filter_ext_elem_of. intros game Hin.
    specialize (Hgames game Hin). tauto.
  - intros g Hg Hnil. apply elem_of_gameIds in Hg as (r & Hr & Hid).
    by apply (filter_nil_not_elem_of (λ r' : row, r' !! "Game ID" = g) data r).
  - apply no_NoPlays.
Qed.

Lemma playless_game_absent_witness :
  filter (λ r : row, r !! "Game ID" = Some "7") Sample.records = []
  ∧ ∀ game, game ∈ Result.games (analyse Sample.records) →
            Game.gameId game ≠ Some "7".
Proof.
  assert (filter (λ r : row, r !! "Game ID" = Some "7") Sample.records = [])
    as Hempty by (vm_compute; reflexivity).
  split; [exact Hempty|].
  exact (proj1 (playless_game_absent _ _ Hempty)).
Defined.

(** ** The Team Comparison *)

Lemma teamEntry_noGames gameData opponent :
  (∀ game, game ∈ gameData → Game.opponent game ≠ Some opponent) →
  teamEntry gameData opponent = noGames.
Proof.
  intros Hno. unfold teamEntry.
  assert (opponentGamesOf gameData opponent = []) as ->; [|reflexivity].
  unfold opponentGamesOf. induction gameData as [|game gameData IH]; [done|].
  rewrite filter_cons_False.
  - apply IH. intros g Hg. apply Hno. by right.
  - apply Hno. by left.
Qed.

(** C10 (as stated): every non-empty Opponent value of a record would be
    listed in the opponents output and be a key of the Team Comparison. A
    record whose opponent is [__proto__] refutes it: the name is listed,
    but the assignment [teamComparison[opponent] = ...] replaces the
    prototype of the object and gives it no entry. *)
Lemma opponent_key_counterexample :
  ¬ opponentsAreKeys [rowOf [("Game ID", "1"); ("Opponent", "__proto__")]].
Proof.
  intros H.
  destruct (H "__proto__") as [_ [entry Hentry]]; [done| |].
  - eexists. split; [by left|]. reflexivity.
  - rewrite teamComparison_lookup in Hentry.
    by rewrite decide_False in Hentry by (intros [_ ?]; done).
Qed.

(** C10 (amended): every non-empty Opponent value that occurs in some
    record is listed in the opponents output and, unless it is the name
    [__proto__], is a key of the Team Comparison, even when no materialized
    game is against that opponent (all its games were dropped for missing
    required fields); the entry then has gamesPlayed 0, totalGoals 0,
    totalShots 0, totalXG 0, conversionRate 0 and avgXGPerShot 0. The name
    [__proto__] is never a key of the Team Comparison. *)
Theorem opponent_always_listed (data : list row) (opponent : string) :
  opponent ≠ "" →
  (∃ r : row, r ∈ data ∧ r !! "Opponent" = Some opponent) →
  opponent ∈ Result.opponents (analyse data)
  ∧ (opponent ≠ "__proto__" →
     ∃ entry,
       Result.teamComparison (analyse data) !! opponent = Some entry
       ∧ ((∀ game, game ∈ Result.games (analyse data) →
                   Game.opponent game ≠ Some opponent) →
          entry = noGames))
  ∧ Result.teamComparison (analyse data) !! "__proto__" = None.
Proof.
  intros Hne Hocc.
  assert (opponent ∈ opponentsOf data) as Hin by by apply elem_of_opponentsOf.
  split; [by rewrite analyse_unfold|]. split.
  - intros Hown.
    exists (teamEntry (Result.games (analyse data)) opponent). split.
    + rewrite teamComparison_lookup. by rewrite decide_True.
    + apply teamEntry_noGames.
  - rewrite teamComparison_lookup.
    by rewrite decide_False by (intros [_ ?]; done).
Qed.

Lemma opponent_always_listed_witness :
  "B" ≠ ""
  ∧ (∃ r : row, r ∈ Sample.records ∧ r !! "Opponent" = Some "B")
  ∧ "B" ∈ Result.opponents (analyse Sample.records)
  ∧ ∃ entry,
      Result.teamComparison (analyse Sample.records) !! "B" = Some entry
      ∧ ((∀ game, game ∈ Result.games (analyse Sample.records) →
                  Game.opponent game ≠ Some "B") →
         entry = noGames).
Proof.
  assert (∃ r : row, r ∈ Sample.records ∧ r !! "Opponent" = Some "B") as Hocc.
  { exists Sample.passB. split; [|reflexivity].
    unfold Sample.records. right. right. left. }
  split; [done|]. split; [exact Hocc|].
  destruct (opponent_always_listed Sample.records "B" ltac:(done) Hocc)
    as (Hlisted & Hkey & _).
  split; [exact Hlisted|]. exact (Hkey ltac:(done)).
Defined.

(** ** Per-opponent goals against the overall total *)

Section double_counting.
Context {X K : Type} `{EqDecision K} (key : X → K) (h : X → nat).

Lemma sum_indicator (L : list K) (k0 : K) (c : nat) (f : K → nat) :
  NoDup L →
  sum_list ((λ k, (if decide (k0 = k) then c else 0) + f k)%nat <$> L)
  = ((if decide (k0 ∈ L) then c else 0) + sum_list (f <$> L))%nat.
Proof.
  induction 1 as [|k L Hk Hnd IH]; [done|]. csimpl. rewrite IH.
  destruct (decide (k0 = k)) as [Heq|Hne];
    destruct (decide (k0 ∈ L)) as [HL|HL];
    destruct (decide (k0 ∈ k :: L)) as [HkL|HkL];
    rewrite elem_of_cons in HkL; try lia; exfalso; subst; tauto.
Qed.

Lemma sum_by_key (L : list K) (items : list X) :
  NoDup L →
  sum_list ((λ k, sum_list (h <$> filter (λ x, key x = k) items)) <$> L)
  = sum_list (h <$> filter (λ x, key x ∈ L) items).
Proof.
  intros Hnd. induction items as [|x items IH].
  - simpl. clear Hnd. induction L as [|k L IHL]; [done|]. csimpl. by rewrite IHL.
  - transitivity (sum_list
      ((λ k, (if decide (key x = k) then h x else 0)
             + sum_list (h <$> filter (λ x, key x = k) items))%nat <$> L)).
    + f_equal. apply list_fmap_ext. intros _ k _.
      rewrite filter_cons. by destruct (decide (key x = k)).
    + rewrite sum_indicator, IH by done. rewrite filter_cons.
      by destruct (decide (key x ∈ L)).
Qed.
End double_counting.

Lemma length_as_sum {X} (l : list X) : length l = sum_list ((λ _, 1%nat) <$> l).
Proof. induction l; csimpl; congruence. Qed.


Lemma length_filter_flat_map {X Y} (P : Y → Prop) `{!∀ y, Decision (P y)}
    (f : X → list Y) (l : list X) :
  length (filter P (flat_map f l))
  = sum_list ((λ x, length (filter P (f x))) <$> l).
Proof.
  induction l as [|x l IH]; [done|]. csimpl.
  by rewrite filter_app, length_app, IH.
Qed.

Lemma length_filter_as_sum {X} (P : X → Prop) `{!∀ x, Decision (P x)} (l : list X) :
  length (filter P l) = sum_list ((λ x, if decide (P x) then 1 else 0)%nat <$> l).
Proof.
  induction l as [|x l IH]; [done|]. rewrite filter_cons. csimpl.
  destruct (decide (P x)); simpl; by rewrite IH.
Qed.

Lemma sum_list_filter_all {X} (P : X → Prop) `{!∀ x, Decision (P x)}
    (h : X → nat) (l : list X) :
  (∀ x, x ∈ l → ¬ P x → h x = 0%nat) →
  sum_list (h <$> filter P l) = sum_list (h <$> l).
Proof.
  induction l as [|x l IH]; intros Hz; [done|]. rewrite filter_cons. csimpl.
  assert (sum_list (h <$> filter P l) = sum_list (h <$> l)) as Hl.
  { apply IH. intros y Hy. apply Hz. by right. }
  destruct (decide (P x)) as [|Hn]; csimpl; rewrite Hl; [done|].
  rewrite (Hz x); [done|by left|done].
Qed.


Lemma NoDup_materialized_ids data :
  NoDup (Game.gameId <$> Result.games (analyse data)).
Proof.
  rewrite analyse_unfold. simpl. rewrite value_gameDataOf.
  pose proof (NoDup_gameIds data) as Hnd.
  assert (∀ ids, NoDup ids →
    NoDup (Game.gameId <$> omap (λ g, value (buildGame data g)) ids)
    ∧ ∀ g, g ∈ Game.gameId <$> omap (λ g, value (buildGame data g)) ids →
           g ∈ ids) as H; [|by apply H].
  induction 1 as [|g ids Hg Hnd' [IH1 IH2]].
  - split; [constructor|]. intros g Hg. by apply elem_of_nil in Hg.
  - csimpl. destruct (value (buildGame data g)) as [game|] eqn:Hb; csimpl.
    + rewrite (gameId_of_built _ _ _ Hb). split.
      * constructor; [|done]. intros Hin. by apply Hg, IH2.
      * intros g'. rewrite !elem_of_cons. intros [->|?]; [by left|].
        right. by apply IH2.
    + split; [done|]. intros g' Hin. right. by apply IH2.
Qed.

Lemma materialized_opponent_listed data game :
  game ∈ Result.games (analyse data) →
  ∃ opponent, Game.opponent game = Some opponent
              ∧ opponent ∈ Result.opponents (analyse data).
Proof.
  intros Hin. destruct (game_has_plays _ _ Hin) as (fp & Hhead & Hreq & Heq).
  destruct Hreq as [(o & Ho & Hne) _]. exists o.
  split; [rewrite Heq; done|].
  rewrite analyse_unfold. simpl. apply elem_of_opponentsOf. split; [done|].
  exists fp. split; [|done].
  apply head_Some_elem_of in Hhead. by apply list_elem_of_filter in Hhead as [_ ?].
Qed.

Lemma NoDup_opponentsOf data : NoDup (opponentsOf data).
Proof. apply NoDup_truthyOnly, NoDup_uniq. Qed.

Lemma NoDup_fmap_filter {X Y} (g : X → Y) (P : X → Prop)
    `{!∀ x, Decision (P x)} (l : list X) :
  NoDup (g <$> l) → NoDup (g <$> filter P l).
Proof.
  induction l as [|x l IH]; [done|]. csimpl. intros Hnd.
  apply NoDup_cons in Hnd as [Hx Hnd]. rewrite filter_cons.
  destruct (decide (P x)); [|by apply IH]. csimpl.
  apply NoDup_cons. split; [|by apply IH].
  intros Hin. apply Hx. apply list_elem_of_fmap in Hin as (y & -> & Hy).
  apply list_elem_of_filter in Hy as [_ Hy]. by apply list_elem_of_fmap_2.
Qed.

(** The opponents that get an entry in the Team Comparison, and the games
    against them. *)
Lemma keyed_opponent data game :
  game ∈ Result.games (analyse data) →
  Game.opponent game
    ∈ Some <$> filter (λ k, k ≠ "__proto__") (opponentsOf data)
  ↔ Game.opponent game ≠ Some "__proto__".
Proof.
  intros Hin. destruct (materialized_opponent_listed _ _ Hin) as (o & -> & Ho).
  rewrite analyse_unfold in Ho. simpl in Ho. split.
  - intros Hk [= ->]. apply list_elem_of_fmap in Hk as (k & [= <-] & Hk).
    by apply list_elem_of_filter in Hk as [? _].
  - intros Hne. apply list_elem_of_fmap_2, list_elem_of_filter.
    split; [|done]. intros ->. done.
Qed.


Lemma teamComparison_is_Some data opponent :
  is_Some (Result.teamComparison (analyse data) !! opponent)
  ↔ opponent ∈ Result.opponents (analyse data) ∧ opponent ≠ "__proto__".
Proof.
  rewrite teamComparison_lookup.
  assert (Result.opponents (analyse data) = opponentsOf data) as ->
    by by rewrite analyse_unfold.
  destruct (decide _); split; intros H; done.
Qed.







(** ** The tabular loader *)

Lemma truthy_trim line : truthy (Some (trim line)) = true ↔ trim line ≠ "".
Proof. destruct (trim line); simpl; split; done. Qed.

Lemma forLines_spec headers lines i data out :
  forLines headers i lines data out
  = (data ++ rowsOf headers lines, out ++ skipsAt headers i lines).
Proof.
  revert i data out. induction lines as [|line lines IH]; intros i data out.
  - simpl. unfold rowsOf, skipsAt. simpl. by rewrite !app_nil_r.
  - assert (skipsAt headers (S i) lines
            = (λ il, MalformedRow (il.1 + 1) il.2)
                <$> filter (λ il, ragged headers il.2)
                      (imap ((λ j line, (i + j, line)%nat) ∘ S) lines)) as Hshift.
    { unfold skipsAt. do 2 f_equal. apply imap_ext. intros j l _. simpl.
      f_equal. lia. }
    simpl. unfold mbind, bind, parseLine.
    destruct (truthy (Some (trim line))) eqn:Hblank.
    + apply truthy_trim in Hblank.
      destruct (decide (length (split "," line) ≠ length headers)) as [Hne|Heq].
      * unfold warn, mret, ret. simpl. rewrite IH.
        unfold rowsOf, skipsAt. rewrite imap_cons.
        rewrite filter_cons_False by (intros [_ ?]; done).
        rewrite (filter_cons_True (λ il, ragged headers il.2)) by done.
        fold (rowsOf headers lines). rewrite fmap_cons, <- Hshift. simpl.
        rewrite Nat.add_0_r. by rewrite <- app_assoc.
      * assert (length (split "," line) = length headers) as Heq'
          by (destruct (decide (length (split "," line) = length headers)); tauto).
        unfold mret, ret. rewrite IH.
        unfold rowsOf, skipsAt. rewrite imap_cons.
        rewrite filter_cons_True by done.
        rewrite (filter_cons_False (λ il, ragged headers il.2))
          by (intros [_ ?]; done).
        rewrite fmap_cons, <- app_assoc. simpl.
        fold (rowsOf headers lines). by rewrite <- Hshift.
    + assert (trim line = "") as Hb.
      { destruct (trim line); [done|]. simpl in Hblank. discriminate. }
      unfold mret, ret. rewrite IH.
      unfold rowsOf, skipsAt. rewrite imap_cons.
      rewrite filter_cons_False by (intros [? _]; done).
      rewrite (filter_cons_False (λ il, ragged headers il.2))
        by (intros [? _]; done).
      fold (rowsOf headers lines). by rewrite <- Hshift.
Qed.

Lemma split_nonempty sep s : split sep s ≠ [].
Proof.
  destruct s as [|c s]; simpl; [done|].
  destruct (Ascii.eqb c sep); [done|]. by destruct (split sep s).
Qed.

Lemma parseCSV_spec csvContent out :
  parseCSV csvContent out
  = (rowsOf (headerOf csvContent) (dataLinesOf csvContent),
     out ++ skipSet csvContent).
Proof.
  unfold parseCSV, headerOf, dataLinesOf, skipSet, headerOf, dataLinesOf.
  pose proof (split_nonempty LF csvContent) as Hne.
  destruct (split LF csvContent) as [|line0 rest]; [done|]. simpl.
  by rewrite forLines_spec.
Qed.

Lemma value_parseCSV csvContent :
  value (parseCSV csvContent)
  = rowsOf (headerOf csvContent) (dataLinesOf csvContent).
Proof. unfold value, run. by rewrite parseCSV_spec. Qed.

Lemma warnings_parseCSV csvContent :
  warnings (parseCSV csvContent) = skipSet csvContent.
Proof. unfold warnings, run. by rewrite parseCSV_spec. Qed.

Lemma appends_parseCSV csvContent : appends (parseCSV csvContent).
Proof.
  intros out. by rewrite parseCSV_spec, value_parseCSV, warnings_parseCSV.
Qed.

Lemma appends_processComprehensiveData data :
  appends (processComprehensiveData data).
Proof.
  apply appends_bind; [apply appends_gameDataOf|intros; apply appends_ret].
Qed.

Lemma value_pipeline csvContent :
  value (pipeline csvContent) = analyse (value (parseCSV csvContent)).
Proof.
  unfold pipeline. rewrite value_bind; [done|apply appends_parseCSV|].
  apply appends_processComprehensiveData.
Qed.

Lemma warnings_pipeline csvContent :
  warnings (pipeline csvContent)
  = skipSet csvContent ++ diagnostics (value (parseCSV csvContent)).
Proof.
  unfold pipeline. rewrite warnings_bind;
    [|apply appends_parseCSV|apply appends_processComprehensiveData].
  by rewrite warnings_parseCSV.
Qed.

Lemma rowsOf_drop_ragged headers l1 line l2 :
  ragged headers line → rowsOf headers (l1 ++ line :: l2) = rowsOf headers (l1 ++ l2).
Proof.
  intros [_ Hne]. unfold rowsOf. rewrite !filter_app, filter_cons_False; [done|].
  intros [_ ?]. done.
Qed.

(** C4: every non-blank data line whose number of comma-separated values
    differs from the header's number of columns is skipped with a
    diagnostic that gives its line number and quotes it; it contributes to
    no record (the records are those of the well-formed lines, and are the
    same with the ragged line taken out), hence to no view computed from
    the records; the run still produces its result; and on whatever console
    the loader runs, and however often, the records and the diagnostics it
    adds are the same. *)
Theorem ragged_rows_skipped (csvContent : string) :
  (∀ j line,
      dataLinesOf csvContent !! j = Some line →
      trim line ≠ "" →
      length (split "," line) ≠ length (headerOf csvContent) →
      MalformedRow (j + 2) line ∈ warnings (parseCSV csvContent))
  ∧ value (parseCSV csvContent)
    = (λ line, mkRow (headerOf csvContent) (split "," line))
        <$> filter (wellFormed (headerOf csvContent)) (dataLinesOf csvContent)
  ∧ (∀ before line after,
      dataLinesOf csvContent = before ++ line :: after →
      ragged (headerOf csvContent) line →
      value (parseCSV csvContent)
      = rowsOf (headerOf csvContent) (before ++ after))
  ∧ value (pipeline csvContent) = analyse (value (parseCSV csvContent))
  ∧ (∀ out,
      parseCSV csvContent out
      = (value (parseCSV csvContent), out ++ warnings (parseCSV csvContent)))
  ∧ (∀ out,
      (parseCSV csvContent ;; parseCSV csvContent) out
      = (value (parseCSV csvContent),
         out ++ warnings (parseCSV csvContent) ++ warnings (parseCSV csvContent))).
Proof.
  split; [|split; [|split; [|split; [|split]]]].
  - intros j line Hj Hblank Hcount. rewrite warnings_parseCSV.
    unfold skipSet, skipsAt. apply list_elem_of_fmap.
    exists ((1 + j)%nat, line). split; [simpl; f_equal; lia|].
    apply list_elem_of_filter. split; [by split|].
    apply elem_of_lookup_imap. by exists j, line.
  - apply value_parseCSV.
  - intros before line after Hlines Hragged.
    rewrite value_parseCSV, Hlines. by apply rowsOf_drop_ragged.
  - apply value_pipeline.
  - apply appends_parseCSV.
  - intros out. rewrite (bind_run (parseCSV csvContent) (λ _, parseCSV csvContent));
      [done|apply appends_parseCSV|intros; apply appends_parseCSV].
Qed.

Lemma ragged_rows_skipped_witness :
  dataLinesOf Sample.text !! 1%nat = Some "2"
  ∧ trim "2" ≠ ""
  ∧ length (split "," "2") ≠ length (headerOf Sample.text)
  ∧ MalformedRow 3 "2" ∈ warnings (parseCSV Sample.text).
Proof.
  assert (dataLinesOf Sample.text !! 1%nat = Some "2") as Hline by reflexivity.
  assert (trim "2" ≠ "") as Hblank by (vm_compute; discriminate).
  assert (length (split "," "2") ≠ length (headerOf Sample.text)) as Hcount
    by (vm_compute; discriminate).
  split; [exact Hline|]. split; [exact Hblank|]. split; [exact Hcount|].
  exact (proj1 (ragged_rows_skipped Sample.text) 1%nat "2" Hline Hblank Hcount).
Defined.

(** ** Header-only input *)

Lemma rowsOf_blank headers lines :
  Forall (λ line, trim line = "") lines → rowsOf headers lines = [].
Proof.
  unfold rowsOf. induction 1 as [|line lines Hb _ IH]; [done|].
  rewrite filter_cons_False; [done|]. intros [? _]. done.
Qed.

Lemma skipsAt_blank headers i lines :
  Forall (λ line, trim line = "") lines → skipsAt headers i lines = [].
Proof.
  intros Hall. unfold skipsAt.
  assert (filter (λ il, ragged headers il.2)
                 (imap (λ j line, (i + j, line)%nat) lines) = []) as ->; [|done].
  revert i. induction Hall as [|line lines Hb _ IH]; intros i; [done|].
  rewrite imap_cons, filter_cons_False by (intros [? _]; done).
  rewrite <- (IH (S i)). f_equal. apply imap_ext. intros j l _. simpl.
  f_equal. lia.
Qed.

Lemma analyse_nil : analyse [] = emptyResult.
Proof. reflexivity. Qed.

Lemma diagnostics_nil : diagnostics [] = [].
Proof. reflexivity. Qed.

(** C7: for a header-only text (every line after the header is blank)
    the run raises no fault and logs nothing, and every output field is
    present: goalsTimeline, games and opponents are empty sequences,
    shotMapData, playTypeData and teamComparison are empty mappings, and in
    keyStats totalGames is 0 and every count and rate is 0. *)
Theorem header_only_is_empty (csvContent : string) :
  Forall (λ line, trim line = "") (dataLinesOf csvContent) →
  pipeline csvContent [] = (emptyResult, [])
  ∧ Result.goalsTimeline (value (pipeline csvContent)) = []
  ∧ Result.games (value (pipeline csvContent)) = []
  ∧ Result.opponents (value (pipeline csvContent)) = []
  ∧ Result.shotMapData (value (pipeline csvContent)) = ∅
  ∧ Result.playTypeData (value (pipeline csvContent)) = ∅
  ∧ Result.teamComparison (value (pipeline csvContent)) = ∅
  ∧ Result.keyStats (value (pipeline csvContent))
    = {| KeyStats.totalGames := 0; KeyStats.totalGoals := 0;
         KeyStats.totalShots := 0; KeyStats.totalXG := zero;
         KeyStats.overallConversionRate := zero;
         KeyStats.avgXGPerShot := zero |}.
Proof.
  intros Hblank.
  assert (value (parseCSV csvContent) = []) as Hrows
    by (rewrite value_parseCSV; by apply rowsOf_blank).
  assert (value (pipeline csvContent) = emptyResult) as Hv
    by (by rewrite value_pipeline, Hrows, analyse_nil).
  assert (warnings (pipeline csvContent) = []) as Hw.
  { rewrite warnings_pipeline, Hrows, diagnostics_nil.
    unfold skipSet. by rewrite skipsAt_blank. }
  split; [|by rewrite Hv].
  unfold value, warnings, run in Hv, Hw.
  destruct (pipeline csvContent []) as [res out]. simpl in *. by subst.
Qed.

Lemma header_only_is_empty_witness :
  Forall (λ line, trim line = "") (dataLinesOf Sample.headerOnly)
  ∧ pipeline Sample.headerOnly [] = (emptyResult, []).
Proof.
  assert (Forall (λ line, trim line = "") (dataLinesOf Sample.headerOnly))
    as Hblank by (repeat constructor).
  split; [exact Hblank|].
  exact (proj1 (header_only_is_empty Sample.headerOnly Hblank)).
Defined.

(** ** Binary64 rounding *)

Lemma shr_1_div2 mrs : 0 ≤ shr_m mrs → shr_m (shr_1 mrs) = shr_m mrs / 2.
Proof.
  destruct mrs as [m r s]. cbn [shr_m]. intros Hm.
  destruct m as [|[p|p|]|p]; unfold shr_1; cbn [shr_m]; try done.
  - apply (Z.div_unique _ 2 _ 1); lia.
  - apply (Z.div_unique _ 2 _ 0); lia.
Qed.

Lemma iter_shr_1_div p mrs :
  0 ≤ shr_m mrs →
  shr_m (SpecFloat.iter_pos shr_1 p mrs) = shr_m mrs / 2 ^ Zpos p.
Proof.
  revert mrs. induction p as [p IH|p IH|]; intros mrs Hm; simpl.
  - assert (0 < 2 ^ Zpos p) as Ha by (apply Z.pow_pos_nonneg; lia).
    assert (2 ^ Zpos p~1 = 2 * 2 ^ Zpos p * 2 ^ Zpos p) as ->.
    { rewrite (Pos2Z.inj_xI p).
      replace (2 * Zpos p + 1) with (1 + Zpos p + Zpos p) by lia.
      rewrite !Z.pow_add_r by lia. by rewrite Z.pow_1_r. }
    assert (0 ≤ shr_m (shr_1 mrs)) as H1
      by (rewrite shr_1_div2 by lia; apply Z.div_pos; lia).
    assert (0 ≤ shr_m (SpecFloat.iter_pos shr_1 p (shr_1 mrs))) as H2
      by (rewrite IH by lia; apply Z.div_pos; lia).
    rewrite IH, IH, shr_1_div2 by lia.
    rewrite !Z.div_div by lia. f_equal. ring.
  - assert (0 < 2 ^ Zpos p) as Ha by (apply Z.pow_pos_nonneg; lia).
    assert (2 ^ Zpos p~0 = 2 ^ Zpos p * 2 ^ Zpos p) as ->.
    { rewrite (Pos2Z.inj_xO p).
      replace (2 * Zpos p) with (Zpos p + Zpos p) by lia.
      rewrite !Z.pow_add_r by lia. done. }
    assert (0 ≤ shr_m (SpecFloat.iter_pos shr_1 p mrs)) as H2
      by (rewrite IH by lia; apply Z.div_pos; lia).
    rewrite IH, IH by lia. rewrite Z.div_div by lia. f_equal.
  - by rewrite shr_1_div2.
Qed.

Lemma shr_m_shr mrs e n :
  0 ≤ shr_m mrs →
  shr_m (shr mrs e n).1 = (if 0 <? n then shr_m mrs / 2 ^ n else shr_m mrs)
  ∧ (shr mrs e n).2 = (if 0 <? n then e + n else e).
Proof.
  intros Hm. destruct n as [|p|p]; simpl; [done| |done].
  split; [by apply iter_shr_1_div|done].
Qed.

Lemma shr_m_of_loc m l : shr_m (shr_record_of_loc m l) = m.
Proof. by destruct l as [|[]]. Qed.

Lemma round_nearest_even_ge m l : m ≤ round_nearest_even m l.
Proof.
  destruct l as [|[]]; simpl; try lia. destruct (Z.even m); lia.
Qed.

Lemma digits2_pos_bounds p :
  2 ^ (Zpos (digits2_pos p) - 1) ≤ Zpos p < 2 ^ Zpos (digits2_pos p).
Proof.
  induction p as [p IH|p IH|]; simpl; [| |by compute].
  - rewrite Pos2Z.inj_succ, (Pos2Z.inj_xI p).
    replace (Z.succ (Zpos (digits2_pos p)) - 1)
      with (Z.succ (Zpos (digits2_pos p) - 1)) by lia.
    rewrite !Z.pow_succ_r by lia. lia.
  - rewrite Pos2Z.inj_succ, (Pos2Z.inj_xO p).
    replace (Z.succ (Zpos (digits2_pos p)) - 1)
      with (Z.succ (Zpos (digits2_pos p) - 1)) by lia.
    rewrite !Z.pow_succ_r by lia. lia.
Qed.

Lemma shr_fexp_nonneg m e l :
  0 ≤ m → 0 ≤ shr_m (shr_fexp prec emax m e l).1.
Proof.
  intros Hm. unfold shr_fexp.
  destruct (shr_m_shr (shr_record_of_loc m l) e
    (fexp prec emax (Zdigits2 m + e) - e)) as [-> _];
    rewrite shr_m_of_loc; [done|].
  destruct (Z.ltb_spec 0 (fexp prec emax (Zdigits2 m + e) - e)); [|done].
  apply Z.div_pos; [lia|apply Z.pow_pos_nonneg; lia].
Qed.

(** Rounding a non-negative mantissa never yields [NaN]. *)
Lemma binary_round_aux_not_NaN s m e l :
  0 ≤ m → binary_round_aux prec emax s m e l ≠ NaN.
Proof.
  intros Hm. unfold binary_round_aux.
  pose proof (shr_fexp_nonneg m e l Hm) as H1.
  destruct (shr_fexp prec emax m e l) as [mrs' e']. simpl in H1.
  pose proof (round_nearest_even_ge (shr_m mrs') (loc_of_shr_record mrs')) as H2.
  pose proof (shr_fexp_nonneg (round_nearest_even (shr_m mrs')
    (loc_of_shr_record mrs')) e' loc_Exact ltac:(lia)) as H3.
  destruct (shr_fexp prec emax _ e' loc_Exact) as [mrs'' e'']. simpl in H3.
  destruct (shr_m mrs'') as [|p|p]; [done| |lia].
  by destruct (e'' <=? emax - prec).
Qed.

(** Above the smallest exponent a positive mantissa is not rounded to
    zero. *)
Lemma shr_fexp_pos m e l :
  0 < m → emin prec emax ≤ e →
  0 < shr_m (shr_fexp prec emax m e l).1
  ∧ emin prec emax ≤ (shr_fexp prec emax m e l).2.
Proof.
  intros Hm He. unfold shr_fexp.
  destruct (shr_m_shr (shr_record_of_loc m l) e
    (fexp prec emax (Zdigits2 m + e) - e)) as [-> ->];
    rewrite shr_m_of_loc; [lia|].
  destruct (Z.ltb_spec 0 (fexp prec emax (Zdigits2 m + e) - e)) as [Hn|Hn];
    [|done].
  split; [|lia].
  destruct m as [|p|p]; try lia. simpl in *.
  pose proof (digits2_pos_bounds p) as [Hlo _].
  unfold fexp, emin, prec, emax in *.
  apply Z.div_str_pos. split; [apply Z.pow_pos_nonneg; lia|].
  etrans; [|exact Hlo]. apply Z.pow_le_mono_r; lia.
Qed.

Lemma binary_round_aux_pos s m e l :
  0 < m → emin prec emax ≤ e →
  signedNonzero s (binary_round_aux prec emax s m e l).
Proof.
  intros Hm He. unfold binary_round_aux.
  destruct (shr_fexp_pos m e l Hm He) as [H1 H1'].
  destruct (shr_fexp prec emax m e l) as [mrs' e']. simpl in H1, H1'.
  pose proof (round_nearest_even_ge (shr_m mrs') (loc_of_shr_record mrs')) as H2.
  destruct (shr_fexp_pos (round_nearest_even (shr_m mrs')
    (loc_of_shr_record mrs')) e' loc_Exact ltac:(lia) H1') as [H3 _].
  destruct (shr_fexp prec emax _ e' loc_Exact) as [mrs'' e'']. simpl in H3.
  destruct (shr_m mrs'') as [|p|p]; [lia| |lia].
  destruct (e'' <=? emax - prec); [left; eauto|by right].
Qed.

Lemma iter_xO_value m d : Zpos (Pos.iter xO m d) = Zpos m * 2 ^ Zpos d.
Proof.
  induction d as [|d IH] using Pos.peano_ind.
  - simpl. lia.
  - rewrite Pos.iter_succ, (Pos2Z.inj_xO (Pos.iter xO m d)), IH.
    rewrite Pos2Z.inj_succ, Z.pow_succ_r by lia. ring.
Qed.

Lemma iter_xO_digits m d :
  Zpos (digits2_pos (Pos.iter xO m d)) = Zpos (digits2_pos m) + Zpos d.
Proof.
  induction d as [|d IH] using Pos.peano_ind.
  - simpl. lia.
  - rewrite Pos.iter_succ. simpl. rewrite Pos2Z.inj_succ, IH. lia.
Qed.

(** Aligning a mantissa to a smaller exponent keeps the value. *)
Lemma shl_align_le m ex ex' :
  ex' ≤ ex →
  Zpos (shl_align m ex ex').1 = Zpos m * 2 ^ (ex - ex')
  ∧ (shl_align m ex ex').2 = ex'
  ∧ Zpos (digits2_pos (shl_align m ex ex').1)
    = Zpos (digits2_pos m) + (ex - ex').
Proof.
  intros Hle. unfold shl_align.
  destruct (ex' - ex) as [|d|d] eqn:Hd; try lia.
  - assert (ex' = ex) as -> by lia. rewrite Z.sub_diag. simpl. lia.
  - assert (ex - ex' = Zpos d) as -> by lia. simpl.
    split; [apply iter_xO_value|]. split; [done|apply iter_xO_digits].
Qed.

Lemma shl_align_gt m ex ex' : ex < ex' → shl_align m ex ex' = (m, ex).
Proof.
  intros Hlt. unfold shl_align. destruct (ex' - ex) as [|d|d] eqn:Hd; try done. lia.
Qed.

(** A mantissa of full precision with an exponent in range is kept. *)
Lemma binary_round_aux_canonical s m e :
  Zpos (digits2_pos m) = prec → emin prec emax ≤ e ≤ emax - prec →
  binary_round_aux prec emax s (Zpos m) e loc_Exact = S754_finite s m e.
Proof.
  intros Hd He. unfold binary_round_aux, shr_fexp. cbn [Zdigits2 shr_record_of_loc].
  assert (fexp prec emax (Zpos (digits2_pos m) + e) - e = 0) as ->.
  { unfold fexp, emin, prec, emax in *. lia. }
  cbn [shr shr_m loc_of_shr_record round_nearest_even Zdigits2 shr_record_of_loc].
  assert (fexp prec emax (Zpos (digits2_pos m) + e) - e = 0) as ->.
  { unfold fexp, emin, prec, emax in *. lia. }
  cbn [shr shr_m].
  destruct (Z.leb_spec e (emax - prec)); [done|lia].
Qed.

(** An integer below 2^53 is a number: its mantissa and exponent give
    back the integer. *)
Lemma binary_round_small s p :
  Zpos p < 2 ^ 53 →
  ∃ m e, binary_round prec emax s p 0 = S754_finite s m e
         ∧ Zpos m = Zpos p * 2 ^ (- e) ∧ -52 ≤ e ≤ 0.
Proof.
  intros Hp. pose proof (digits2_pos_bounds p) as [Hlo _].
  assert (Zpos (digits2_pos p) ≤ 53) as Hd.
  { destruct (Z.le_gt_cases (Zpos (digits2_pos p)) 53) as [|Hgt]; [done|].
    exfalso. assert (2 ^ 53 ≤ 2 ^ (Zpos (digits2_pos p) - 1))
      by (apply Z.pow_le_mono_r; lia). lia. }
  unfold binary_round.
  assert (fexp prec emax (Zpos (digits2_pos p) + 0) = Zpos (digits2_pos p) - 53)
    as -> by (unfold fexp, emin, prec, emax; lia).
  destruct (shl_align_le p 0 (Zpos (digits2_pos p) - 53) ltac:(lia))
    as (Hv & He & Hdig).
  destruct (shl_align p 0 (Zpos (digits2_pos p) - 53)) as [mz ez].
  simpl in Hv, He, Hdig. subst ez.
  exists mz, (Zpos (digits2_pos p) - 53).
  split; [|split; [rewrite Hv; f_equal; lia|lia]].
  apply binary_round_aux_canonical; unfold emin, prec, emax; lia.
Qed.

Lemma ofZ_small z :
  0 < z < 2 ^ 53 →
  ∃ m e, ofZ z = S754_finite false m e ∧ Zpos m = z * 2 ^ (- e) ∧ -52 ≤ e ≤ 0.
Proof.
  intros [Hpos Hlt]. destruct z as [|p|p]; try lia.
  apply (binary_round_small false p Hlt).
Qed.

Lemma ofNat_small n :
  (0 < n)%nat → Z.of_nat n < 2 ^ 53 → ∃ m e, ofNat n = S754_finite false m e.
Proof.
  intros Hpos Hlt. destruct (ofZ_small (Z.of_nat n)) as (m & e & H & _); [lia|].
  by exists m, e.
Qed.

(** ** Rates and averages *)

Lemma isNaN_false (x : num) : isNaN x = false ↔ x ≠ NaN.
Proof. destruct x; simpl; split; done. Qed.

Lemma isNaN_orZero x : isNaN (orZero x) = false.
Proof. by destruct x. Qed.

Lemma isNaN_binary_round_aux s m e l :
  0 ≤ m → isNaN (binary_round_aux prec emax s m e l) = false.
Proof. intros Hm. by apply isNaN_false, binary_round_aux_not_NaN. Qed.

Lemma isNaN_ofZ z : isNaN (ofZ z) = false.
Proof.
  unfold ofZ, binary_normalize, binary_round.
  destruct z as [|p|p]; [done| |];
    destruct (shl_align p 0 _) as [mz ez]; by apply isNaN_binary_round_aux.
Qed.

Lemma SFdiv_core_binary_nonneg m1 e1 m2 e2 :
  0 ≤ m1 → 0 < m2 → 0 ≤ (SFdiv_core_binary prec emax m1 e1 m2 e2).1.1.
Proof.
  intros H1 H2. unfold SFdiv_core_binary.
  set (s := _ - _ - _).
  set (m' := match s with Z0 => m1 | Zpos _ => Z.shiftl m1 s | Zneg _ => 0 end).
  assert (0 ≤ m') as Hm'.
  { subst m'. destruct s; [done| |done]. by apply Z.shiftl_nonneg. }
  pose proof (Z_div_mod m' m2 ltac:(lia)) as Hdm.
  destruct (Z.div_eucl m' m2) as [q r]. simpl. nia.
Qed.

(** Dividing by a finite non-zero number does not produce [NaN]. *)
Lemma isNaN_div_finite x s m e :
  isNaN x = false → isNaN (div x (S754_finite s m e)) = false.
Proof.
  intros Hx. destruct x as [sx|sx| |sx mx ex]; try done.
  unfold div, SFdiv.
  pose proof (SFdiv_core_binary_nonneg (Zpos mx) ex (Zpos m) e
    ltac:(lia) ltac:(lia)) as Hq.
  destruct (SFdiv_core_binary prec emax (Zpos mx) ex (Zpos m) e) as [[q e'] l].
  by apply isNaN_binary_round_aux.
Qed.

Lemma isNaN_mul_finite x s m e :
  isNaN x = false → isNaN (mul x (S754_finite s m e)) = false.
Proof.
  intros Hx. destruct x as [sx|sx| |sx mx ex]; try done.
  unfold mul, SFmul. by apply isNaN_binary_round_aux.
Qed.

(** [(matching / total) * 100] is a number when [total] is a positive
    count below 2^53. *)
Lemma isNaN_percentage (matching total : nat) :
  (0 < total)%nat → Z.of_nat total < 2 ^ 53 →
  isNaN (mul (div (ofNat matching) (ofNat total)) (ofZ 100)) = false.
Proof.
  intros Hpos Hlt. destruct (ofNat_small total Hpos Hlt) as (m & e & ->).
  change (ofZ 100) with (S754_finite false 7036874417766400 (-46)).
  apply isNaN_mul_finite, isNaN_div_finite, isNaN_ofZ.
Qed.

Lemma isNaN_average (sum : num) (total : nat) :
  (0 < total)%nat → Z.of_nat total < 2 ^ 53 →
  isNaN sum = false → isNaN (div sum (ofNat total)) = false.
Proof.
  intros Hpos Hlt Hsum. destruct (ofNat_small total Hpos Hlt) as (m & e & ->).
  by apply isNaN_div_finite.
Qed.

Lemma playTypeData_lookup data playType :
  Result.playTypeData (analyse data) !! playType =
    if decide (playType ∈ playTypesOf data ∧ playType ≠ "__proto__")
    then Some (playTypeEntry data playType) else None.
Proof.
  rewrite analyse_unfold. simpl. unfold playTypeDataOf.
  rewrite (lookup_foldl_assign (playTypeEntry data)). by rewrite lookup_empty.
Qed.

Lemma length_flat_map_filter_le {X Y} (P : X → Prop) `{!∀ x, Decision (P x)}
    (f : X → list Y) (l : list X) :
  (length (flat_map f (filter P l)) ≤ length (flat_map f l))%nat.
Proof.
  induction l as [|x l IH]; [done|]. rewrite filter_cons.
  destruct (decide (P x)); simpl; rewrite !length_app; lia.
Qed.

Lemma length_flat_map_as_sum {X Y} (f : X → list Y) (l : list X) :
  length (flat_map f l) = sum_list ((λ x, length (f x)) <$> l).
Proof.
  induction l as [|x l IH]; [done|]. csimpl. by rewrite length_app, IH.
Qed.

Lemma total_plays_le data :
  (length (flat_map Game.plays (Result.games (analyse data))) ≤ length data)%nat.
Proof.
  rewrite length_flat_map_as_sum.
  transitivity (sum_list
    ((λ g, sum_list ((λ _ : row, 1%nat)
                       <$> filter (λ r : row, r !! "Game ID" = g) data))
       <$> (Game.gameId <$> Result.games (analyse data)))).
  - apply Nat.eq_le_incl. rewrite <- list_fmap_compose. f_equal.
    apply list_fmap_ext. intros i game Hin.
    apply list_elem_of_lookup_2 in Hin. simpl.
    destruct (game_has_plays _ _ Hin) as (fp & _ & _ & Heq).
    rewrite Heq at 1. simpl. rewrite length_fmap. apply length_as_sum.
  - rewrite (sum_by_key (λ r : row, r !! "Game ID"))
      by apply NoDup_materialized_ids.
    rewrite <- length_as_sum. apply length_filter.
Qed.

Lemma team_shots_le data opponent :
  (length (filter isShotPlay
     (flat_map Game.plays (opponentGamesOf (Result.games (analyse data)) opponent)))
   ≤ length data)%nat.
Proof.
  etrans; [apply length_filter|]. unfold opponentGamesOf.
  etrans; [apply length_flat_map_filter_le|apply total_plays_le].
Qed.

Lemma pos_of_ltb (n : nat) : (0 <? n)%nat = true → (0 < n)%nat.
Proof. by intros ?%Nat.ltb_lt. Qed.

(** C3 (as stated): every percentage, ratio and average would be 0 at a
    zero denominator and never [NaN]. Two shots whose xG fields read as
    plus and minus infinity refute it: their sum is [NaN], and the average
    xG per shot of the Key Statistics is that sum divided by 2. *)
Lemma rates_counterexample : ¬ ratesWellDefined Sample.infiniteXG.
Proof.
  intros (_ & _ & _ & _ & _ & Hks). vm_compute in Hks. discriminate.
Qed.

(** C3 (amended): for an input that fits a JavaScript array, every
    percentage, ratio and average of the result is exactly 0 when its
    denominator is 0; a positive number of shots at a location gives the
    success rate [goals / totalShots * 100]; the Shot Map's successRate and
    avgXG, the Play Type avgXG and both conversion rates are never [NaN];
    and avgXGPerShot, in the Team Comparison and in the Key Statistics, is
    not [NaN] whenever the total xG it divides is not. *)
Theorem rates_guarded (data : list row) :
  Z.of_nat (length data) < 2 ^ 32 →
  (∀ location entry,
      Result.shotMapData (analyse data) !! location = Some entry →
      (ShotMap.totalShots entry = 0%nat →
       ShotMap.successRate entry = zero ∧ ShotMap.avgXG entry = zero)
      ∧ ((0 < ShotMap.totalShots entry)%nat →
         ShotMap.successRate entry
         = mul (div (ofNat (ShotMap.goals entry))
                    (ofNat (ShotMap.totalShots entry))) (ofZ 100))
      ∧ isNaN (ShotMap.successRate entry) = false
      ∧ isNaN (ShotMap.avgXG entry) = false)
  ∧ (∀ playType entry,
      Result.playTypeData (analyse data) !! playType = Some entry →
      (PlayType.count entry = 0%nat → PlayType.avgXG entry = zero)
      ∧ isNaN (PlayType.avgXG entry) = false)
  ∧ (∀ opponent entry,
      Result.teamComparison (analyse data) !! opponent = Some entry →
      (Team.totalShots entry = 0%nat →
       Team.conversionRate entry = zero ∧ Team.avgXGPerShot entry = zero)
      ∧ isNaN (Team.conversionRate entry) = false
      ∧ (isNaN (Team.totalXG entry) = false →
         isNaN (Team.avgXGPerShot entry) = false))
  ∧ (KeyStats.totalShots (Result.keyStats (analyse data)) = 0%nat →
     KeyStats.overallConversionRate (Result.keyStats (analyse data)) = zero
     ∧ KeyStats.avgXGPerShot (Result.keyStats (analyse data)) = zero)
  ∧ isNaN (KeyStats.overallConversionRate (Result.keyStats (analyse data))) = false
  ∧ (isNaN (KeyStats.totalXG (Result.keyStats (analyse data))) = false →
     isNaN (KeyStats.avgXGPerShot (Result.keyStats (analyse data))) = false).
Proof.
  intros Hlen.
  assert (∀ n : nat, (n ≤ length data)%nat → Z.of_nat n < 2 ^ 53) as Hfit
    by (intros n Hn; lia).
  split; [|split; [|split; [|split; [|split]]]].
  - intros location entry. rewrite shotMapData_lookup.
    destruct (decide _) as [_|]; [|done]. intros [= <-].
    unfold shotEntry. cbn [ShotMap.totalShots ShotMap.goals ShotMap.successRate
                           ShotMap.avgXG].
    set (locationPlays := locationPlaysOf data location).
    assert (length locationPlays ≤ length data)%nat as Hle
      by apply length_filter.
    split; [|split; [|split]].
    + intros H0. apply length_zero_iff_nil in H0. by rewrite H0.
    + intros Hpos. apply Nat.ltb_lt in Hpos. by rewrite Hpos.
    + destruct (0 <? length locationPlays)%nat eqn:Hpos; [|done].
      apply isNaN_percentage; [by apply pos_of_ltb|by apply Hfit].
    + apply isNaN_orZero.
  - intros playType entry. rewrite playTypeData_lookup.
    destruct (decide _) as [_|]; [|done]. intros [= <-].
    unfold playTypeEntry. cbn [PlayType.count PlayType.avgXG].
    split; [|apply isNaN_orZero].
    intros H0. apply length_zero_iff_nil in H0. by rewrite H0.
  - intros opponent entry. rewrite teamComparison_lookup.
    destruct (decide _) as [_|]; [|done]. intros [= <-].
    pose proof (team_shots_le data opponent) as Hle.
    unfold teamEntry. cbn [Team.totalShots Team.conversionRate
                           Team.avgXGPerShot Team.totalXG].
    set (shots := length (filter isShotPlay _)) in *.
    split; [|split].
    + by intros ->.
    + destruct (0 <? shots)%nat eqn:Hpos; [|done].
      apply isNaN_percentage; [by apply pos_of_ltb|by apply Hfit].
    + intros Hsum. destruct (0 <? shots)%nat eqn:Hpos; [|done].
      apply isNaN_average; [by apply pos_of_ltb|by apply Hfit|done].
  - rewrite analyse_unfold. simpl. by intros ->.
  - rewrite analyse_unfold. simpl.
    destruct (0 <? _)%nat eqn:Hpos; [|done].
    apply isNaN_percentage; [by apply pos_of_ltb|apply Hfit, length_filter].
  - rewrite analyse_unfold. simpl. intros Hsum.
    destruct (0 <? _)%nat eqn:Hpos; [|done].
    apply isNaN_average; [by apply pos_of_ltb|apply Hfit, length_filter|done].
Qed.

Lemma rates_guarded_witness :
  Z.of_nat (length Sample.records) < 2 ^ 32
  ∧ isNaN (KeyStats.overallConversionRate
             (Result.keyStats (analyse Sample.records))) = false.
Proof.
  assert (Z.of_nat (length Sample.records) < 2 ^ 32) as Hlen
    by (vm_compute; reflexivity).
  split; [exact Hlen|].
  exact (proj1 (proj2 (proj2 (proj2 (proj2 (rates_guarded _ Hlen)))))).
Defined.

(** ** The order of game identifiers *)

Lemma extLe_refl a : extLe a a.
Proof. destruct a; simpl; lia. Qed.

Lemma extLe_trans a b c : extLe a b → extLe b c → extLe a c.
Proof. destruct a, b, c; simpl; try done; lia. Qed.

Lemma extLe_total a b : extLe a b ∨ extLe b a.
Proof. destruct a, b; simpl; try tauto; lia. Qed.

Lemma shr_exponent mrs e n : e ≤ (shr mrs e n).2.
Proof. destruct n; simpl; lia. Qed.

Lemma aboveEmin_binary_round_aux s m e l :
  emin prec emax ≤ e → aboveEmin (binary_round_aux prec emax s m e l).
Proof.
  intros He. unfold binary_round_aux, shr_fexp.
  pose proof (shr_exponent (shr_record_of_loc m l) e
    (fexp prec emax (Zdigits2 m + e) - e)) as H1.
  destruct (shr (shr_record_of_loc m l) e _) as [mrs' e']. simpl in H1.
  match goal with |- context [shr ?r e' ?n] =>
    pose proof (shr_exponent r e' n) as H2;
    destruct (shr r e' n) as [mrs'' e''] end.
  simpl in H2. destruct (shr_m mrs''); [done| |done].
  destruct (e'' <=? emax - prec); [simpl; lia|done].
Qed.

Lemma shl_align_exponent m ex ex' :
  emin prec emax ≤ ex → emin prec emax ≤ ex' →
  emin prec emax ≤ (shl_align m ex ex').2.
Proof.
  intros H1 H2. unfold shl_align. by destruct (ex' - ex).
Qed.

Lemma fexp_ge_emin e : emin prec emax ≤ fexp prec emax e.
Proof. unfold fexp. lia. Qed.

Lemma aboveEmin_binary_round s m e :
  emin prec emax ≤ e → aboveEmin (binary_round prec emax s m e).
Proof.
  intros He. unfold binary_round.
  pose proof (shl_align_exponent m e
    (fexp prec emax (Zpos (digits2_pos m) + e)) He (fexp_ge_emin _)) as H.
  destruct (shl_align m e _) as [mz ez]. by apply aboveEmin_binary_round_aux.
Qed.

Lemma aboveEmin_binary_normalize z e sz :
  emin prec emax ≤ e → aboveEmin (binary_normalize prec emax z e sz).
Proof.
  intros He. destruct z; [done| |]; by apply aboveEmin_binary_round.
Qed.

Lemma gtZero_signedNonzero s x : signedNonzero s x → gtZero x = negb s.
Proof. intros [(m & e & ->)| ->]; by destruct s. Qed.

Lemma gtZero_binary_round_aux_neg m e l :
  gtZero (binary_round_aux prec emax true m e l) = false.
Proof.
  unfold binary_round_aux.
  destruct (shr_fexp prec emax m e l) as [mrs' e'].
  destruct (shr_fexp prec emax _ e' loc_Exact) as [mrs'' e''].
  destruct (shr_m mrs''); [done| |done]. by destruct (e'' <=? emax - prec).
Qed.

(** The sign of a rounded integer multiple of a power of two, above the
    smallest exponent, is the sign of the integer. *)
Lemma gtZero_binary_normalize z e :
  emin prec emax ≤ e → gtZero (binary_normalize prec emax z e false) = (0 <? z).
Proof.
  intros He. destruct z as [|p|p]; [done| |].
  - unfold binary_normalize, binary_round.
    pose proof (shl_align_exponent p e
      (fexp prec emax (Zpos (digits2_pos p) + e)) He (fexp_ge_emin _)) as H.
    destruct (shl_align p e _) as [mz ez]. simpl in H.
    by rewrite (gtZero_signedNonzero false)
      by (apply binary_round_aux_pos; [lia|done]).
  - unfold binary_normalize, binary_round.
    destruct (shl_align p e _) as [mz ez]. apply gtZero_binary_round_aux_neg.
Qed.

Lemma aligned_value s m e e' :
  e' ≤ e → emin prec emax ≤ e' →
  cond_Zopp s (Zpos (shl_align m e e').1) * 2 ^ (e' + 1074)
  = cond_Zopp s (Zpos m * 2 ^ (e + 1074)).
Proof.
  intros Hle He'. destruct (shl_align_le m e e' Hle) as (-> & _ & _).
  assert (2 ^ (e + 1074) = 2 ^ (e - e') * 2 ^ (e' + 1074)) as ->.
  { rewrite <- Z.pow_add_r by (unfold emin, prec, emax in *; lia).
    f_equal. lia. }
  destruct s; simpl; ring.
Qed.

Lemma finite_value_pos m e :
  emin prec emax ≤ e → 0 < Zpos m * 2 ^ (e + 1074).
Proof.
  intros He. apply Z.mul_pos_pos; [lia|].
  apply Z.pow_pos_nonneg; unfold emin, prec, emax in *; lia.
Qed.

(** [x - y > 0] exactly when [y] is below [x]. *)
Lemma gtZero_sub x y :
  isNaN x = false → isNaN y = false → aboveEmin x → aboveEmin y →
  gtZero (sub x y) = true ↔ ¬ extLe (exactValue x) (exactValue y).
Proof.
  intros Hx Hy Hex Hey.
  destruct x as [sx|sx| |sx mx ex], y as [sy|sy| |sy my ey]; try done.
  - destruct sx, sy; simpl; split; try done; lia.
  - destruct sx, sy; simpl; split; try done; tauto.
  - pose proof (finite_value_pos my ey Hey).
    destruct sx, sy; simpl; split; try done; lia.
  - destruct sx, sy; simpl; split; try done; tauto.
  - destruct sx, sy; simpl; split; try done; tauto.
  - destruct sx, sy; simpl; split; try done; tauto.
  - pose proof (finite_value_pos mx ex Hex).
    destruct sx, sy; simpl; split; try done; lia.
  - destruct sx, sy; simpl; split; try done; tauto.
  - simpl in Hex, Hey. unfold sub, SFsub.
    rewrite gtZero_binary_normalize by lia.
    pose proof (aligned_value sx mx ex (Z.min ex ey) ltac:(lia) ltac:(lia)) as Hvx.
    pose proof (aligned_value sy my ey (Z.min ex ey) ltac:(lia) ltac:(lia)) as Hvy.
    assert (0 < 2 ^ (Z.min ex ey + 1074)) as Hpow
      by (apply Z.pow_pos_nonneg; unfold emin, prec, emax in *; lia).
    simpl. rewrite <- Hvx, <- Hvy. rewrite Z.ltb_lt. nia.
Qed.

Lemma emin_le_0 : emin prec emax ≤ 0.
Proof. by compute. Qed.

Lemma aboveEmin_ofDecimal neg m e : aboveEmin (ofDecimal neg m e).
Proof.
  unfold ofDecimal. destruct m as [|p]; [done|].
  destruct (0 <=? e).
  - apply aboveEmin_binary_normalize, emin_le_0.
  - unfold SFdiv_core_binary.
    set (e' := Z.min _ (0 - 0)).
    assert (emin prec emax ≤ e') as He'.
    { subst e'. pose proof (fexp_ge_emin
        (Zdigits2 (Zpos p) + 0 - (Zdigits2 (10 ^ (- e)) + 0))).
      pose proof emin_le_0. lia. }
    destruct (Z.div_eucl _ _) as [q r].
    by apply aboveEmin_binary_round_aux.
Qed.

Lemma aboveEmin_readDecimal s x rest :
  readDecimal s = Some (x, rest) → aboveEmin x.
Proof.
  unfold readDecimal. destruct (readSign s) as [neg s1].
  destruct (dropInfinity s1); [by intros [= <- _]|].
  destruct (readDigits 10 s1 0 0) as [[ip icnt] s2].
  set (frac := match s2 with EmptyString => _ | String _ _ => _ end).
  destruct frac as [[m fcnt] s3].
  destruct (readExponent s3) as [e s4].
  destruct icnt, fcnt; intros [= <- _]; apply aboveEmin_ofDecimal.
Qed.

Lemma aboveEmin_readRadixLiteral t x :
  readRadixLiteral t = Some x → aboveEmin x.
Proof.
  unfold readRadixLiteral. destruct t as [|c0 [|c t]]; try done.
  destruct (if negb (Ascii.eqb c0 "0") then _ else _) as [r|]; [|done].
  destruct (readDigits r t 0 0) as [[v [|cnt]] [|]]; try done.
  intros [= <-]. apply aboveEmin_binary_normalize, emin_le_0.
Qed.

Lemma aboveEmin_toNumber v : aboveEmin (toNumber v).
Proof.
  destruct v as [s|]; [|done]. unfold toNumber.
  destruct (trim s) as [|c t]; [done|].
  destruct (readRadixLiteral (String c t)) as [x|] eqn:Hradix.
  - by apply aboveEmin_readRadixLiteral in Hradix.
  - destruct (readDecimal (String c t)) as [[x [|]]|] eqn:Hdec; try done.
    by apply aboveEmin_readDecimal in Hdec.
Qed.

(** The comparator of the source orders numeric identifiers by value. *)
Lemma gtZero_compareIds a b :
  isNumeric a → isNumeric b →
  gtZero (compareIds a b) = true ↔ ¬ numLe a b.
Proof.
  intros Ha Hb. unfold compareIds, numLe.
  apply gtZero_sub; try done; apply aboveEmin_toNumber.
Qed.

Section insertion_sort.
Context {A : Type} (compareFn : A → A → num) (le : A → A → Prop) (P : A → Prop).
Hypothesis le_trans : ∀ x y z, le x y → le y z → le x z.
Hypothesis le_total : ∀ x y, le x y ∨ le y x.
Hypothesis le_dec : ∀ x y, le x y ∨ ¬ le x y.
Hypothesis compare_spec :
  ∀ x y, P x → P y → gtZero (compareFn y x) = true ↔ ¬ le y x.

Lemma sortInsert_sorted x l :
  P x → Forall P l → StronglySorted le l →
  StronglySorted le (sortInsert compareFn x l).
Proof using le_trans le_total le_dec compare_spec.
  intros Hx HP Hsorted. induction Hsorted as [|y l Hsorted IH Hy]; simpl.
  - repeat constructor.
  - apply Forall_cons in HP as [HPy HPl].
    destruct (gtZero (compareFn y x)) eqn:Hcmp.
    + apply compare_spec in Hcmp; [|done..].
      assert (le x y) as Hxy by (destruct (le_total x y); tauto).
      constructor; [by constructor|]. constructor; [done|].
      eapply Forall_impl; [exact Hy|]. intros z Hz. by apply (le_trans x y z).
    + assert (le y x) as Hyx.
      { destruct (le_dec y x) as [|Hn]; [done|].
        apply compare_spec in Hn; [congruence|done..]. }
      constructor; [by apply IH|].
      rewrite sortInsert_perm. by constructor.
Qed.

Lemma sortDefined_sorted l :
  Forall P l → StronglySorted le (sortDefined compareFn l).
Proof using le_trans le_total le_dec compare_spec.
  intros HP. unfold sortDefined.
  assert (∀ acc, Forall P acc → StronglySorted le acc →
    StronglySorted le (foldl (λ sorted x, sortInsert compareFn x sorted) acc l))
    as H; [|apply H; constructor].
  induction HP as [|x l Hx HP IH]; intros acc Hacc Hsorted; simpl; [done|].
  apply IH.
  - rewrite sortInsert_perm. by constructor.
  - by apply sortInsert_sorted.
Qed.
End insertion_sort.

(** ** Decimal numerals as identifiers *)

Lemma digit_eqb_other c c' : isDigit c → ¬ isDigit c' → Ascii.eqb c c' = false.
Proof. intros Hc Hc'. apply Ascii.eqb_neq. by intros ->. Qed.

Lemma digit_not_white c : isDigit c → isWhite c = false.
Proof.
  unfold isDigit, isWhite. intros Hc.
  assert (48 ≤ nat_of_ascii c ≤ 57)%nat as Hn.
  { unfold nat_of_ascii. lia. }
  destruct (Nat.leb_spec 9 (nat_of_ascii c)), (Nat.leb_spec (nat_of_ascii c) 13),
    (Nat.eqb_spec (nat_of_ascii c) 32), (Nat.eqb_spec (nat_of_ascii c) 160);
    simpl; try done; lia.
Qed.

Lemma digitVal_digit c : isDigit c → digitVal 10 c = Some (N_of_ascii c - 48)%N.
Proof.
  unfold isDigit, digitVal. intros Hc.
  destruct (N.leb_spec 48 (N_of_ascii c)); [|lia].
  destruct (N.leb_spec (N_of_ascii c) 57); [|lia]. simpl.
  destruct (N.ltb_spec (N_of_ascii c - 48) 10); [done|lia].
Qed.

Lemma readDigits_decimal s acc cnt :
  allDigits s →
  readDigits 10 s acc cnt = (decimalValueFrom acc s, (cnt + String.length s)%nat, "").
Proof.
  revert acc cnt. induction s as [|c s IH]; intros acc cnt Hs; simpl.
  - by rewrite Nat.add_0_r.
  - destruct Hs as [Hc Hs]. rewrite (digitVal_digit c Hc), IH by done.
    do 2 f_equal. lia.
Qed.

Lemma trimEnd_decimal s : allDigits s → trimEnd s = s.
Proof.
  induction s as [|c s IH]; [done|]. intros [Hc Hs]. simpl.
  rewrite IH by done. destruct s; [|done]. by rewrite digit_not_white.
Qed.

Lemma trim_decimal s : allDigits s → trim s = s.
Proof.
  intros Hs. unfold trim.
  assert (trimStart s = s) as ->; [|by apply trimEnd_decimal].
  destruct s as [|c s]; [done|]. simpl. destruct Hs as [Hc _].
  by rewrite digit_not_white.
Qed.

Lemma readRadixLiteral_decimal s : allDigits s → readRadixLiteral s = None.
Proof.
  destruct s as [|c0 [|c s]]; try done. intros (_ & Hc & _).
  unfold readRadixLiteral.
  rewrite !(digit_eqb_other c) by (done || (unfold isDigit; simpl; lia)).
  simpl. by destruct (negb _).
Qed.

Lemma readSign_decimal c s : isDigit c → readSign (String c s) = (false, String c s).
Proof.
  intros Hc. unfold readSign.
  by rewrite !(digit_eqb_other c) by (done || (unfold isDigit; simpl; lia)).
Qed.

Lemma dropInfinity_decimal c s : isDigit c → dropInfinity (String c s) = None.
Proof.
  intros Hc. unfold dropInfinity.
  destruct (String.prefix "Infinity" (String c s)) eqn:Hprefix; [|done].
  apply prefix_correct in Hprefix. simpl in Hprefix.
  injection Hprefix as -> _. unfold isDigit in Hc. simpl in Hc. lia.
Qed.

Lemma ofDecimal_integer v : ofDecimal false v 0 = ofZ (Z.of_N v).
Proof.
  destruct v as [|p]; [done|]. unfold ofDecimal, ofZ. simpl.
  by rewrite Pos.mul_1_r.
Qed.

(** A decimal numeral reads as the number it denotes. *)
Lemma toNumber_decimal s :
  isDecimal s → toNumber (Some s) = ofZ (Z.of_N (decimalValue s)).
Proof.
  intros [Hne Hs]. unfold toNumber. rewrite trim_decimal by done.
  destruct s as [|c s]; [done|]. rewrite readRadixLiteral_decimal by done.
  pose proof Hs as [Hc _].
  unfold readDecimal. rewrite readSign_decimal, dropInfinity_decimal by done.
  rewrite readDigits_decimal by done. simpl.
  by rewrite ofDecimal_integer.
Qed.

Lemma exactValue_ofZ z :
  0 ≤ z < 2 ^ 53 → exactValue (ofZ z) = Fin (z * 2 ^ 1074).
Proof.
  intros [H0 Hlt]. destruct (decide (z = 0)) as [->|Hne]; [done|].
  destruct (ofZ_small z ltac:(lia)) as (m & e & -> & Hm & He).
  simpl. rewrite Hm. f_equal. rewrite <- Z.mul_assoc, <- Z.pow_add_r by lia.
  do 2 f_equal. lia.
Qed.

Lemma smallDecimal_numeric v : isSmallDecimal v → isNumeric v.
Proof.
  intros (s & -> & Hs & _). unfold isNumeric.
  rewrite toNumber_decimal by done. apply isNaN_ofZ.
Qed.

(** On decimal numerals below 2^53 the order of identifiers is the order
    of the natural numbers they denote. *)
Lemma numLe_smallDecimal a b :
  isSmallDecimal a → isSmallDecimal b →
  numLe a b ↔ (idValue a ≤ idValue b)%N.
Proof.
  intros (sa & -> & Ha & Hva) (sb & -> & Hb & Hvb). unfold numLe.
  cbn [idValue]. rewrite !toNumber_decimal by done.
  rewrite !exactValue_ofZ by (split; [lia|]; apply (N2Z.inj_lt _ (2 ^ 53)); done).
  simpl.
  assert (0 < 2 ^ 1074) by (apply Z.pow_pos_nonneg; lia). split.
  - intros Hle. apply N2Z.inj_le. nia.
  - intros Hle. apply N2Z.inj_le in Hle. nia.
Qed.

Lemma extLe_dec a b : extLe a b ∨ ¬ extLe a b.
Proof. destruct a, b; simpl; try tauto; lia. Qed.

Lemma filter_Forall_id {X} (P : X → Prop) `{!∀ x, Decision (P x)} (l : list X) :
  Forall P l → filter P l = l.
Proof.
  induction 1 as [|x l Hx _ IH]; [done|].
  by rewrite filter_cons_True, IH.
Qed.

Lemma filter_Forall_nil {X} (P : X → Prop) `{!∀ x, Decision (P x)} (l : list X) :
  Forall (λ x, ¬ P x) l → filter P l = [].
Proof.
  induction 1 as [|x l Hx _ IH]; [done|].
  by rewrite filter_cons_False.
Qed.

Lemma StronglySorted_weaken {X} (R R' : X → X → Prop) (P : X → Prop) l :
  (∀ x y, P x → P y → R x y → R' x y) →
  Forall P l → StronglySorted R l → StronglySorted R' l.
Proof.
  intros Himpl HP Hsorted.
  induction Hsorted as [|x l Hsorted IH Hx]; [constructor|].
  apply Forall_cons in HP as [HPx HPl]. constructor; [by apply IH|].
  apply Forall_forall. intros y Hy.
  rewrite Forall_forall in Hx, HPl. apply Himpl; auto.
Qed.

Lemma StronglySorted_materialized data (R : relation (option string)) :
  StronglySorted R (gameIds data) →
  StronglySorted R (Game.gameId <$> Result.games (analyse data)).
Proof.
  rewrite analyse_unfold. simpl. rewrite value_gameDataOf.
  generalize (gameIds data). intros ids Hsorted.
  assert (StronglySorted R
            (Game.gameId <$> omap (λ g, value (buildGame data g)) ids)
          ∧ ∀ g, g ∈ Game.gameId <$> omap (λ g, value (buildGame data g)) ids →
                 g ∈ ids) as [H _]; [|done].
  induction Hsorted as [|g ids Hsorted [IH1 IH2] Hg].
  - split; [constructor|]. intros g Hg. by apply elem_of_nil in Hg.
  - csimpl. destruct (value (buildGame data g)) as [game|] eqn:Hb; csimpl.
    + rewrite (gameId_of_built _ _ _ Hb). split.
      * constructor; [done|]. apply Forall_forall. intros g' Hg'.
        rewrite Forall_forall in Hg. by apply Hg, IH2.
      * intros g'. rewrite !elem_of_cons. intros [->|?]; [by left|].
        right. by apply IH2.
    + split; [done|]. intros g' Hin. right. by apply IH2.
Qed.

Lemma gameIds_sortDefined data :
  (∀ r : row, r ∈ data → isNumeric (r !! "Game ID")) →
  gameIds data
  = sortDefined compareIds (uniq ((λ r : row, r !! "Game ID") <$> data)).
Proof.
  intros Hnum. unfold gameIds, sort.
  assert (Forall (λ v : option string, v ≠ None)
            (uniq ((λ r : row, r !! "Game ID") <$> data))) as Hdef.
  { apply Forall_forall. intros v Hv.
    apply elem_of_uniq, list_elem_of_fmap in Hv as (r & -> & Hr).
    intros Hnone. specialize (Hnum r Hr). by rewrite Hnone in Hnum. }
  rewrite filter_Forall_id by done.
  rewrite filter_Forall_nil; [by rewrite app_nil_r|].
  eapply Forall_impl; [exact Hdef|]. intros v Hv. done.
Qed.

(** C8 (as stated): for Game IDs that are numeric strings, the distinct
    identifiers would ascend by the numbers the strings denote. Two
    identifiers that differ beyond the precision of a double refute it:
    9007199254740993 and 9007199254740992 read as the same number, the
    comparator finds no difference, and the larger stays first. *)
Lemma game_ids_counterexample : ¬ idsSortedByValue Sample.beyond.
Proof.
  intros Hclaim. destruct Hclaim as [Hsorted _].
  { intros r Hr. unfold Sample.beyond in Hr.
    repeat (apply elem_of_cons in Hr as [->|Hr]; [by vm_compute|]).
    by apply elem_of_nil in Hr. }
  assert (gameIds Sample.beyond
          = [Some "9007199254740993"; Some "9007199254740992"]) as Hids
    by (vm_compute; reflexivity).
  rewrite Hids in Hsorted. unfold ascendingIds in Hsorted.
  apply StronglySorted_inv in Hsorted as [_ Hall].
  apply Forall_cons in Hall as [Hle _].
  vm_compute in Hle. by apply Hle.
Qed.

(** C8 (amended): when every Game ID reads as a number, the distinct game
    identifiers, and so the identifiers of the materialized games in their
    output order, ascend by the double-precision numbers the identifier
    strings read as; for decimal numerals below 2^53 this is the order of
    the natural numbers they denote, not the lexicographic order of the
    strings. *)
Theorem game_ids_sorted_numerically (data : list row) :
  (∀ r : row, r ∈ data → isNumeric (r !! "Game ID")) →
  StronglySorted numLe (gameIds data)
  ∧ StronglySorted numLe (Game.gameId <$> Result.games (analyse data))
  ∧ ((∀ r : row, r ∈ data → isSmallDecimal (r !! "Game ID")) →
     StronglySorted (λ a b, idValue a ≤ idValue b)%N (gameIds data)
     ∧ StronglySorted (λ a b, idValue a ≤ idValue b)%N
         (Game.gameId <$> Result.games (analyse data))).
Proof.
  intros Hnum.
  assert (StronglySorted numLe (gameIds data)) as Hsorted.
  { rewrite gameIds_sortDefined by done.
    apply (sortDefined_sorted compareIds numLe isNumeric).
    - intros x y z. apply extLe_trans.
    - intros x y. apply extLe_total.
    - intros x y. apply extLe_dec.
    - intros x y Hx Hy. by apply gtZero_compareIds.
    - apply Forall_forall. intros v Hv.
      apply elem_of_uniq, list_elem_of_fmap in Hv as (r & -> & Hr). by apply Hnum. }
  split; [done|]. split; [by apply StronglySorted_materialized|].
  intros Hdec.
  assert (StronglySorted (λ a b, idValue a ≤ idValue b)%N (gameIds data)) as Hval.
  { apply (StronglySorted_weaken numLe _ isSmallDecimal); [| |exact Hsorted].
    - intros x y Hx Hy. by apply numLe_smallDecimal.
    - apply Forall_forall. intros v Hv.
      apply elem_of_gameIds in Hv as (r & Hr & <-). by apply Hdec. }
  split; [done|by apply StronglySorted_materialized].
Qed.

Lemma game_ids_sorted_numerically_witness :
  (∀ r : row, r ∈ Sample.unordered → isNumeric (r !! "Game ID"))
  ∧ gameIds Sample.unordered = [Some "9"; Some "10"; Some "100"]
  ∧ StronglySorted numLe (gameIds Sample.unordered).
Proof.
  assert (∀ r : row, r ∈ Sample.unordered → isNumeric (r !! "Game ID")) as Hnum.
  { intros r Hr. unfold Sample.unordered in Hr.
    repeat (apply elem_of_cons in Hr as [->|Hr]; [by vm_compute|]).
    by apply elem_of_nil in Hr. }
  split; [exact Hnum|]. split; [by vm_compute|].
  exact (proj1 (game_ids_sorted_numerically Sample.unordered Hnum)).
Defined.

(** ** Worked examples of the specification *)

(** Two shots from the box in one game, a goal (xG 0.3) and a miss
    (xG 0.1): one game with two plays, the box entry with two shots, one
    goal, average xG 0.2 and success rate 50, and one goal overall. *)
Example box_example :
  (Game.plays <$> Result.games (analyse [Sample.goalA; Sample.missA]))
  = [[toPlay Sample.goalA; toPlay Sample.missA]]
  ∧ Result.shotMapData (analyse [Sample.goalA; Sample.missA]) !! "Box"
    = Some Sample.boxEntry
  ∧ KeyStats.totalGoals (Result.keyStats (analyse [Sample.goalA; Sample.missA]))
    = 1%nat.
Proof. vm_compute. repeat split; reflexivity. Qed.

(** The sample text: the ragged third line is reported, the blank fourth
    line is not, and the two well-formed lines give the records. *)
Example text_example :
  parseCSV Sample.text []
  = ([rowOf [("Game ID", "1"); ("Opponent", "A")];
      rowOf [("Game ID", "3"); ("Opponent", "C")]],
     [MalformedRow 3 "2"]).
Proof. vm_compute. repeat split; reflexivity. Qed.

(** The name [__proto__] gets no entry: a goal from the location
    [__proto__], of the play type [__proto__], against the opponent
    [__proto__] is in the games, in the timeline, in the list of opponents
    and in the Key Statistics, and the three mappings stay empty. *)
Example proto_example :
  Result.games (analyse [Sample.protoGoal]) = [Sample.protoGame]
  ∧ length (Result.goalsTimeline (analyse [Sample.protoGoal])) = 1%nat
  ∧ Result.opponents (analyse [Sample.protoGoal]) = ["__proto__"]
  ∧ KeyStats.totalGoals (Result.keyStats (analyse [Sample.protoGoal])) = 1%nat
  ∧ Result.shotMapData (analyse [Sample.protoGoal]) = ∅
  ∧ Result.playTypeData (analyse [Sample.protoGoal]) = ∅
  ∧ Result.teamComparison (analyse [Sample.protoGoal]) = ∅.
Proof. vm_compute. repeat split; reflexivity. Qed.

(** A column named [__proto__] leaves no trace in the records. *)
Example proto_header_example :
  parseCSV Sample.protoText [] = ([rowOf [("b", "2")]], []).
Proof. vm_compute. repeat split; reflexivity. Qed.

(** Correcting a ragged line adds exactly one record. *)
Lemma corrected_line_adds_one_record headers before ragged_line good_line after :
  ragged headers ragged_line → wellFormed headers good_line →
  length (rowsOf headers (before ++ good_line :: after))
  = S (length (rowsOf headers (before ++ ragged_line :: after))).
Proof.
  intros Hragged Hgood. rewrite (rowsOf_drop_ragged _ _ _ _ Hragged).
  unfold rowsOf. rewrite !filter_app, filter_cons_True by done.
  rewrite !length_fmap, !length_app. simpl. lia.
Qed.

(** * Further properties *)

(** ** Records of the loader *)

Lemma forEachHeader_proto values headers :
  ∀ index (r : row),
    forEachHeader values index headers r !! "__proto__" = r !! "__proto__".
Proof.
  induction headers as [|header rest IH]; intros index r; [done|].
  simpl. rewrite IH. unfold assign.
  destruct (decide (trim header = "__proto__")); [done|].
  by rewrite lookup_insert_ne.
Qed.

Lemma forEachHeader_lookup values headers :
  ∀ index (r : row) k,
    k ≠ "__proto__" →
    forEachHeader values index headers r !! k
    = match last (filter (λ jh, trim jh.2 = k)
                    (imap (λ j h, ((index + j)%nat, h)) headers)) with
      | Some jh => Some (cell values jh.1)
      | None => r !! k
      end.
Proof.
  induction headers as [|header rest IH]; intros index r k Hown; [done|].
  simpl. rewrite IH by done.
  assert (imap ((λ j h, ((index + j)%nat, h)) ∘ S) rest
          = imap (λ j h, ((S index + j)%nat, h)) rest) as ->.
  { apply imap_ext. intros j h _. simpl. f_equal. lia. }
  rewrite Nat.add_0_r, filter_cons. simpl. unfold assign.
  destruct (decide (trim header = k)) as [->|Hne].
  - rewrite decide_False by done.
    destruct (filter _ (imap _ rest)) as [|jh l] eqn:Hf.
    + simpl. by rewrite lookup_insert_eq.
    + rewrite last_cons_cons. destruct (last (jh :: l)) eqn:Hlast; [done|].
      by apply last_None in Hlast.
  - destruct (last _); [done|].
    destruct (decide (trim header = "__proto__")); [done|].
    by rewrite lookup_insert_ne.
Qed.

Lemma last_filter_header (headers : list string) :
  ∀ index j h,
    headers !! j = Some h →
    (∀ j' h', (j < j')%nat → headers !! j' = Some h' → trim h' ≠ trim h) →
    last (filter (λ jh : nat * string, trim jh.2 = trim h)
           (imap (λ j h, ((index + j)%nat, h)) headers))
    = Some ((index + j)%nat, h).
Proof.
  induction headers as [|h0 rest IH]; intros index j h Hj Hlater; [done|].
  rewrite imap_cons.
  assert (imap ((λ j h, ((index + j)%nat, h)) ∘ S) rest
          = imap (λ j h, ((S index + j)%nat, h)) rest) as ->.
  { apply imap_ext. intros i x _. simpl. f_equal. lia. }
  destruct j as [|j]; simpl in Hj.
  - injection Hj as ->. rewrite filter_cons_True by done.
    rewrite filter_Forall_nil; [by rewrite Nat.add_0_r|].
    apply Forall_forall. intros [i x] Hin.
    apply elem_of_lookup_imap in Hin as (i' & x' & [= -> ->] & Hx). simpl.
    apply (Hlater (S i')); [lia|done].
  - specialize (IH (S index) j h Hj).
    rewrite filter_cons.
    replace (index + S j)%nat with (S index + j)%nat by lia.
    destruct (decide _); [rewrite last_cons|];
      rewrite IH; try done;
      intros j' h' Hlt Hj'; apply (Hlater (S j')); (lia || done).
Qed.

Lemma cell_lookup values j v : values !! j = Some v → cell values j = trim v.
Proof. intros Hv. unfold cell. rewrite Hv. by destruct v. Qed.

Lemma elem_of_parsed csvContent (r : row) :
  r ∈ value (parseCSV csvContent) ↔
    ∃ line, line ∈ dataLinesOf csvContent
            ∧ wellFormed (headerOf csvContent) line
            ∧ r = mkRow (headerOf csvContent) (split "," line).
Proof.
  rewrite value_parseCSV. unfold rowsOf. rewrite list_elem_of_fmap. split.
  - intros (line & -> & Hin). apply list_elem_of_filter in Hin as [? ?].
    by exists line.
  - intros (line & Hin & Hwf & ->). exists line. split; [done|].
    by apply list_elem_of_filter.
Qed.

(** X1: the keys of every record are exactly the trimmed column names of
    the header other than [__proto__]; a column of that name leaves no
    trace in the record. *)
Theorem record_keys (csvContent : string) (r : row) (k : string) :
  r ∈ value (parseCSV csvContent) →
  is_Some (r !! k) ↔ k ∈ trim <$> headerOf csvContent ∧ k ≠ "__proto__".
Proof.
  intros Hr. apply elem_of_parsed in Hr as (line & _ & _ & ->).
  unfold mkRow. destruct (decide (k = "__proto__")) as [->|Hown].
  { rewrite forEachHeader_proto, lookup_empty. split; [by intros []|].
    by intros [_ ?]. }
  rewrite forEachHeader_lookup, lookup_empty by done.
  rewrite list_elem_of_fmap.
  destruct (last _) as [[j h]|] eqn:Hlast; split.
  - intros _. split; [|done].
    apply last_Some_elem_of, list_elem_of_filter in Hlast as [Hk Hin].
    apply elem_of_lookup_imap in Hin as (j' & h' & [= -> ->] & Hh).
    exists h'. split; [done|]. by apply list_elem_of_lookup_2 in Hh.
  - done.
  - by intros [].
  - intros [(h & -> & Hin) _]. exfalso.
    apply last_None in Hlast.
    apply list_elem_of_lookup in Hin as [j Hj].
    eapply (filter_nil_not_elem_of _ _ (j, h)); [exact Hlast|done|].
    apply elem_of_lookup_imap. by exists j, h.
Qed.

Lemma record_keys_witness :
  rowOf [("Game ID", "3"); ("Opponent", "C")] ∈ value (parseCSV Sample.text)
  ∧ (is_Some (rowOf [("Game ID", "3"); ("Opponent", "C")] !! "Opponent")
     ↔ "Opponent" ∈ trim <$> headerOf Sample.text ∧ "Opponent" ≠ "__proto__").
Proof.
  assert (rowOf [("Game ID", "3"); ("Opponent", "C")]
            ∈ value (parseCSV Sample.text)) as Hr.
  { vm_compute. right. left. }
  split; [exact Hr|]. exact (record_keys Sample.text _ "Opponent" Hr).
Defined.

(** X2: a well-formed data line yields a record that maps every column
    name other than [__proto__] to the trimmed value in that column; of
    several columns with the same name the last one counts. The record has
    nothing under the name [__proto__]. *)
Theorem record_cells (csvContent line : string) :
  line ∈ dataLinesOf csvContent →
  wellFormed (headerOf csvContent) line →
  ∃ r : row,
    r ∈ value (parseCSV csvContent)
    ∧ (∀ j header v,
         headerOf csvContent !! j = Some header →
         split "," line !! j = Some v →
         trim header ≠ "__proto__" →
         (∀ j' header', (j < j')%nat → headerOf csvContent !! j' = Some header' →
                        trim header' ≠ trim header) →
         r !! trim header = Some (trim v))
    ∧ r !! "__proto__" = None.
Proof.
  intros Hin Hwf. exists (mkRow (headerOf csvContent) (split "," line)).
  split; [apply elem_of_parsed; by exists line|]. split.
  - intros j header v Hj Hv Hown Hlater. unfold mkRow.
    rewrite forEachHeader_lookup by done.
    rewrite (last_filter_header _ 0%nat j header Hj Hlater).
    simpl. by rewrite (cell_lookup _ _ v).
  - unfold mkRow. by rewrite forEachHeader_proto, lookup_empty.
Qed.

Lemma record_cells_witness :
  "3, C " ∈ dataLinesOf Sample.text
  ∧ wellFormed (headerOf Sample.text) "3, C "
  ∧ ∃ r : row,
      r ∈ value (parseCSV Sample.text)
      ∧ (∀ j header v,
           headerOf Sample.text !! j = Some header →
           split "," "3, C " !! j = Some v →
           trim header ≠ "__proto__" →
           (∀ j' header', (j < j')%nat → headerOf Sample.text !! j' = Some header' →
                          trim header' ≠ trim header) →
           r !! trim header = Some (trim v))
      ∧ r !! "__proto__" = None.
Proof.
  assert ("3, C " ∈ dataLinesOf Sample.text) as Hin.
  { vm_compute. do 3 right. left. }
  assert (wellFormed (headerOf Sample.text) "3, C ") as Hwf.
  { split; [by vm_compute|reflexivity]. }
  split; [exact Hin|]. split; [exact Hwf|].
  exact (record_cells Sample.text "3, C " Hin Hwf).
Defined.

Lemma lines_partition headers (lines : list string) :
  ∀ i,
    (length (filter (wellFormed headers) lines)
     + length (filter (λ il : nat * string, ragged headers il.2)
                 (imap (λ j line, ((i + j)%nat, line)) lines))
     + length (filter blank lines))%nat
    = length lines.
Proof.
  induction lines as [|line lines IH]; intros i; [done|].
  rewrite imap_cons.
  assert (imap ((λ j line, ((i + j)%nat, line)) ∘ S) lines
          = imap (λ j line, ((S i + j)%nat, line)) lines) as ->.
  { apply imap_ext. intros j l _. simpl. f_equal. lia. }
  specialize (IH (S i)). rewrite !filter_cons. cbn [snd].
  destruct (decide (blank line)) as [Hb|Hb];
    destruct (decide (wellFormed headers line)) as [Hw|Hw];
    destruct (decide (ragged headers line)) as [Hr|Hr];
    unfold blank, wellFormed, ragged in *; cbn [length]; try lia; exfalso;
    destruct (decide (length (split "," line) = length headers)); tauto.
Qed.

(** X3: every line after the header is accounted for once: it gives a record,
    or a diagnostic, or it is blank. *)
Theorem lines_accounted (csvContent : string) :
  (length (value (parseCSV csvContent))
   + length (warnings (parseCSV csvContent))
   + length (filter blank (dataLinesOf csvContent)))%nat
  = length (dataLinesOf csvContent).
Proof.
  rewrite value_parseCSV, warnings_parseCSV.
  unfold rowsOf, skipSet, skipsAt. rewrite !length_fmap.
  apply lines_partition.
Qed.

(** ** Line endings *)

Lemma sameLine_refl (lines : list string) : Forall2 sameLine lines lines.
Proof. induction lines; constructor; [by left|done]. Qed.

Lemma split_LF_crlf (s : string) :
  Forall2 sameLine (split LF s) (split LF (crlf s)).
Proof.
  induction s as [|c s IH]; simpl.
  - constructor; [by left|constructor].
  - destruct (Ascii.eqb c LF) eqn:Hc.
    + cbn [split]. replace (Ascii.eqb CR LF) with false by done.
      rewrite Ascii.eqb_refl.
      constructor; [by right|done].
    + cbn [split]. rewrite Hc.
      destruct IH as [|w w' ws ws' Hw Hws]; [constructor; [by left|constructor]|].
      constructor; [|done].
      destruct Hw as [->| ->]; [by left|by right].
Qed.

Lemma split_comma_CR (line : string) :
  Forall2 sameLine (split "," line) (split "," (line ++ String CR "")%string).
Proof.
  induction line as [|c line IH]; simpl.
  - replace (Ascii.eqb CR ",") with false by done.
    constructor; [by right|constructor].
  - destruct (Ascii.eqb c ","); [constructor; [by left|done]|].
    destruct IH as [|w w' ws ws' Hw Hws]; [constructor; [by left|constructor]|].
    constructor; [|done].
    destruct Hw as [->| ->]; [by left|by right].
Qed.

Lemma split_comma_sameLine (line line' : string) :
  sameLine line line' → Forall2 sameLine (split "," line) (split "," line').
Proof. intros [->| ->]; [apply sameLine_refl|apply split_comma_CR]. Qed.

Lemma trimEnd_CR (s : string) : trimEnd (s ++ String CR "")%string = trimEnd s.
Proof. induction s as [|c s IH]; simpl; [done|by rewrite IH]. Qed.

Lemma trimStart_CR (s : string) :
  trimStart (s ++ String CR "")%string = (trimStart s ++ String CR "")%string
  ∨ (trimStart (s ++ String CR "")%string = "" ∧ trimStart s = "").
Proof.
  induction s as [|c s IH]; simpl; [by right|].
  destruct (isWhite c); [done|by left].
Qed.

Lemma trim_CR (s : string) : trim (s ++ String CR "")%string = trim s.
Proof.
  unfold trim. destruct (trimStart_CR s) as [->|[-> ->]]; [|done].
  apply trimEnd_CR.
Qed.

Lemma trim_sameLine (line line' : string) :
  sameLine line line' → trim line' = trim line.
Proof. intros [->| ->]; [done|apply trim_CR]. Qed.

Lemma cell_sameLine (values values' : list string) (index : nat) :
  Forall2 sameLine values values' → cell values' index = cell values index.
Proof.
  intros Hsame. unfold cell.
  destruct (values !! index) as [v|] eqn:Hv.
  - destruct (Forall2_lookup_l _ _ _ _ _ Hsame Hv) as (v' & -> & Hvv').
    simpl. destruct Hvv' as [->| ->]; [done|].
    rewrite trim_CR. destruct v; [done|done].
  - assert (values' !! index = None) as ->; [|done].
    apply lookup_ge_None. rewrite <- (Forall2_length _ _ _ Hsame).
    by apply lookup_ge_None.
Qed.

Lemma forEachHeader_sameLine (headers headers' values values' : list string)
    (index : nat) (r : row) :
  Forall2 sameLine headers headers' → Forall2 sameLine values values' →
  forEachHeader values' index headers' r = forEachHeader values index headers r.
Proof.
  intros Hh Hv. revert index r.
  induction Hh as [|h h' hs hs' Hhh' _ IH]; intros index r; simpl; [done|].
  by rewrite IH, (trim_sameLine _ _ Hhh'), (cell_sameLine _ _ _ Hv).
Qed.

Lemma rowsOf_sameLine (headers headers' lines lines' : list string) :
  Forall2 sameLine headers headers' → Forall2 sameLine lines lines' →
  rowsOf headers' lines' = rowsOf headers lines.
Proof.
  intros Hh Hl. unfold rowsOf.
  induction Hl as [|l l' ls ls' Hll' _ IH]; [done|].
  pose proof (split_comma_sameLine _ _ Hll') as Hcells.
  assert (wellFormed headers' l' ↔ wellFormed headers l) as Hwf.
  { unfold wellFormed. rewrite (trim_sameLine _ _ Hll').
    by rewrite <- (Forall2_length _ _ _ Hcells), <- (Forall2_length _ _ _ Hh). }
  destruct (decide (wellFormed headers l)) as [Hw|Hw].
  - rewrite !filter_cons_True by tauto. rewrite !fmap_cons, IH. f_equal.
    by apply forEachHeader_sameLine.
  - rewrite !filter_cons_False by tauto. done.
Qed.

(** X4: Windows line endings do not change what is loaded: the text with every
    line feed replaced by a carriage return and a line feed yields the same
    records, hence the same analysis, and as many skipped lines. *)
Theorem line_endings_ignored (csvContent : string) :
  value (parseCSV (crlf csvContent)) = value (parseCSV csvContent)
  ∧ value (pipeline (crlf csvContent)) = value (pipeline csvContent)
  ∧ length (warnings (parseCSV (crlf csvContent)))
    = length (warnings (parseCSV csvContent)).
Proof.
  pose proof (split_LF_crlf csvContent) as Hlines.
  assert (Forall2 sameLine (headerOf csvContent) (headerOf (crlf csvContent)))
    as Hh.
  { unfold headerOf. apply split_comma_sameLine.
    destruct Hlines; [by left|done]. }
  assert (Forall2 sameLine (dataLinesOf csvContent) (dataLinesOf (crlf csvContent)))
    as Hl.
  { unfold dataLinesOf. destruct Hlines; [constructor|done]. }
  assert (value (parseCSV (crlf csvContent)) = value (parseCSV csvContent))
    as Hrecords by (rewrite !value_parseCSV; by apply rowsOf_sameLine).
  split; [done|]. split.
  - by rewrite !value_pipeline, Hrecords.
  - rewrite !warnings_parseCSV. unfold skipSet, skipsAt.
    rewrite !length_fmap.
    generalize 1%nat. induction Hl as [|l l' ls ls' Hll' _ IH]; intros i; [done|].
    rewrite !imap_cons.
    assert (ragged (headerOf (crlf csvContent)) l'
            ↔ ragged (headerOf csvContent) l) as Hr.
    { unfold ragged. rewrite (trim_sameLine _ _ Hll').
      by rewrite <- (Forall2_length _ _ _ (split_comma_sameLine _ _ Hll')),
        <- (Forall2_length _ _ _ Hh). }
    assert (∀ ls0 : list string,
              imap ((λ (j : nat) (line : string), ((i + j)%nat, line)) ∘ S) ls0
              = imap (λ (j : nat) (line : string), ((S i + j)%nat, line)) ls0)
      as Hshift by (intros ls0; apply imap_ext; intros; simpl; f_equal; lia).
    rewrite !Hshift.
    destruct (decide (ragged (headerOf csvContent) l)) as [Hw|Hw].
    + rewrite !filter_cons_True by (simpl; tauto). cbn [length]. f_equal. apply (IH (S i)).
    + rewrite !filter_cons_False by (simpl; tauto). apply (IH (S i)).
Qed.

(** ** Games and their accounting *)

Lemma sum_fold_insert {V} (f : V → nat) (g : string → V) (l : list string) :
  NoDup l →
  map_fold (λ _ entry acc, f entry + acc)%nat 0%nat
    (foldl (λ m k, <[k := g k]> m) (∅ : gmap string V) l)
  = sum_list ((λ k, f (g k)) <$> l).
Proof.
  intros Hnd.
  assert (∀ m : gmap string V,
    (∀ k, k ∈ l → m !! k = None) →
    map_fold (λ _ entry acc, f entry + acc)%nat 0%nat
      (foldl (λ m k, <[k := g k]> m) m l)
    = (sum_list ((λ k, f (g k)) <$> l)
       + map_fold (λ _ entry acc, f entry + acc)%nat 0%nat m)%nat) as H.
  { induction Hnd as [|k l Hk Hnd IH]; intros m Hm; [done|]. csimpl.
    rewrite IH.
    - rewrite map_fold_insert_L.
      + lia.
      + intros. lia.
      + apply Hm. by left.
    - intros k' Hk'. rewrite lookup_insert_ne; [apply Hm; by right|].
      intros ->. done. }
  rewrite H by (intros; apply lookup_empty).
  rewrite map_fold_empty. lia.
Qed.

Lemma materialized_or_warned data (ids : list (option string)) :
  (∀ g, g ∈ ids → g ∈ gameIds data) →
  (length (omap (λ g, value (buildGame data g)) ids)
   + length (flat_map (λ g, warnings (buildGame data g)) ids))%nat
  = length ids.
Proof.
  induction ids as [|g ids IH]; intros Hids; [done|]. csimpl.
  assert (g ∈ gameIds data) as Hg by (apply Hids; left).
  apply elem_of_gameIds in Hg as (r & Hr & Hid).
  specialize (IH (λ g' Hg', Hids g' (list_elem_of_further _ _ _ Hg'))).
  rewrite length_app, value_buildGame, warnings_buildGame.
  destruct (head (gamePlaysOf data g)) as [fp|] eqn:Hhead.
  - destruct (missingRequired fp); csimpl; lia.
  - apply head_None in Hhead. exfalso.
    by apply (filter_nil_not_elem_of (λ r' : row, r' !! "Game ID" = g) data r).
Qed.

Lemma warning_is_missing_fields data w :
  w ∈ diagnostics data →
  ∃ gameId firstPlay,
    w = MissingFields gameId firstPlay
    ∧ head (filter (λ r : row, r !! "Game ID" = gameId) data) = Some firstPlay
    ∧ ¬ requiredPresent firstPlay.
Proof.
  rewrite diagnostics_unfold. intros Hin.
  apply list_elem_of_In, in_flat_map in Hin as (g & Hg & Hw).
  rewrite warnings_buildGame in Hw.
  destruct (head (gamePlaysOf data g)) as [fp|] eqn:Hhead.
  - destruct (missingRequired fp) eqn:Hmiss; [|done].
    destruct Hw as [<-|[]]. exists g, fp. split; [done|]. split; [done|].
    rewrite <- missingRequired_false. congruence.
  - apply list_elem_of_In, elem_of_gameIds in Hg as (r & Hr & Hid).
    apply head_None in Hhead. exfalso.
    by apply (filter_nil_not_elem_of (λ r' : row, r' !! "Game ID" = g) data r).
Qed.

(** X5: the Key Statistics count every distinct Game ID, also of a game that
    is dropped: totalGames is the number of materialized games plus the
    number of warnings, and every warning reports a game whose first
    record lacks a required field. *)
Theorem total_games_accounted (data : list row) :
  KeyStats.totalGames (Result.keyStats (analyse data))
  = (length (Result.games (analyse data)) + length (diagnostics data))%nat
  ∧ KeyStats.totalGames (Result.keyStats (analyse data))
    = length (uniq ((λ r : row, r !! "Game ID") <$> data))
  ∧ ∀ w, w ∈ diagnostics data →
      ∃ gameId firstPlay,
        w = MissingFields gameId firstPlay
        ∧ head (filter (λ r : row, r !! "Game ID" = gameId) data) = Some firstPlay
        ∧ ¬ requiredPresent firstPlay.
Proof.
  split; [|split; [|apply warning_is_missing_fields]].
  - rewrite diagnostics_unfold, analyse_unfold. simpl.
    rewrite value_gameDataOf. symmetry. by apply materialized_or_warned.
  - rewrite analyse_unfold. simpl. unfold gameIds. by rewrite sort_perm.
Qed.

(** X6: the materialized games have pairwise distinct identifiers; each one
    has at least one play, one per record with its identifier, and a
    non-empty opponent, date and season; its opponent is listed among the
    opponents, which are distinct non-empty names. *)
Theorem games_well_formed (data : list row) :
  NoDup (Game.gameId <$> Result.games (analyse data))
  ∧ NoDup (Result.opponents (analyse data))
  ∧ (∀ opponent, opponent ∈ Result.opponents (analyse data) → opponent ≠ "")
  ∧ ∀ game, game ∈ Result.games (analyse data) →
      Game.plays game ≠ []
      ∧ length (Game.plays game)
        = length (filter (λ r : row, r !! "Game ID" = Game.gameId game) data)
      ∧ nonEmpty (Game.opponent game)
      ∧ nonEmpty (Game.date game)
      ∧ nonEmpty (Game.season game)
      ∧ ∃ opponent, Game.opponent game = Some opponent
                    ∧ opponent ∈ Result.opponents (analyse data).
Proof.
  split; [apply NoDup_materialized_ids|].
  split; [rewrite analyse_unfold; apply NoDup_opponentsOf|].
  split.
  { intros opponent. rewrite analyse_unfold. simpl.
    rewrite elem_of_opponentsOf. by intros [? _]. }
  intros game Hin.
  destruct (game_has_plays _ _ Hin) as (fp & Hhead & (Ho & Hd & Hs) & Heq).
  assert (Game.plays game = toPlay <$> gamePlaysOf data (Game.gameId game))
    as Hplays by (rewrite Heq at 1; done).
  assert (Game.opponent game = fp !! "Opponent") as HO by (by rewrite Heq).
  assert (Game.date game = fp !! "Date") as HD by (by rewrite Heq).
  assert (Game.season game = fp !! "Season") as HS by (by rewrite Heq).
  rewrite Hplays, HO, HD, HS, length_fmap. split; [|split; [done|]].
  - destruct (gamePlaysOf data (Game.gameId game)); [done|]. done.
  - split; [done|]. split; [done|]. split; [done|].
    rewrite <- HO. by apply materialized_opponent_listed.
Qed.

(** ** Sums over the Team Comparison *)

Lemma plays_of_rows (Pplay : Play.t → Prop) (Prow : row → Prop)
    `{!∀ p, Decision (Pplay p), !∀ r, Decision (Prow r)} (rows : list row) :
  (∀ r, Pplay (toPlay r) ↔ Prow r) →
  length (filter Pplay (toPlay <$> rows)) = length (filter Prow rows).
Proof.
  intros Hiff. induction rows as [|r rows IH]; [done|]. csimpl.
  rewrite !filter_cons.
  destruct (decide (Pplay (toPlay r))) as [Hp|Hp];
    destruct (decide (Prow r)) as [Hr|Hr]; simpl; try by rewrite IH.
  - by apply Hiff in Hp.
  - by apply Hiff in Hr.
Qed.

Lemma team_sum_of_materialized data (f : Team.t → nat)
    (Pplay : Play.t → Prop) (Prow : row → Prop)
    `{!∀ p, Decision (Pplay p), !∀ r, Decision (Prow r)} :
  (∀ r, Pplay (toPlay r) ↔ Prow r) →
  (∀ gd opponent,
     f (teamEntry gd opponent)
     = length (filter Pplay (flat_map Game.plays (opponentGamesOf gd opponent)))) →
  sumOverTeams f (Result.teamComparison (analyse data))
  = length (filter (λ r : row, Prow r
                     ∧ r !! "Game ID" ∈ Game.gameId <$> keyedGames data)
                   data).
Proof.
  intros Hiff Hf. unfold keyedGames.
  set (gd := Result.games (analyse data)).
  assert (Result.teamComparison (analyse data)
          = teamComparisonOf gd (opponentsOf data)) as ->
    by (subst gd; by rewrite analyse_unfold).
  unfold teamComparisonOf, sumOverTeams. rewrite foldl_assign.
  rewrite (sum_fold_insert f (teamEntry gd))
    by apply NoDup_filter, NoDup_opponentsOf.
  set (countIn := λ game, length (filter Pplay (Game.plays game))).
  set (keyed := filter (λ game, Game.opponent game ≠ Some "__proto__") gd).
  transitivity (sum_list (countIn <$> keyed)).
  { transitivity (sum_list
      ((λ k, sum_list (countIn <$> filter (λ game, Game.opponent game = k) gd))
         <$> (Some <$> filter (λ k, k ≠ "__proto__") (opponentsOf data)))).
    - rewrite <- list_fmap_compose. f_equal. apply list_fmap_ext.
      intros _ o _. simpl. rewrite Hf. unfold opponentGamesOf.
      apply length_filter_flat_map.
    - rewrite (sum_by_key Game.opponent countIn)
        by (apply NoDup_fmap_2; [apply _|apply NoDup_filter, NoDup_opponentsOf]).
      subst keyed. do 2 f_equal. apply filter_ext_elem_of.
      intros game Hin. by apply keyed_opponent. }
  transitivity (sum_list
    ((λ g, sum_list ((λ r : row, if decide (Prow r) then 1 else 0)%nat
                       <$> filter (λ r : row, r !! "Game ID" = g) data))
       <$> (Game.gameId <$> keyed))).
  { rewrite <- list_fmap_compose. f_equal. apply list_fmap_ext.
    intros i game Hin. apply list_elem_of_lookup_2 in Hin. simpl.
    apply list_elem_of_filter in Hin as [_ Hin].
    destruct (game_has_plays _ _ Hin) as (fp & _ & _ & Heq).
    unfold countIn. rewrite Heq. simpl.
    rewrite (plays_of_rows Pplay Prow) by done. apply length_filter_as_sum. }
  rewrite (sum_by_key (λ r : row, r !! "Game ID"))
    by apply NoDup_fmap_filter, NoDup_materialized_ids.
  rewrite <- list_filter_filter, length_filter_as_sum. done.
Qed.

Lemma length_filter_and_le {X} (P Q : X → Prop)
    `{!∀ x, Decision (P x), !∀ x, Decision (Q x)} (l : list X) :
  (length (filter (λ x, P x ∧ Q x) l) ≤ length (filter P l))%nat.
Proof.
  induction l as [|x l IH]; [done|]. rewrite !filter_cons.
  destruct (decide (P x ∧ Q x)) as [[HP HQ]|Hn]; destruct (decide (P x));
    simpl; try lia. done.
Qed.

(** X7: the Team Comparison has its entries for the opponents other than
    [__proto__]. Its gamesPlayed add up to the number of materialized
    games against those opponents; its totalGoals and totalShots add up to
    the goal rows and the shot rows of these games, so they never exceed
    the totals of the Key Statistics, which also count the rows of dropped
    games and of games against [__proto__]. *)
Theorem team_sums (data : list row) :
  sumOverTeams Team.gamesPlayed (Result.teamComparison (analyse data))
  = length (keyedGames data)
  ∧ sumOverTeams Team.totalGoals (Result.teamComparison (analyse data))
    = length (filter (λ r : row,
                r !! "Shot Outcome" = Some "Goal"
                ∧ r !! "Game ID" ∈ Game.gameId <$> keyedGames data)
              data)
  ∧ sumOverTeams Team.totalShots (Result.teamComparison (analyse data))
    = length (filter (λ r : row,
                r !! "Shot Attempt" = Some "Yes"
                ∧ r !! "Game ID" ∈ Game.gameId <$> keyedGames data)
              data)
  ∧ (sumOverTeams Team.gamesPlayed (Result.teamComparison (analyse data))
     ≤ length (Result.games (analyse data)))%nat
  ∧ (sumOverTeams Team.totalGoals (Result.teamComparison (analyse data))
     ≤ KeyStats.totalGoals (Result.keyStats (analyse data)))%nat
  ∧ (sumOverTeams Team.totalShots (Result.teamComparison (analyse data))
     ≤ KeyStats.totalShots (Result.keyStats (analyse data)))%nat
  ∧ ((∀ game, game ∈ Result.games (analyse data) →
              Game.opponent game ≠ Some "__proto__") →
     keyedGames data = Result.games (analyse data)).
Proof.
  assert (sumOverTeams Team.totalGoals (Result.teamComparison (analyse data))
    = length (filter (λ r : row,
                isGoalRow r
                ∧ r !! "Game ID" ∈ Game.gameId <$> keyedGames data)
              data)) as Hgoals
    by (by apply (team_sum_of_materialized data Team.totalGoals isGoalPlay isGoalRow)).
  assert (sumOverTeams Team.totalShots (Result.teamComparison (analyse data))
    = length (filter (λ r : row,
                isShotRow r
                ∧ r !! "Game ID" ∈ Game.gameId <$> keyedGames data)
              data)) as Hshots
    by (by apply (team_sum_of_materialized data Team.totalShots isShotPlay isShotRow)).
  assert (sumOverTeams Team.gamesPlayed (Result.teamComparison (analyse data))
          = length (keyedGames data)) as Hplayed.
  { unfold keyedGames. set (gd := Result.games (analyse data)).
    assert (Result.teamComparison (analyse data)
            = teamComparisonOf gd (opponentsOf data)) as ->
      by (subst gd; by rewrite analyse_unfold).
    unfold teamComparisonOf, sumOverTeams. rewrite foldl_assign.
    rewrite (sum_fold_insert Team.gamesPlayed (teamEntry gd))
      by apply NoDup_filter, NoDup_opponentsOf.
    transitivity (sum_list
      ((λ k, sum_list ((λ _ : Game.t, 1%nat)
                         <$> filter (λ game, Game.opponent game = k) gd))
         <$> (Some <$> filter (λ k, k ≠ "__proto__") (opponentsOf data)))).
    + rewrite <- list_fmap_compose. f_equal. apply list_fmap_ext.
      intros _ o _. simpl. unfold opponentGamesOf. apply length_as_sum.
    + rewrite (sum_by_key Game.opponent)
        by (apply NoDup_fmap_2; [apply _|apply NoDup_filter, NoDup_opponentsOf]).
      rewrite <- length_as_sum. f_equal. apply filter_ext_elem_of.
      intros game Hin. by apply keyed_opponent. }
  split; [done|]. split; [done|]. split; [done|].
  split; [|split; [|split]].
  - rewrite Hplayed. apply length_filter.
  - rewrite Hgoals.
    assert (KeyStats.totalGoals (Result.keyStats (analyse data))
            = length (filter isGoalRow data)) as -> by by rewrite analyse_unfold.
    apply length_filter_and_le.
  - rewrite Hshots.
    assert (KeyStats.totalShots (Result.keyStats (analyse data))
            = length (filter isShotRow data)) as -> by by rewrite analyse_unfold.
    apply length_filter_and_le.
  - intros Hown. unfold keyedGames. apply filter_Forall_id.
    apply Forall_forall. intros game Hin. by apply Hown.
Qed.

Lemma team_sums_witness :
  keyedGames [Sample.goalA; Sample.missA]
  = Result.games (analyse [Sample.goalA; Sample.missA]).
Proof.
  apply (proj2 (proj2 (proj2 (proj2 (proj2 (proj2
           (team_sums [Sample.goalA; Sample.missA]))))))).
  intros game Hin.
  destruct (game_has_plays _ _ Hin) as (fp & Hhead & _ & Heq).
  apply head_Some_elem_of, list_elem_of_filter in Hhead as [_ Hfp].
  rewrite Heq. cbn [Game.opponent].
  apply elem_of_cons in Hfp as [->|Hfp]; [by vm_compute|].
  apply list_elem_of_singleton in Hfp. subst fp. by vm_compute.
Defined.

(** ** The Goals Timeline *)

Lemma goal_entries_of_rows game (rows : list row) :
  (λ goal,
     {| Goal.minute := Play.minute goal;
        Goal.gameId := Game.gameId game;
        Goal.opponent := Game.opponent game;
        Goal.playType := Play.playType goal;
        Goal.playContext := Play.playContext goal;
        Goal.location := Play.location goal;
        Goal.xG := Play.xG goal;
        Goal.winImpact := Play.winImpact goal |})
    <$> filter (λ play, Play.shotOutcome play = Some "Goal") (toPlay <$> rows)
  = goalEntry game <$> filter isGoalRow rows.
Proof.
  induction rows as [|r rows IH]; [done|]. csimpl. rewrite !filter_cons.
  destruct (decide (Play.shotOutcome (toPlay r) = Some "Goal")) as [Hp|Hp];
    destruct (decide (isGoalRow r)) as [Hr|Hr]; try done.
  csimpl. by rewrite IH.
Qed.

Lemma flat_map_ext_Forall {X Y} (f g : X → list Y) (l : list X) :
  Forall (λ x, f x = g x) l → flat_map f l = flat_map g l.
Proof. induction 1 as [|x l Hx _ IH]; [done|]. simpl. by rewrite Hx, IH. Qed.

Lemma sum_list_fmap_filter {X} (P : X → Prop) `{!∀ x, Decision (P x)}
    (h c : X → nat) (l : list X) :
  (∀ x, x ∈ l → h x = if decide (P x) then c x else 0%nat) →
  sum_list (h <$> l) = sum_list (c <$> filter P l).
Proof.
  induction l as [|x l IH]; intros Hh; [done|]. rewrite filter_cons. csimpl.
  rewrite IH by (intros y Hy; apply Hh; by right).
  rewrite (Hh x) by by left. by destruct (decide (P x)).
Qed.

Lemma keyed_goal_entries game (rows : list row) :
  length (filter (λ goal, Goal.opponent goal ≠ Some "__proto__")
            (goalEntry game <$> rows))
  = if decide (Game.opponent game ≠ Some "__proto__") then length rows else 0%nat.
Proof.
  induction rows as [|r rows IH]; [by destruct (decide _)|]. csimpl.
  rewrite filter_cons. cbn [goalEntry Goal.opponent].
  destruct (decide (Game.opponent game ≠ Some "__proto__")); cbn [length];
    by rewrite IH.
Qed.

(** X8: the Goals Timeline lists, game after game in the order of the games
    output, the goal rows of each materialized game in source order, each
    with the game's identifier and opponent and with minute, xG and win
    impact coerced to numbers. The Team Comparison counts as many goals as
    the timeline has entries of opponents other than [__proto__], the name
    that gets no entry there; so it never counts more goals than the
    timeline has entries. *)
Theorem timeline_from_rows (data : list row) :
  Result.goalsTimeline (analyse data)
  = flat_map
      (λ game,
         goalEntry game
           <$> filter (λ r : row, r !! "Shot Outcome" = Some "Goal")
                 (filter (λ r : row, r !! "Game ID" = Game.gameId game) data))
      (Result.games (analyse data))
  ∧ sumOverTeams Team.totalGoals (Result.teamComparison (analyse data))
    = length (filter (λ goal, Goal.opponent goal ≠ Some "__proto__")
                (Result.goalsTimeline (analyse data)))
  ∧ (sumOverTeams Team.totalGoals (Result.teamComparison (analyse data))
     ≤ length (Result.goalsTimeline (analyse data)))%nat.
Proof.
  assert (Result.goalsTimeline (analyse data)
          = flat_map goalsOfGame (Result.games (analyse data))) as Htl
    by by rewrite analyse_unfold.
  assert (Result.goalsTimeline (analyse data)
    = flat_map
        (λ game, goalEntry game
           <$> filter isGoalRow (gamePlaysOf data (Game.gameId game)))
        (Result.games (analyse data))) as Hrows.
  { rewrite Htl. apply flat_map_ext_Forall, Forall_forall. intros game Hin.
    destruct (game_has_plays _ _ Hin) as (fp & _ & _ & Heq).
    assert (Game.plays game = toPlay <$> gamePlaysOf data (Game.gameId game))
      as Hplays by (rewrite Heq at 1; done).
    unfold goalsOfGame. rewrite Hplays. apply goal_entries_of_rows. }
  assert (sumOverTeams Team.totalGoals (Result.teamComparison (analyse data))
    = length (filter (λ goal, Goal.opponent goal ≠ Some "__proto__")
                (Result.goalsTimeline (analyse data)))) as Hsum.
  { rewrite Hrows, length_filter_flat_map.
    rewrite (team_sum_of_materialized data Team.totalGoals isGoalPlay isGoalRow)
      by done.
    rewrite (sum_list_fmap_filter
               (λ game, Game.opponent game ≠ Some "__proto__") _
               (λ game, length (filter isGoalRow
                                  (gamePlaysOf data (Game.gameId game)))))
      by (intros game _; apply keyed_goal_entries).
    fold (keyedGames data). symmetry.
    transitivity (sum_list
      ((λ g, sum_list ((λ r : row, if decide (isGoalRow r) then 1 else 0)%nat
                         <$> filter (λ r : row, r !! "Game ID" = g) data))
         <$> (Game.gameId <$> keyedGames data))).
    - rewrite <- list_fmap_compose. f_equal. apply list_fmap_ext.
      intros i game _. simpl. apply length_filter_as_sum.
    - rewrite (sum_by_key (λ r : row, r !! "Game ID"))
        by apply NoDup_fmap_filter, NoDup_materialized_ids.
      rewrite <- list_filter_filter, length_filter_as_sum. done. }
  split; [exact Hrows|]. split; [exact Hsum|].
  rewrite Hsum. apply length_filter.
Qed.

(** ** Grouping by a column *)

Lemma groups_partition (data : list row) (field : string) (P : row → Prop)
    `{!∀ r, Decision (P r)} :
  sum_list ((λ k, length (filter (λ r : row, r !! field = Some k ∧ P r) data))
              <$> truthyOnly (uniq ((λ r : row, r !! field) <$> data)))
  = length (filter (λ r : row, truthy (r !! field) = true ∧ P r) data).
Proof.
  set (keys := truthyOnly (uniq ((λ r : row, r !! field) <$> data))).
  transitivity (sum_list
    ((λ k, sum_list ((λ _ : row, 1%nat)
                       <$> filter (λ r : row, r !! field = k) (filter P data)))
       <$> (Some <$> keys))).
  - rewrite <- list_fmap_compose. f_equal. apply list_fmap_ext.
    intros _ k _. simpl. rewrite <- length_as_sum, list_filter_filter. done.
  - rewrite (sum_by_key (λ r : row, r !! field))
      by (apply NoDup_fmap_2; [apply _|apply NoDup_truthyOnly, NoDup_uniq]).
    rewrite <- length_as_sum, list_filter_filter. f_equal.
    apply filter_ext_elem_of. intros r Hr. split.
    + intros [Hin HP]. split; [|done].
      apply list_elem_of_fmap in Hin as (k & -> & Hk).
      apply elem_of_truthyOnly in Hk as [_ Hne]. by destruct k.
    + intros [Ht HP]. split; [|done].
      destruct (r !! field) as [[|c s]|] eqn:Hf; try done.
      apply list_elem_of_fmap_2, elem_of_truthyOnly. split; [|done].
      apply elem_of_uniq, list_elem_of_fmap. by exists r.
Qed.

Lemma elem_of_playTypesOf data playType :
  playType ∈ playTypesOf data ↔
    playType ≠ "" ∧ ∃ r : row, r ∈ data ∧ r !! "Play Type" = Some playType.
Proof.
  unfold playTypesOf.
  rewrite elem_of_truthyOnly, elem_of_uniq, list_elem_of_fmap.
  split.
  - intros [(r & Hr & Hin) Hne]. split; [done|]. by exists r.
  - intros [Hne (r & Hin & Hr)]. split; [|done]. by exists r.
Qed.

(** The groups of the names that get an entry. *)
Lemma groups_partition_keyed (data : list row) (field : string) (P : row → Prop)
    `{!∀ r, Decision (P r)} :
  sum_list ((λ k, length (filter (λ r : row, r !! field = Some k ∧ P r) data))
              <$> filter (λ k, k ≠ "__proto__")
                    (truthyOnly (uniq ((λ r : row, r !! field) <$> data))))
  = length (filter (λ r : row, truthy (r !! field) = true
                               ∧ r !! field ≠ Some "__proto__" ∧ P r) data).
Proof.
  rewrite <- (groups_partition data field
                (λ r, r !! field ≠ Some "__proto__" ∧ P r)).
  rewrite <- (sum_list_fmap_filter (λ k, k ≠ "__proto__")
                (λ k, length (filter (λ r : row,
                        r !! field = Some k
                        ∧ r !! field ≠ Some "__proto__" ∧ P r) data))); [done|].
  intros k _. destruct (decide (k ≠ "__proto__")) as [Hown|Hproto].
  - f_equal. apply list_filter_iff. intros r.
    split; intros Hr; repeat split; try tauto.
    destruct Hr as [Hk _]. rewrite Hk. by intros [= ->].
  - apply length_zero_iff_nil, filter_Forall_nil, Forall_forall.
    intros r _ [Hk [Hne _]]. apply Hproto. intros ->. done.
Qed.

(** X9: the Play Type Distribution has an entry exactly for the non-empty
    play types of the records other than [__proto__]; an entry counts the
    rows of its type, at least one, and among them the shots and the
    goals; the counts add up to the number of rows that have a play type
    other than [__proto__]. *)
Theorem play_type_entries (data : list row) :
  (∀ playType,
     is_Some (Result.playTypeData (analyse data) !! playType)
     ↔ playType ≠ "" ∧ playType ≠ "__proto__"
       ∧ ∃ r : row, r ∈ data ∧ r !! "Play Type" = Some playType)
  ∧ (∀ playType entry,
       Result.playTypeData (analyse data) !! playType = Some entry →
       PlayType.count entry
       = length (filter (λ r : row, r !! "Play Type" = Some playType) data)
       ∧ (1 ≤ PlayType.count entry)%nat
       ∧ PlayType.shots entry
         = length (filter (λ r : row, r !! "Play Type" = Some playType
                                      ∧ r !! "Shot Attempt" = Some "Yes") data)
       ∧ PlayType.goals entry
         = length (filter (λ r : row, r !! "Play Type" = Some playType
                                      ∧ r !! "Shot Outcome" = Some "Goal") data)
       ∧ (PlayType.shots entry ≤ PlayType.count entry)%nat
       ∧ (PlayType.goals entry ≤ PlayType.count entry)%nat)
  ∧ sumOverTypes PlayType.count (Result.playTypeData (analyse data))
    = length (filter (λ r : row, truthy (r !! "Play Type") = true
                                 ∧ r !! "Play Type" ≠ Some "__proto__") data).
Proof.
  split; [|split].
  - intros playType. rewrite playTypeData_lookup.
    pose proof (elem_of_playTypesOf data playType) as Hiff.
    destruct (decide _) as [[Hin Hown]|Hno]; split.
    + intros _. apply Hiff in Hin as [Hne Hex]. done.
    + done.
    + by intros [].
    + intros (Hne & Hown & Hex). exfalso. apply Hno.
      split; [by apply Hiff|done].
  - intros playType entry. rewrite playTypeData_lookup.
    destruct (decide _) as [[Hin _]|]; [|done]. intros [= <-].
    unfold playTypeEntry, typePlaysOf.
    cbn [PlayType.count PlayType.shots PlayType.goals].
    rewrite !list_filter_filter.
    split; [done|]. split; [|split; [|split; [|split]]].
    + apply elem_of_playTypesOf in Hin as (_ & r & Hr & Ht).
      destruct (filter (λ r : row, r !! "Play Type" = Some playType) data)
        eqn:Hf; [|simpl; lia].
      exfalso.
      by apply (filter_nil_not_elem_of
                  (λ r : row, r !! "Play Type" = Some playType) data r).
    + f_equal. apply list_filter_iff. intros r. unfold isShotRow. tauto.
    + f_equal. apply list_filter_iff. intros r. unfold isGoalRow. tauto.
    + rewrite (list_filter_iff _ (λ r : row, r !! "Play Type" = Some playType
                                            ∧ isShotRow r)) by (intros; tauto).
      apply length_filter_and_le.
    + rewrite (list_filter_iff _ (λ r : row, r !! "Play Type" = Some playType
                                            ∧ isGoalRow r)) by (intros; tauto).
      apply length_filter_and_le.
  - assert (Result.playTypeData (analyse data) = playTypeDataOf data) as ->
      by by rewrite analyse_unfold.
    unfold playTypeDataOf, sumOverTypes. rewrite foldl_assign.
    rewrite (sum_fold_insert PlayType.count (playTypeEntry data))
      by apply NoDup_filter, NoDup_truthyOnly, NoDup_uniq.
    unfold playTypesOf.
    transitivity (length (filter
      (λ r : row, truthy (r !! "Play Type") = true
                  ∧ r !! "Play Type" ≠ Some "__proto__" ∧ True) data));
      [|f_equal; apply list_filter_iff; intros; tauto].
    rewrite <- (groups_partition_keyed data "Play Type" (λ _, True)).
    f_equal. apply list_fmap_ext. intros _ k _. simpl. unfold typePlaysOf.
    f_equal. apply list_filter_iff. intros r. tauto.
Qed.

(** ** Sums over the Shot Map *)

(** X10: in every Shot Map entry the goals are among the shots; the
    totalShots of all entries add up to the shot rows that have a location
    other than [__proto__], which the Key Statistics' totalShots bound. *)
Theorem shot_map_sums (data : list row) :
  (∀ location entry,
     Result.shotMapData (analyse data) !! location = Some entry →
     (ShotMap.goals entry ≤ ShotMap.totalShots entry)%nat)
  ∧ sumOverShots ShotMap.totalShots (Result.shotMapData (analyse data))
    = length (filter (λ r : row, truthy (r !! "Location on Field") = true
                                 ∧ r !! "Location on Field" ≠ Some "__proto__"
                                 ∧ r !! "Shot Attempt" = Some "Yes") data)
  ∧ (sumOverShots ShotMap.totalShots (Result.shotMapData (analyse data))
     ≤ KeyStats.totalShots (Result.keyStats (analyse data)))%nat.
Proof.
  assert (sumOverShots ShotMap.totalShots (Result.shotMapData (analyse data))
    = length (filter (λ r : row, truthy (r !! "Location on Field") = true
                                 ∧ r !! "Location on Field" ≠ Some "__proto__"
                                 ∧ isShotRow r) data)) as Hsum.
  { assert (Result.shotMapData (analyse data) = shotMapDataOf data) as ->
      by by rewrite analyse_unfold.
    unfold shotMapDataOf, sumOverShots. rewrite foldl_assign.
    rewrite (sum_fold_insert ShotMap.totalShots (shotEntry data))
      by apply NoDup_filter, NoDup_truthyOnly, NoDup_uniq.
    unfold locationsOf.
    by rewrite <- (groups_partition_keyed data "Location on Field" isShotRow). }
  split; [|split; [exact Hsum|]].
  - intros location entry. rewrite shotMapData_lookup.
    destruct (decide _); [|done]. intros [= <-]. simpl. apply length_filter.
  - rewrite Hsum.
    assert (KeyStats.totalShots (Result.keyStats (analyse data))
            = length (filter isShotRow data)) as -> by by rewrite analyse_unfold.
    rewrite (list_filter_iff _ (λ r : row, isShotRow r
               ∧ (truthy (r !! "Location on Field") = true
                  ∧ r !! "Location on Field" ≠ Some "__proto__")))
      by (intros; tauto).
    apply length_filter_and_le.
Qed.

Lemma shot_map_sums_witness :
  (ShotMap.goals Sample.boxEntry ≤ ShotMap.totalShots Sample.boxEntry)%nat.
Proof.
  exact (proj1 (shot_map_sums [Sample.goalA; Sample.missA]) "Box" Sample.boxEntry
           (proj1 (proj2 box_example))).
Defined.

(** ** Coercion of the fields of a play *)

Lemma orZero_signedNonzero s x : signedNonzero s x → orZero x = x.
Proof. by intros [(m & e & ->)| ->]. Qed.

Lemma signedNonzero_binary_round s p :
  signedNonzero s (binary_round prec emax s p 0).
Proof.
  unfold binary_round.
  pose proof (shl_align_exponent p 0
    (fexp prec emax (Zpos (digits2_pos p) + 0)) emin_le_0 (fexp_ge_emin _)) as H.
  destruct (shl_align p 0 _) as [mz ez]. simpl in H.
  apply binary_round_aux_pos; [lia|done].
Qed.

Lemma orZero_ofZ z : 0 ≤ z → orZero (ofZ z) = ofZ z.
Proof.
  intros Hz. destruct z as [|p|p]; [done| |lia].
  apply (orZero_signedNonzero false), signedNonzero_binary_round.
Qed.

Lemma parseInt_decimal s :
  isDecimal s → parseInt (Some s) = ofZ (Z.of_N (decimalValue s)).
Proof.
  intros [Hne Hs]. unfold parseInt.
  assert (trimStart s = s) as ->.
  { destruct s as [|c s]; [done|]. simpl. destruct Hs as [Hc _].
    by rewrite digit_not_white. }
  destruct s as [|c s]; [done|]. pose proof Hs as [Hc Hs'].
  rewrite readSign_decimal by done.
  assert ((match String c s with
           | String c0 (String c1 s') =>
               if Ascii.eqb c0 "0" && (Ascii.eqb c1 "x" || Ascii.eqb c1 "X")
               then (16%N, s') else (10%N, String c s)
           | _ => (10%N, String c s)
           end) = (10%N, String c s)) as ->.
  { destruct s as [|c1 s']; [done|]. destruct Hs' as [Hc1 _].
    rewrite !(digit_eqb_other c1) by (done || (unfold isDigit; simpl; lia)).
    by rewrite andb_false_r. }
  rewrite readDigits_decimal by done. simpl. done.
Qed.

(** X11: the numeric fields of a play are never [NaN]: a field that does not
    read as a number counts as 0, a minute written as a decimal numeral is
    that number; the shot distance is [null] exactly when its field is
    missing or empty; success holds exactly for the text [Yes]. *)
Theorem play_coercions (r : row) :
  isNaN (Play.minute (toPlay r)) = false
  ∧ isNaN (Play.xG (toPlay r)) = false
  ∧ isNaN (Play.winImpact (toPlay r)) = false
  ∧ (¬ nonEmpty (r !! "Minute") → Play.minute (toPlay r) = zero)
  ∧ (¬ nonEmpty (r !! "xG") → Play.xG (toPlay r) = zero)
  ∧ (∀ s, r !! "Minute" = Some s → isDecimal s →
          Play.minute (toPlay r) = ofZ (Z.of_N (decimalValue s)))
  ∧ (Play.shotDistance (toPlay r) = None ↔ ¬ nonEmpty (r !! "Shot Distance"))
  ∧ (Play.success (toPlay r) = true ↔ r !! "Success" = Some "Yes").
Proof.
  assert (∀ v, ¬ nonEmpty v → v = None ∨ v = Some "") as Hempty.
  { intros [[|c s]|] Hv; [by right| |by left].
    exfalso. apply Hv. by exists (String c s). }
  unfold toPlay. cbn [Play.minute Play.xG Play.winImpact Play.shotDistance
                      Play.success].
  split; [apply isNaN_orZero|]. split; [apply isNaN_orZero|].
  split; [apply isNaN_orZero|]. split; [|split; [|split; [|split]]].
  - intros Hv. by destruct (Hempty _ Hv) as [-> | ->].
  - intros Hv. by destruct (Hempty _ Hv) as [-> | ->].
  - intros s -> Hs. rewrite parseInt_decimal by done. apply orZero_ofZ. lia.
  - rewrite <- truthy_nonEmpty.
    destruct (truthy (r !! "Shot Distance")); split; try done;
      intros H; by destruct H.
  - apply bool_decide_eq_true.
Qed.

Lemma play_coercions_witness :
  Sample.goalA !! "Minute" = Some "12"
  ∧ isDecimal "12"
  ∧ Play.minute (toPlay Sample.goalA) = ofZ 12.
Proof.
  assert (Sample.goalA !! "Minute" = Some "12") as Hm by reflexivity.
  assert (isDecimal "12") as Hd.
  { split; [done|]. simpl. unfold isDigit. simpl. lia. }
  split; [exact Hm|]. split; [exact Hd|].
  exact (proj1 (proj2 (proj2 (proj2 (proj2 (proj2 (play_coercions Sample.goalA))))))
           "12" Hm Hd).
Defined.

(** ** The order of the rows *)

Lemma length_uniq_perm {X} `{EqDecision X} (l l' : list X) :
  l ≡ₚ l' → length (uniq l) = length (uniq l').
Proof.
  intros Hperm. apply Permutation_length, NoDup_Permutation;
    [apply NoDup_uniq..|].
  intros x. by rewrite !elem_of_uniq, Hperm.
Qed.

(** X12: the counts do not depend on the order of the rows: for two inputs with
    the same rows in a different order the Key Statistics have the same
    totalGames, totalGoals, totalShots and conversion rate, the Shot Map
    and the Play Type Distribution have the same keys with the same counts
    (and success rates), and the same opponents are listed. *)
Theorem counts_ignore_row_order (data data' : list row) :
  data ≡ₚ data' →
  KeyStats.totalGames (Result.keyStats (analyse data))
  = KeyStats.totalGames (Result.keyStats (analyse data'))
  ∧ KeyStats.totalGoals (Result.keyStats (analyse data))
    = KeyStats.totalGoals (Result.keyStats (analyse data'))
  ∧ KeyStats.totalShots (Result.keyStats (analyse data))
    = KeyStats.totalShots (Result.keyStats (analyse data'))
  ∧ KeyStats.overallConversionRate (Result.keyStats (analyse data))
    = KeyStats.overallConversionRate (Result.keyStats (analyse data'))
  ∧ (∀ location,
       (λ entry, (ShotMap.totalShots entry, ShotMap.goals entry,
                  ShotMap.successRate entry))
         <$> Result.shotMapData (analyse data) !! location
       = (λ entry, (ShotMap.totalShots entry, ShotMap.goals entry,
                    ShotMap.successRate entry))
           <$> Result.shotMapData (analyse data') !! location)
  ∧ (∀ playType,
       (λ entry, (PlayType.count entry, PlayType.shots entry,
                  PlayType.goals entry))
         <$> Result.playTypeData (analyse data) !! playType
       = (λ entry, (PlayType.count entry, PlayType.shots entry,
                    PlayType.goals entry))
           <$> Result.playTypeData (analyse data') !! playType)
  ∧ (∀ opponent, opponent ∈ Result.opponents (analyse data)
                 ↔ opponent ∈ Result.opponents (analyse data')).
Proof.
  intros Hperm.
  assert (∀ (P : row → Prop) `{!∀ r, Decision (P r)},
            length (filter P data) = length (filter P data')) as Hcount
    by (intros P ?; by rewrite Hperm).
  assert (∀ (P : row → Prop) `{!∀ r, Decision (P r)} (Q : row → Prop)
            `{!∀ r, Decision (Q r)},
            length (filter Q (filter P data))
            = length (filter Q (filter P data'))) as Hcount2
    by (intros P ? Q ?; by rewrite Hperm).
  split; [|split; [|split; [|split; [|split; [|split]]]]].
  - rewrite !analyse_unfold. simpl. unfold gameIds.
    rewrite !sort_perm. apply length_uniq_perm. by rewrite Hperm.
  - rewrite !analyse_unfold. simpl. apply Hcount.
  - rewrite !analyse_unfold. simpl. apply Hcount.
  - rewrite !analyse_unfold. simpl.
    by rewrite (Hcount isShotRow _), (Hcount isGoalRow _).
  - intros location. rewrite !shotMapData_lookup.
    assert (location ∈ locationsOf data ↔ location ∈ locationsOf data') as Hiff.
    { rewrite !elem_of_locationsOf. unfold observedLocation.
      by setoid_rewrite Hperm. }
    destruct (decide (location ∈ locationsOf data ∧ location ≠ "__proto__"))
      as [Hin|Hin];
      destruct (decide (location ∈ locationsOf data' ∧ location ≠ "__proto__"))
        as [Hin'|Hin']; [|tauto|tauto|done].
    simpl. unfold locationPlaysOf.
    rewrite (Hcount _ _), (Hcount2 _ _ isGoalRow _). done.
  - intros playType. rewrite !playTypeData_lookup.
    assert (playType ∈ playTypesOf data ↔ playType ∈ playTypesOf data') as Hiff.
    { rewrite !elem_of_playTypesOf. by setoid_rewrite Hperm. }
    destruct (decide (playType ∈ playTypesOf data ∧ playType ≠ "__proto__"))
      as [Hin|Hin];
      destruct (decide (playType ∈ playTypesOf data' ∧ playType ≠ "__proto__"))
        as [Hin'|Hin']; [|tauto|tauto|done].
    simpl. unfold typePlaysOf.
    rewrite (Hcount _ _), (Hcount2 _ _ isGoalRow _),
      (Hcount2 _ _ isShotRow _). done.
  - intros opponent. rewrite !analyse_unfold. simpl.
    rewrite !elem_of_opponentsOf. by setoid_rewrite Hperm.
Qed.

Lemma counts_ignore_row_order_witness :
  [Sample.goalA; Sample.passB] ≡ₚ [Sample.passB; Sample.goalA]
  ∧ KeyStats.totalGames (Result.keyStats (analyse [Sample.goalA; Sample.passB]))
    = KeyStats.totalGames (Result.keyStats (analyse [Sample.passB; Sample.goalA])).
Proof.
  assert ([Sample.goalA; Sample.passB] ≡ₚ [Sample.passB; Sample.goalA]) as Hperm
    by apply perm_swap.
  split; [exact Hperm|].
  exact (proj1 (counts_ignore_row_order _ _ Hperm)).
Defined.

(** ** The assistant endpoints *)

Import Assistant Script.

Section assistant.

Variable generateContent : service.

Lemma tryModels_unavailable prompt modelName rest lastError made error :
  generateContent (length made) modelName prompt = Failure error →
  unavailable error = true →
  tryModels generateContent prompt (modelName :: rest) lastError made
  = tryModels generateContent prompt rest (Some error)
      (made ++ [(modelName, prompt)]).
Proof.
  intros Hcall Hun. cbn [tryModels]. unfold mbind, run_bind, catch, generate.
  rewrite Hcall. cbn. by rewrite Hun.
Qed.

Lemma tryModels_answer prompt modelName rest lastError made text :
  generateContent (length made) modelName prompt = Answer text →
  text ≠ "" →
  tryModels generateContent prompt (modelName :: rest) lastError made
  = (inr {| Response.statusCode := 200; Response.json := Reply text |},
     made ++ [(modelName, prompt)]).
Proof.
  intros Hcall Htext. cbn [tryModels]. unfold mbind, run_bind, catch, generate.
  rewrite Hcall. destruct text; [done|]. reflexivity.
Qed.

Lemma tryModels_empty prompt modelName rest lastError made :
  generateContent (length made) modelName prompt = Answer "" →
  tryModels generateContent prompt (modelName :: rest) lastError made
  = (inl (Error "Empty response from Gemini API"),
     made ++ [(modelName, prompt)]).
Proof.
  intros Hcall. cbn [tryModels]. unfold mbind, run_bind, catch, generate.
  rewrite Hcall. reflexivity.
Qed.

Lemma tryModels_fatal prompt modelName rest lastError made error :
  generateContent (length made) modelName prompt = Failure error →
  unavailable error = false →
  tryModels generateContent prompt (modelName :: rest) lastError made
  = (inl error, made ++ [(modelName, prompt)]).
Proof.
  intros Hcall Hun. cbn [tryModels]. unfold mbind, run_bind, catch, generate.
  rewrite Hcall. cbn. by rewrite Hun.
Qed.

(** The loop passes over the models that are not to be had. *)
Lemma tryModels_skip prompt models k lastError made :
  (∀ i modelName, (i < k)%nat → models !! i = Some modelName →
     ∃ error, generateContent (length made + i)%nat modelName prompt = Failure error
              ∧ unavailable error = true) →
  ∃ lastError',
    (k = 0%nat ∧ lastError' = lastError
     ∨ models = [] ∧ lastError' = lastError
     ∨ ∃ error, lastError' = Some error ∧ unavailable error = true)
    ∧ tryModels generateContent prompt models lastError made
      = tryModels generateContent prompt (drop k models) lastError'
          (made ++ ((λ modelName, (modelName, prompt)) <$> take k models)).
Proof.
  revert models lastError made.
  induction k as [|k IH]; intros models lastError made Hskip.
  - exists lastError. split; [by left|]. by rewrite take_0, drop_0, app_nil_r.
  - destruct models as [|modelName rest].
    + exists lastError. split; [right; by left|]. by rewrite app_nil_r.
    + destruct (Hskip 0%nat modelName) as (error & Hcall & Hun); [lia|done|].
      rewrite Nat.add_0_r in Hcall.
      rewrite (tryModels_unavailable _ _ _ _ _ _ Hcall Hun).
      destruct (IH rest (Some error) (made ++ [(modelName, prompt)]))
        as (lastError' & Hlast & ->).
      { intros i m Hi Hm. rewrite length_app. cbn [length].
        destruct (Hskip (S i) m) as (e & He & Hune); [lia|done|].
        exists e. split; [|done]. rewrite <- He. f_equal. lia. }
      exists lastError'. split.
      * do 2 right. destruct Hlast as [[_ ->]|[[_ ->]|Hlast]]; [by exists error..|done].
      * cbn [take drop fmap list_fmap]. by rewrite <- app_assoc.
Qed.

End assistant.

Section fallback.

Variable generateContent : service.

Lemma unavailableFirst_models prompt made k :
  unavailableFirst generateContent prompt made k →
  ∀ i modelName, (i < k)%nat → modelsToTry !! i = Some modelName →
    ∃ error, generateContent (length made + i)%nat modelName prompt = Failure error
             ∧ unavailable error = true.
Proof. done. Qed.

Lemma drop_models k modelName :
  modelsToTry !! k = Some modelName →
  ∃ rest, drop k modelsToTry = modelName :: rest.
Proof.
  intros Hk. exists (drop (S k) modelsToTry). by apply drop_S.
Qed.

Lemma callsTo_S prompt k modelName :
  modelsToTry !! k = Some modelName →
  callsTo prompt (S k) = callsTo prompt k ++ [(modelName, prompt)].
Proof.
  intros Hk. unfold callsTo. rewrite (take_S_r _ _ _ Hk). by rewrite fmap_app.
Qed.

Lemma length_callsTo prompt k modelName :
  modelsToTry !! k = Some modelName → length (callsTo prompt k) = k.
Proof.
  intros Hk. unfold callsTo. rewrite length_fmap, length_take.
  apply lookup_lt_Some in Hk. lia.
Qed.

(** The loop up to the model that decides: what the [k]-th model does after
    [k] models that were not to be had. *)
Lemma tryModels_decided prompt made k modelName :
  unavailableFirst generateContent prompt made k →
  modelsToTry !! k = Some modelName →
  ∃ lastError rest,
    tryModels generateContent prompt modelsToTry None made
    = tryModels generateContent prompt (modelName :: rest) lastError
        (made ++ callsTo prompt k)
    ∧ length (made ++ callsTo prompt k) = (length made + k)%nat.
Proof.
  intros Hskip Hk.
  destruct (tryModels_skip generateContent prompt modelsToTry k None made Hskip)
    as (lastError & _ & ->).
  destruct (drop_models k modelName Hk) as (rest & ->).
  exists lastError, rest. split; [done|].
  by rewrite length_app, (length_callsTo _ _ _ Hk).
Qed.

End fallback.

(** X13: the handlers of [researcher.js] and [model-pred.js] answer with the
    text of the first model that is to be had: when the models before it
    fail with errors naming a model and it answers with a text that is not
    empty, the response is 200 with that text, and the models after it are
    not called. *)
Theorem first_available_model_answers (generateContent : service)
    (systemPrompt : string) (query GEMINI_API_KEY : option string)
    (csvRows : list row) (made : calls) (k : nat) (modelName text : string) :
  blankQuery query = false → truthy GEMINI_API_KEY = true →
  modelsToTry !! k = Some modelName → text ≠ "" →
  (let prompt := researcherPrompt systemPrompt (default "" query) csvRows in
   unavailableFirst generateContent prompt made k →
   generateContent (length made + k)%nat modelName prompt = Answer text →
   getResearcherResponse generateContent systemPrompt query GEMINI_API_KEY
     csvRows made
   = (inr {| Response.statusCode := 200; Response.json := Reply text |},
      made ++ callsTo prompt (S k)))
  ∧ (let prompt := predictionPrompt systemPrompt (default "" query) csvRows in
     unavailableFirst generateContent prompt made k →
     generateContent (length made + k)%nat modelName prompt = Answer text →
     getModelPrediction generateContent systemPrompt query GEMINI_API_KEY
       csvRows made
     = (inr {| Response.statusCode := 200; Response.json := Reply text |},
        made ++ callsTo prompt (S k))).
Proof.
  intros Hquery Hkey Hk Htext. split; intros prompt Hskip Hcall.
  - unfold getResearcherResponse, catch. rewrite Hquery, Hkey. cbn [negb].
    destruct (tryModels_decided generateContent prompt made k modelName Hskip Hk)
      as (lastError & rest & Hrun & Hlen).
    fold prompt. rewrite Hrun. rewrite <- Hlen in Hcall.
    rewrite (tryModels_answer _ _ _ _ _ _ _ Hcall Htext).
    by rewrite (callsTo_S _ _ _ Hk), app_assoc.
  - unfold getModelPrediction, catch. rewrite Hquery, Hkey. cbn [negb].
    destruct (tryModels_decided generateContent prompt made k modelName Hskip Hk)
      as (lastError & rest & Hrun & Hlen).
    fold prompt. rewrite Hrun. rewrite <- Hlen in Hcall.
    rewrite (tryModels_answer _ _ _ _ _ _ _ Hcall Htext).
    by rewrite (callsTo_S _ _ _ Hk), app_assoc.
Qed.

Lemma first_available_model_answers_witness :
  getResearcherResponse secondAnswers "Advise." (Some "corner") (Some "key")
    Sample.records []
  = (inr {| Response.statusCode := 200; Response.json := Reply "Shoot." |},
     [] ++ callsTo (researcherPrompt "Advise." "corner" Sample.records) 2).
Proof.
  apply (proj1 (first_available_model_answers secondAnswers "Advise."
                  (Some "corner") (Some "key") Sample.records [] 1
                  "gemini-1.5-pro" "Shoot." ltac:(by vm_compute)
                  ltac:(reflexivity) ltac:(reflexivity) ltac:(discriminate))).
  - intros i modelName Hi _. destruct i; [|lia].
    eexists. split; [reflexivity|by vm_compute].
  - reflexivity.
Defined.

(** X14: an empty answer ends the request in [researcher.js] and
    [model-pred.js]: when the first model that is to be had answers with
    an empty text, the response is 500 with the details "Empty response
    from Gemini API", and the models after it are not called. *)
Theorem empty_answer_ends_request (generateContent : service)
    (systemPrompt : string) (query GEMINI_API_KEY : option string)
    (csvRows : list row) (made : calls) (k : nat) (modelName : string) :
  blankQuery query = false → truthy GEMINI_API_KEY = true →
  modelsToTry !! k = Some modelName →
  (let prompt := researcherPrompt systemPrompt (default "" query) csvRows in
   unavailableFirst generateContent prompt made k →
   generateContent (length made + k)%nat modelName prompt = Answer "" →
   getResearcherResponse generateContent systemPrompt query GEMINI_API_KEY
     csvRows made
   = (inr {| Response.statusCode := 500;
             Response.json :=
               Refusal "Failed to generate response"
                 (Some "Empty response from Gemini API") |},
      made ++ callsTo prompt (S k)))
  ∧ (let prompt := predictionPrompt systemPrompt (default "" query) csvRows in
     unavailableFirst generateContent prompt made k →
     generateContent (length made + k)%nat modelName prompt = Answer "" →
     getModelPrediction generateContent systemPrompt query GEMINI_API_KEY
       csvRows made
     = (inr {| Response.statusCode := 500;
               Response.json :=
                 Refusal "Failed to generate prediction"
                   (Some "Empty response from Gemini API") |},
        made ++ callsTo prompt (S k))).
Proof.
  intros Hquery Hkey Hk. split; intros prompt Hskip Hcall.
  - unfold getResearcherResponse, catch. rewrite Hquery, Hkey. cbn [negb].
    destruct (tryModels_decided generateContent prompt made k modelName Hskip Hk)
      as (lastError & rest & Hrun & Hlen).
    fold prompt. rewrite Hrun. rewrite <- Hlen in Hcall.
    rewrite (tryModels_empty _ _ _ _ _ _ Hcall).
    by rewrite (callsTo_S _ _ _ Hk), app_assoc.
  - unfold getModelPrediction, catch. rewrite Hquery, Hkey. cbn [negb].
    destruct (tryModels_decided generateContent prompt made k modelName Hskip Hk)
      as (lastError & rest & Hrun & Hlen).
    fold prompt. rewrite Hrun. rewrite <- Hlen in Hcall.
    rewrite (tryModels_empty _ _ _ _ _ _ Hcall).
    by rewrite (callsTo_S _ _ _ Hk), app_assoc.
Qed.

Lemma empty_answer_ends_request_witness :
  getModelPrediction (λ _ _ _, Answer "") "Advise." (Some "corner") (Some "key")
    Sample.records []
  = (inr {| Response.statusCode := 500;
            Response.json :=
              Refusal "Failed to generate prediction"
                (Some "Empty response from Gemini API") |},
     [] ++ callsTo (predictionPrompt "Advise." "corner" Sample.records) 1).
Proof.
  apply (proj2 (empty_answer_ends_request (λ _ _ _, Answer "") "Advise."
                  (Some "corner") (Some "key") Sample.records [] 0
                  "gemini-2.0-flash" ltac:(by vm_compute)
                  ltac:(reflexivity) ltac:(reflexivity))).
  - intros i modelName Hi _. lia.
  - reflexivity.
Defined.

(** X15: an error that does not name a model ends the request in
    [researcher.js] and [model-pred.js]: the models after the failing one
    are not called; the researcher answers 500 and passes the message of
    the error on as the details, the model prediction answers by the kind
    of the error. *)
Theorem other_error_ends_request (generateContent : service)
    (systemPrompt : string) (query GEMINI_API_KEY : option string)
    (csvRows : list row) (made : calls) (k : nat) (modelName : string)
    (error : Error.t) :
  blankQuery query = false → truthy GEMINI_API_KEY = true →
  modelsToTry !! k = Some modelName → unavailable error = false →
  (let prompt := researcherPrompt systemPrompt (default "" query) csvRows in
   unavailableFirst generateContent prompt made k →
   generateContent (length made + k)%nat modelName prompt = Failure error →
   getResearcherResponse generateContent systemPrompt query GEMINI_API_KEY
     csvRows made
   = (inr {| Response.statusCode := 500;
             Response.json :=
               Refusal "Failed to generate response"
                 (Some (orElse (Error.message error) "Unknown error occurred")) |},
      made ++ callsTo prompt (S k)))
  ∧ (let prompt := predictionPrompt systemPrompt (default "" query) csvRows in
     unavailableFirst generateContent prompt made k →
     generateContent (length made + k)%nat modelName prompt = Failure error →
     getModelPrediction generateContent systemPrompt query GEMINI_API_KEY
       csvRows made
     = (inr (answerTo error), made ++ callsTo prompt (S k))).
Proof.
  intros Hquery Hkey Hk Hun. split; intros prompt Hskip Hcall.
  - unfold getResearcherResponse, catch. rewrite Hquery, Hkey. cbn [negb].
    destruct (tryModels_decided generateContent prompt made k modelName Hskip Hk)
      as (lastError & rest & Hrun & Hlen).
    fold prompt. rewrite Hrun. rewrite <- Hlen in Hcall.
    rewrite (tryModels_fatal _ _ _ _ _ _ _ Hcall Hun).
    by rewrite (callsTo_S _ _ _ Hk), app_assoc.
  - unfold getModelPrediction, catch. rewrite Hquery, Hkey. cbn [negb].
    destruct (tryModels_decided generateContent prompt made k modelName Hskip Hk)
      as (lastError & rest & Hrun & Hlen).
    fold prompt. rewrite Hrun. rewrite <- Hlen in Hcall.
    rewrite (tryModels_fatal _ _ _ _ _ _ _ Hcall Hun).
    by rewrite (callsTo_S _ _ _ Hk), app_assoc.
Qed.

Lemma other_error_ends_request_witness :
  getResearcherResponse (λ _ _ _, Failure (Error "fetch failed")) "Advise."
    (Some "corner") (Some "key") Sample.records []
  = (inr {| Response.statusCode := 500;
            Response.json :=
              Refusal "Failed to generate response" (Some "fetch failed") |},
     [] ++ callsTo (researcherPrompt "Advise." "corner" Sample.records) 1).
Proof.
  apply (proj1 (other_error_ends_request (λ _ _ _, Failure (Error "fetch failed"))
                  "Advise." (Some "corner") (Some "key") Sample.records [] 0
                  "gemini-2.0-flash" (Error "fetch failed")
                  ltac:(by vm_compute) ltac:(reflexivity) ltac:(reflexivity)
                  ltac:(by vm_compute))).
  - intros i modelName Hi _. lia.
  - reflexivity.
Defined.

(** The answers of [model-pred.js] to an error. *)
Lemma answerTo_status (error : Error.t) :
  Response.statusCode (answerTo error) ∈ [500; 429; 403]
  ∧ ∃ title details, Response.json (answerTo error) = Refusal title (Some details).
Proof.
  unfold answerTo.
  repeat (match goal with
          | |- context [if ?b then _ else _] => destruct b
          end;
          [cbn [Response.statusCode Response.json]; split;
           [set_solver|by eexists _, _]|]).
  cbn [Response.statusCode Response.json]. split; [set_solver|by eexists _, _].
Qed.

Lemma answerTo_unavailable (error : Error.t) :
  unavailable error = true →
  ∃ title details,
    Response.json (answerTo error) = Refusal title (Some details)
    ∧ (title ∈ ["Gemini API key error"; "Model error"]
       ∧ Response.statusCode (answerTo error) = 500
       ∨ title ∈ ["Gemini Quota Exceeded"; "Rate Limit Exceeded"]
         ∧ Response.statusCode (answerTo error) = 429).
Proof.
  unfold unavailable, answerTo. cbn zeta.
  set (errorMsg := toLowerCase (orElse (Error.message error) "")).
  intros Hun.
  destruct (includes errorMsg "api key" || includes errorMsg "invalid api key"
            || includes errorMsg "authentication");
    [cbn [Response.statusCode Response.json]; eexists _, _; split;
     [reflexivity|left; split; [set_solver|done]]|].
  destruct (includes errorMsg "quota" || includes errorMsg "exceeded");
    [cbn [Response.statusCode Response.json]; eexists _, _; split;
     [reflexivity|right; split; [set_solver|done]]|].
  destruct (includes errorMsg "rate limit" || includes errorMsg "429"
            || bool_decide (Error.status error = Some 429));
    [cbn [Response.statusCode Response.json]; eexists _, _; split;
     [reflexivity|right; split; [set_solver|done]]|].
  assert (includes errorMsg "model" || includes errorMsg "not found"
          || includes errorMsg "not available" || includes errorMsg "404" = true)
    as ->.
  { destruct (includes errorMsg "not found"), (includes errorMsg "404"),
      (includes errorMsg "model"); simpl in *; try done;
      by rewrite ?orb_true_r. }
  cbn [Response.statusCode Response.json]. eexists _, _. split; [reflexivity|].
  left. split; [set_solver|done].
Qed.

(** X16: when none of the four models is to be had, each failing with an
    error that names a model, both handlers have called all four, in the
    order of the list, and answer from the error of the last one: the
    researcher with 500 and its message, the model prediction with "Model
    error" and 500, unless the message also speaks of an API key (500), a
    quota or a rate limit (429). *)
Theorem all_models_unavailable (generateContent : service)
    (systemPrompt : string) (query GEMINI_API_KEY : option string)
    (csvRows : list row) (made : calls) :
  blankQuery query = false → truthy GEMINI_API_KEY = true →
  (let prompt := researcherPrompt systemPrompt (default "" query) csvRows in
   unavailableFirst generateContent prompt made 4 →
   ∃ error,
     generateContent (length made + 3)%nat "gemini-1.0-pro" prompt = Failure error
     ∧ getResearcherResponse generateContent systemPrompt query GEMINI_API_KEY
         csvRows made
       = (inr {| Response.statusCode := 500;
                 Response.json :=
                   Refusal "Failed to generate response"
                     (Some (orElse (Error.message error) "Unknown error occurred")) |},
          made ++ callsTo prompt 4))
  ∧ (let prompt := predictionPrompt systemPrompt (default "" query) csvRows in
     unavailableFirst generateContent prompt made 4 →
     ∃ error title details,
       generateContent (length made + 3)%nat "gemini-1.0-pro" prompt = Failure error
       ∧ getModelPrediction generateContent systemPrompt query GEMINI_API_KEY
           csvRows made
         = (inr (answerTo error), made ++ callsTo prompt 4)
       ∧ Response.json (answerTo error) = Refusal title (Some details)
       ∧ (title ∈ ["Gemini API key error"; "Model error"]
          ∧ Response.statusCode (answerTo error) = 500
          ∨ title ∈ ["Gemini Quota Exceeded"; "Rate Limit Exceeded"]
            ∧ Response.statusCode (answerTo error) = 429)).
Proof.
  intros Hquery Hkey.
  assert (∀ prompt,
            unavailableFirst generateContent prompt made 4 →
            ∃ error,
              generateContent (length made + 3)%nat "gemini-1.0-pro" prompt
              = Failure error
              ∧ unavailable error = true
              ∧ tryModels generateContent prompt modelsToTry None made
                = (inl error, made ++ callsTo prompt 4)) as Hloop.
  { intros prompt Hskip.
    destruct (Hskip 0%nat "gemini-2.0-flash") as (e0 & H0 & Hun0); [lia|done|].
    destruct (Hskip 1%nat "gemini-1.5-pro") as (e1 & H1 & Hun1); [lia|done|].
    destruct (Hskip 2%nat "gemini-pro") as (e2 & H2 & Hun2); [lia|done|].
    destruct (Hskip 3%nat "gemini-1.0-pro") as (e3 & H3 & Hun3); [lia|done|].
    exists e3. split; [done|]. split; [done|].
    unfold modelsToTry.
    rewrite Nat.add_0_r in H0.
    rewrite (tryModels_unavailable _ _ _ _ _ _ _ H0 Hun0).
    rewrite (tryModels_unavailable _ _ _ _ _ _ e1); [|by rewrite length_app|done].
    rewrite (tryModels_unavailable _ _ _ _ _ _ e2);
      [|rewrite !length_app; cbn [length]; by rewrite <- Nat.add_assoc|done].
    rewrite (tryModels_unavailable _ _ _ _ _ _ e3);
      [|rewrite !length_app; cbn [length]; by rewrite <- !Nat.add_assoc|done].
    cbn [tryModels default]. unfold throw, callsTo.
    by rewrite <- !app_assoc. }
  split; intros prompt Hskip.
  - destruct (Hloop prompt Hskip) as (error & Hcall & Hun & Hrun).
    exists error. split; [done|].
    unfold getResearcherResponse, catch. rewrite Hquery, Hkey. cbn [negb].
    fold prompt. by rewrite Hrun.
  - destruct (Hloop prompt Hskip) as (error & Hcall & Hun & Hrun).
    destruct (answerTo_unavailable error Hun) as (title & details & Hjson & Hkind).
    exists error, title, details. split; [done|]. split; [|done].
    unfold getModelPrediction, catch. rewrite Hquery, Hkey. cbn [negb].
    fold prompt. by rewrite Hrun.
Qed.

Lemma all_models_unavailable_witness :
  ∃ error,
    getResearcherResponse (λ _ _ _, Failure (Error "model is overloaded"))
      "Advise." (Some "corner") (Some "key") Sample.records []
    = (inr {| Response.statusCode := 500;
              Response.json :=
                Refusal "Failed to generate response"
                  (Some (orElse (Error.message error) "Unknown error occurred")) |},
       [] ++ callsTo (researcherPrompt "Advise." "corner" Sample.records) 4).
Proof.
  destruct (proj1 (all_models_unavailable
                     (λ _ _ _, Failure (Error "model is overloaded")) "Advise."
                     (Some "corner") (Some "key") Sample.records []
                     ltac:(by vm_compute) ltac:(reflexivity)))
    as (error & _ & Hresponse).
  - intros i modelName _ _. eexists. split; [reflexivity|by vm_compute].
  - by exists error.
Defined.

(** What the loop over the models comes to, whatever the service does: it
    calls the models in order up to some model, and either returns a text
    that is not empty with 200 or throws. *)
Lemma tryModels_outcome (generateContent : service) prompt models lastError made :
  ∃ k result,
    (k ≤ length models)%nat
    ∧ tryModels generateContent prompt models lastError made
      = (result, made ++ ((λ modelName, (modelName, prompt)) <$> take k models))
    ∧ match result with
      | inr response =>
          (0 < k)%nat
          ∧ ∃ text, text ≠ ""
                    ∧ response = {| Response.statusCode := 200;
                                    Response.json := Reply text |}
      | inl _ => True
      end.
Proof.
  revert lastError made.
  induction models as [|modelName rest IH]; intros lastError made.
  - exists 0%nat, (inl (default (Error "All model attempts failed. Please check your API key has access to Gemini models.") lastError)).
    split; [done|]. split; [|done]. cbn [tryModels]. unfold throw.
    by rewrite app_nil_r.
  - destruct (generateContent (length made) modelName prompt)
      as [text|error] eqn:Hcall.
    + destruct (decide (text = "")) as [->|Htext].
      * exists 1%nat, (inl (Error "Empty response from Gemini API")).
        split; [cbn [length]; lia|]. split; [|done].
        by rewrite (tryModels_empty _ _ _ _ _ _ Hcall).
      * exists 1%nat, (inr {| Response.statusCode := 200;
                              Response.json := Reply text |}).
        split; [cbn [length]; lia|]. split.
        -- by rewrite (tryModels_answer _ _ _ _ _ _ _ Hcall Htext).
        -- split; [lia|by exists text].
    + destruct (unavailable error) eqn:Hun.
      * destruct (IH (Some error) (made ++ [(modelName, prompt)]))
          as (k & result & Hk & Hrun & Hresult).
        exists (S k), result. split; [cbn [length]; lia|]. split.
        -- rewrite (tryModels_unavailable _ _ _ _ _ _ _ Hcall Hun), Hrun.
           cbn [take fmap list_fmap]. by rewrite <- app_assoc.
        -- destruct result as [|response]; [done|].
           destruct Hresult as [_ Htext]. split; [lia|done].
      * exists 1%nat, (inl error). split; [cbn [length]; lia|]. split; [|done].
        by rewrite (tryModels_fatal _ _ _ _ _ _ _ Hcall Hun).
Qed.

(** X17: whatever the service does, the handlers of [researcher.js] and
    [model-pred.js] answer: with 200 and a text that is not empty, with 400
    exactly when the query is missing or blank, or else with 500 (the model
    prediction also with 403 or 429). They call at most the four models,
    in order and with one prompt, and none at all when the query is blank
    or the API key is not set. *)
Theorem assistants_always_answer (generateContent : service)
    (systemPrompt : string) (query GEMINI_API_KEY : option string)
    (csvRows : list row) (made : calls) :
  (∃ response k,
     getResearcherResponse generateContent systemPrompt query GEMINI_API_KEY
       csvRows made
     = (inr response,
        made ++ callsTo (researcherPrompt systemPrompt (default "" query) csvRows) k)
     ∧ (k ≤ 4)%nat
     ∧ Response.statusCode response ∈ [200; 400; 500]
     ∧ (Response.statusCode response = 400 ↔ blankQuery query = true)
     ∧ (blankQuery query = true ∨ truthy GEMINI_API_KEY = false → k = 0%nat)
     ∧ (Response.statusCode response = 200
        ↔ ∃ text, text ≠ "" ∧ Response.json response = Reply text))
  ∧ (∃ response k,
       getModelPrediction generateContent systemPrompt query GEMINI_API_KEY
         csvRows made
       = (inr response,
          made ++ callsTo (predictionPrompt systemPrompt (default "" query) csvRows) k)
       ∧ (k ≤ 4)%nat
       ∧ Response.statusCode response ∈ [200; 400; 403; 429; 500]
       ∧ (Response.statusCode response = 400 ↔ blankQuery query = true)
       ∧ (blankQuery query = true ∨ truthy GEMINI_API_KEY = false → k = 0%nat)
       ∧ (Response.statusCode response = 200
          ↔ ∃ text, text ≠ "" ∧ Response.json response = Reply text)).
Proof.
  split.
  - unfold getResearcherResponse, catch.
    destruct (blankQuery query) eqn:Hquery.
    { eexists _, 0%nat. split; [by rewrite app_nil_r|].
      cbn [Response.statusCode Response.json].
      split_and!; [lia|set_solver|done|done|].
      split; [done|]. by intros (text & _ & ?). }
    destruct (truthy GEMINI_API_KEY) eqn:Hkey; cbn [negb].
    2:{ eexists _, 0%nat. split; [by rewrite app_nil_r|].
        cbn [Response.statusCode Response.json].
        split_and!; [lia|set_solver|done|done|].
        split; [done|]. by intros (text & _ & ?). }
    destruct (tryModels_outcome generateContent
                (researcherPrompt systemPrompt (default "" query) csvRows)
                modelsToTry None made) as (k & result & Hk & -> & Hresult).
    destruct result as [error|response].
    + eexists _, k. split; [done|].
      cbn [Response.statusCode Response.json].
      split_and!; [done|set_solver|done|intros [?|?]; done|].
      split; [done|]. by intros (text & _ & ?).
    + destruct Hresult as [_ (text & Htext & ->)].
      eexists _, k. split; [done|].
      cbn [Response.statusCode Response.json].
      split_and!; [done|set_solver|done|intros [?|?]; done|].
      split; [by exists text|done].
  - unfold getModelPrediction, catch.
    destruct (blankQuery query) eqn:Hquery.
    { eexists _, 0%nat. split; [by rewrite app_nil_r|].
      cbn [Response.statusCode Response.json].
      split_and!; [lia|set_solver|done|done|].
      split; [done|]. by intros (text & _ & ?). }
    destruct (truthy GEMINI_API_KEY) eqn:Hkey; cbn [negb].
    2:{ eexists _, 0%nat. split; [by rewrite app_nil_r|].
        cbn [Response.statusCode Response.json].
        split_and!; [lia|set_solver|done|done|].
        split; [done|]. by intros (text & _ & ?). }
    destruct (tryModels_outcome generateContent
                (predictionPrompt systemPrompt (default "" query) csvRows)
                modelsToTry None made) as (k & result & Hk & -> & Hresult).
    destruct result as [error|response].
    + destruct (answerTo_status error) as [Hstatus (title & details & Hjson)].
      eexists _, k. split; [done|].
      split_and!; [done| | |intros [?|?]; done|].
      * rewrite !elem_of_cons, elem_of_nil in Hstatus. rewrite !elem_of_cons. lia.
      * split; [|done]. rewrite !elem_of_cons, elem_of_nil in Hstatus. lia.
      * rewrite Hjson. split; [|by intros (text & _ & ?)].
        rewrite !elem_of_cons, elem_of_nil in Hstatus. lia.
    + destruct Hresult as [_ (text & Htext & ->)].
      eexists _, k. split; [done|].
      cbn [Response.statusCode Response.json].
      split_and!; [done|set_solver|done|intros [?|?]; done|].
      split; [by exists text|done].
Qed.

(** *** The conclusion *)

Section conclusion.

Variable generateContent : service.

Lemma tryGenerateFrom_answer prompt modelName rest lastError made text :
  generateContent (length made) modelName prompt = Answer text →
  text ≠ "" →
  tryGenerateFrom generateContent prompt (modelName :: rest) lastError made
  = (inr (modelName, text), made ++ [(modelName, prompt)]).
Proof.
  intros Hcall Htext. cbn [tryGenerateFrom].
  unfold mbind, run_bind, catch, generate.
  rewrite Hcall. destruct text; [done|]. reflexivity.
Qed.

Lemma tryGenerateFrom_empty prompt modelName rest lastError made :
  generateContent (length made) modelName prompt = Answer "" →
  tryGenerateFrom generateContent prompt (modelName :: rest) lastError made
  = tryGenerateFrom generateContent prompt rest lastError
      (made ++ [(modelName, prompt)]).
Proof.
  intros Hcall. cbn [tryGenerateFrom].
  unfold mbind, run_bind, catch, generate.
  rewrite Hcall. reflexivity.
Qed.

Lemma tryGenerateFrom_unavailable prompt modelName rest lastError made error :
  generateContent (length made) modelName prompt = Failure error →
  unavailable error = true →
  tryGenerateFrom generateContent prompt (modelName :: rest) lastError made
  = tryGenerateFrom generateContent prompt rest (Some error)
      (made ++ [(modelName, prompt)]).
Proof.
  intros Hcall Hun. cbn [tryGenerateFrom].
  unfold mbind, run_bind, catch, generate.
  rewrite Hcall. cbn. by rewrite Hun.
Qed.

Lemma tryGenerateFrom_fatal prompt modelName rest lastError made error :
  generateContent (length made) modelName prompt = Failure error →
  unavailable error = false →
  tryGenerateFrom generateContent prompt (modelName :: rest) lastError made
  = (inl error, made ++ [(modelName, prompt)]).
Proof.
  intros Hcall Hun. cbn [tryGenerateFrom].
  unfold mbind, run_bind, catch, generate.
  rewrite Hcall. cbn. by rewrite Hun.
Qed.

Lemma tryGenerateFrom_outcome prompt models lastError made :
  ∃ k result,
    (k ≤ length models)%nat
    ∧ tryGenerateFrom generateContent prompt models lastError made
      = (result, made ++ ((λ modelName, (modelName, prompt)) <$> take k models))
    ∧ match result with
      | inr found => (0 < k)%nat ∧ found.2 ≠ ""
      | inl _ => True
      end.
Proof.
  revert lastError made.
  induction models as [|modelName rest IH]; intros lastError made.
  - exists 0%nat, (inl (default (Error "All model attempts failed") lastError)).
    split; [done|]. split; [|done]. cbn [tryGenerateFrom]. unfold throw.
    by rewrite app_nil_r.
  - destruct (generateContent (length made) modelName prompt)
      as [text|error] eqn:Hcall.
    + destruct (decide (text = "")) as [->|Htext].
      * destruct (IH lastError (made ++ [(modelName, prompt)]))
          as (k & result & Hk & Hrun & Hresult).
        exists (S k), result. split; [cbn [length]; lia|]. split.
        -- rewrite (tryGenerateFrom_empty _ _ _ _ _ Hcall), Hrun.
           cbn [take fmap list_fmap]. by rewrite <- app_assoc.
        -- destruct result as [|found]; [done|].
           destruct Hresult as [_ Htext]. split; [lia|done].
      * exists 1%nat, (inr (modelName, text)).
        split; [cbn [length]; lia|]. split.
        -- by rewrite (tryGenerateFrom_answer _ _ _ _ _ _ Hcall Htext).
        -- split; [lia|done].
    + destruct (unavailable error) eqn:Hun.
      * destruct (IH (Some error) (made ++ [(modelName, prompt)]))
          as (k & result & Hk & Hrun & Hresult).
        exists (S k), result. split; [cbn [length]; lia|]. split.
        -- rewrite (tryGenerateFrom_unavailable _ _ _ _ _ _ Hcall Hun), Hrun.
           cbn [take fmap list_fmap]. by rewrite <- app_assoc.
        -- destruct result as [|found]; [done|].
           destruct Hresult as [_ Htext]. split; [lia|done].
      * exists 1%nat, (inl error). split; [cbn [length]; lia|]. split; [|done].
        by rewrite (tryGenerateFrom_fatal _ _ _ _ _ _ Hcall Hun).
Qed.

Lemma tryGenerate_outcome prompt made :
  ∃ k result,
    (k ≤ 4)%nat
    ∧ tryGenerate generateContent prompt made = (result, made ++ callsTo prompt k)
    ∧ match result with
      | inr found => (0 < k)%nat ∧ found.2 ≠ ""
      | inl _ => True
      end.
Proof. apply (tryGenerateFrom_outcome prompt modelsToTry None made). Qed.

Lemma conclude_outcome researcherText modelText made :
  ∃ k result,
    (k ≤ 4)%nat
    ∧ conclude generateContent researcherText modelText made
      = (result, made ++ callsTo (synthPrompt researcherText modelText) k)
    ∧ match result with
      | inr response =>
          ∃ text, text ≠ ""
                  ∧ response
                    = {| Response.statusCode := 200;
                         Response.json := Conclusion text researcherText modelText |}
      | inl _ => True
      end.
Proof.
  destruct (tryGenerate_outcome (synthPrompt researcherText modelText) made)
    as (k & result & Hk & Hrun & Hresult).
  unfold conclude, mbind, run_bind. rewrite Hrun.
  destruct result as [error|found].
  - by exists k, (inl error).
  - exists k, (inr {| Response.statusCode := 200;
                      Response.json := Conclusion found.2 researcherText modelText |}).
    split; [done|]. split; [done|]. exists found.2. by destruct Hresult.
Qed.

(** The loop of [tryGenerate] passes over the models that are not to be
    had or answer with an empty text. *)
Lemma tryGenerateFrom_skip prompt models k lastError made :
  (∀ i modelName, (i < k)%nat → models !! i = Some modelName →
     generateContent (length made + i)%nat modelName prompt = Answer ""
     ∨ ∃ error, generateContent (length made + i)%nat modelName prompt = Failure error
                ∧ unavailable error = true) →
  ∃ lastError',
    tryGenerateFrom generateContent prompt models lastError made
    = tryGenerateFrom generateContent prompt (drop k models) lastError'
        (made ++ ((λ modelName, (modelName, prompt)) <$> take k models)).
Proof.
  revert models lastError made.
  induction k as [|k IH]; intros models lastError made Hskip.
  - exists lastError. by rewrite take_0, drop_0, app_nil_r.
  - destruct models as [|modelName rest].
    + exists lastError. by rewrite app_nil_r.
    + assert (∀ i m, (i < k)%nat → rest !! i = Some m →
                generateContent (length (made ++ [(modelName, prompt)]) + i)%nat m prompt
                = Answer ""
                ∨ ∃ e, generateContent
                         (length (made ++ [(modelName, prompt)]) + i)%nat m prompt
                       = Failure e ∧ unavailable e = true) as Hrest.
      { intros i m Hi Hm. rewrite length_app. cbn [length].
        replace (length made + 1 + i)%nat with (length made + S i)%nat by lia.
        apply Hskip; [lia|done]. }
      destruct (Hskip 0%nat modelName) as [Hcall|(error & Hcall & Hun)];
        [lia|done| |]; rewrite Nat.add_0_r in Hcall.
      * rewrite (tryGenerateFrom_empty _ _ _ _ _ Hcall).
        destruct (IH rest lastError _ Hrest) as (lastError' & ->).
        exists lastError'. cbn [take drop fmap list_fmap]. by rewrite <- app_assoc.
      * rewrite (tryGenerateFrom_unavailable _ _ _ _ _ _ Hcall Hun).
        destruct (IH rest (Some error) _ Hrest) as (lastError' & ->).
        exists lastError'. cbn [take drop fmap list_fmap]. by rewrite <- app_assoc.
Qed.

End conclusion.

(** X18: when both analyses come with the request, [getConclusion] only
    asks for the synthesis: it calls at most the four models, each with the
    prompt made of the two analyses, answers 200 with a text that is not
    empty and the two analyses as given, or 500; and neither the query nor
    the data rows nor the system prompts have any part in it. *)
Theorem conclusion_from_given_analyses (generateContent : service)
    (researcherSystemPrompt modelSystemPrompt : string)
    (query providedResearcher providedModel GEMINI_API_KEY : option string)
    (csvRows : list row) (made : calls) :
  truthy providedResearcher = true → truthy providedModel = true →
  truthy GEMINI_API_KEY = true →
  (∃ response k,
     getConclusion generateContent researcherSystemPrompt modelSystemPrompt
       query providedResearcher providedModel GEMINI_API_KEY csvRows made
     = (inr response,
        made ++ callsTo (synthPrompt providedResearcher providedModel) k)
     ∧ (k ≤ 4)%nat
     ∧ Response.statusCode response ∈ [200; 500]
     ∧ (Response.statusCode response = 200
        ↔ ∃ text, text ≠ ""
                  ∧ Response.json response
                    = Conclusion text providedResearcher providedModel))
  ∧ ∀ researcherSystemPrompt' modelSystemPrompt' query' csvRows',
      getConclusion generateContent researcherSystemPrompt' modelSystemPrompt'
        query' providedResearcher providedModel GEMINI_API_KEY csvRows' made
      = getConclusion generateContent researcherSystemPrompt modelSystemPrompt
          query providedResearcher providedModel GEMINI_API_KEY csvRows made.
Proof.
  intros HR HM Hkey.
  assert (∀ rsp msp q rows,
            getConclusion generateContent rsp msp q providedResearcher
              providedModel GEMINI_API_KEY rows made
            = catch (conclude generateContent providedResearcher providedModel)
                (λ error,
                   mret {| Response.statusCode := 500;
                           Response.json :=
                             Refusal "Failed to generate conclusion"
                               (Some (orElse (Error.message error) "Unknown error")) |})
                made) as Hrun.
  { intros rsp msp q rows. unfold getConclusion, catch, orNothing.
    rewrite HR, HM, Hkey. cbn [negb andb orb]. by rewrite HR, HM. }
  split; [|intros; by rewrite !Hrun].
  rewrite Hrun. unfold catch.
  destruct (conclude_outcome generateContent providedResearcher providedModel made)
    as (k & result & Hk & -> & Hresult).
  destruct result as [error|response].
  - eexists _, k. split; [done|]. cbn [Response.statusCode Response.json].
    split_and!; [done|rewrite !elem_of_cons; lia|].
    split; [done|]. by intros (text & _ & ?).
  - destruct Hresult as (text & Htext & ->).
    eexists _, k. split; [done|]. cbn [Response.statusCode Response.json].
    split_and!; [done|rewrite !elem_of_cons; lia|].
    split; [by exists text|done].
Qed.

Lemma conclusion_from_given_analyses_witness :
  getConclusion secondAnswers "Analyst." "Model." None (Some "Risky.")
    (Some "0.12 xG") (Some "key") [] []
  = getConclusion secondAnswers "Analyst." "Model." (Some "corner")
      (Some "Risky.") (Some "0.12 xG") (Some "key") Sample.records [].
Proof.
  apply (proj2 (conclusion_from_given_analyses secondAnswers "Analyst." "Model."
                  (Some "corner") (Some "Risky.") (Some "0.12 xG") (Some "key")
                  Sample.records [] ltac:(reflexivity) ltac:(reflexivity)
                  ltac:(reflexivity))).
Defined.

Lemma truthy_text (v : option string) :
  truthy v = true → ∃ text, v = Some text ∧ text ≠ "".
Proof. destruct v as [[|c s]|]; try done. intros _. by eexists. Qed.

Lemma length_callsTo_le prompt k : (length (callsTo prompt k) ≤ k)%nat.
Proof. unfold callsTo. rewrite length_fmap, length_take. lia. Qed.

(** X19: [getConclusion] always answers, with 200, 400 or 500, after at most
    twelve calls of the service. It answers 400, without any call, exactly
    when the query is missing or blank and either both analyses are missing
    or, the API key being set, one of them is. With 200 come a synthesis
    and two analyses, none of them empty, and an analysis that came with
    the request is returned as it came. *)
Theorem conclusion_always_answers (generateContent : service)
    (researcherSystemPrompt modelSystemPrompt : string)
    (query providedResearcher providedModel GEMINI_API_KEY : option string)
    (csvRows : list row) (made : calls) :
  ∃ response extra,
    getConclusion generateContent researcherSystemPrompt modelSystemPrompt
      query providedResearcher providedModel GEMINI_API_KEY csvRows made
    = (inr response, made ++ extra)
    ∧ (length extra ≤ 12)%nat
    ∧ Response.statusCode response ∈ [200; 400; 500]
    ∧ (Response.statusCode response = 400
       ↔ blankQuery query = true
         ∧ (truthy providedResearcher = false ∧ truthy providedModel = false
            ∨ truthy GEMINI_API_KEY = true
              ∧ (truthy providedResearcher = false
                 ∨ truthy providedModel = false)))
    ∧ (Response.statusCode response = 400 ∨ truthy GEMINI_API_KEY = false →
       extra = [])
    ∧ (Response.statusCode response = 200 →
       ∃ text researcher model,
         Response.json response = Conclusion text (Some researcher) (Some model)
         ∧ text ≠ "" ∧ researcher ≠ "" ∧ model ≠ ""
         ∧ (truthy providedResearcher = true → providedResearcher = Some researcher)
         ∧ (truthy providedModel = true → providedModel = Some model)).
Proof.
  unfold getConclusion, catch.
  destruct (truthy GEMINI_API_KEY) eqn:Hkey.
  2:{ (* no key: 400 when nothing usable came, else 500 *)
      destruct (negb (truthy providedResearcher) && negb (truthy providedModel)
                && blankQuery query) eqn:Hfirst; cbn [negb].
      - eexists _, []. split; [by rewrite app_nil_r|].
        cbn [Response.statusCode Response.json length].
        apply andb_true_iff in Hfirst as [Hfirst Hq].
        apply andb_true_iff in Hfirst as [HR HM].
        apply negb_true_iff in HR, HM.
        split_and!; [lia|rewrite !elem_of_cons; lia| |done|done].
        split; [intros _; split; [done|by left]|done].
      - eexists _, []. split; [by rewrite app_nil_r|].
        cbn [Response.statusCode Response.json length].
        split_and!; [lia|rewrite !elem_of_cons; lia| |done|done].
        split; [done|]. intros [Hq [[HR HM]|[? _]]]; [|done].
        by rewrite HR, HM, Hq in Hfirst. }
  destruct (truthy providedResearcher) eqn:HR;
    destruct (truthy providedModel) eqn:HM;
    unfold orNothing; rewrite ?HR, ?HM; cbn [negb andb orb truthy].
  - (* both analyses given *)
    rewrite ?HR, ?HM; cbn [negb orb]. unfold mret, run_ret.
    destruct (conclude_outcome generateContent providedResearcher providedModel made)
      as (k & result & Hk & -> & Hresult).
    pose proof (length_callsTo_le (synthPrompt providedResearcher providedModel) k).
    destruct (truthy_text _ HR) as (researcher & HR' & ?).
    destruct (truthy_text _ HM) as (model & HM' & ?).
    destruct result as [error|response].
    + eexists _, _. split; [done|].
      cbn [Response.statusCode Response.json].
      split_and!; [lia|rewrite !elem_of_cons; lia| |intros [?|?]; done|done].
      split; [done|]. intros [_ [[? _]|[_ [?|?]]]]; done.
    + destruct Hresult as (text & Htext & ->).
      eexists _, _. split; [done|].
      cbn [Response.statusCode Response.json].
      split_and!; [lia|rewrite !elem_of_cons; lia| |intros [?|?]; done|].
      * split; [done|]. intros [_ [[? _]|[_ [?|?]]]]; done.
      * intros _. exists text, researcher, model. by rewrite HR', HM'.
  - (* the analysis of the model is to be generated *)
    rewrite ?HR; cbn [negb orb].
    destruct (blankQuery query) eqn:Hq.
    { eexists _, []. split; [by rewrite app_nil_r|].
      cbn [Response.statusCode Response.json length].
      split_and!; [lia|rewrite !elem_of_cons; lia| |done|done].
      split; [|done]. intros _. split; [done|]. right. split; [done|by right]. }
    unfold mbind, run_bind, mret, run_ret.
    match goal with
    | |- context [tryGenerate generateContent ?p made] =>
        set (modelPrompt := p);
        destruct (tryGenerate_outcome generateContent modelPrompt made)
          as (k2 & result2 & Hk2 & -> & Hresult2)
    end.
    pose proof (length_callsTo_le modelPrompt k2).
    destruct (truthy_text _ HR) as (researcher & HR' & ?).
    destruct result2 as [error|found2].
    { eexists _, _. split; [done|].
      cbn [Response.statusCode Response.json].
      split_and!; [lia|rewrite !elem_of_cons; lia| |intros [?|?]; done|done].
      split; [done|]. by intros [? _]. }
    destruct Hresult2 as [_ Hfound2].
    destruct (conclude_outcome generateContent providedResearcher
                (Some found2.2) (made ++ callsTo modelPrompt k2))
      as (k & result & Hk & -> & Hresult).
    pose proof (length_callsTo_le
                  (synthPrompt providedResearcher (Some found2.2)) k).
    destruct result as [error|response].
    + eexists _, _. split; [by rewrite <- app_assoc|].
      cbn [Response.statusCode Response.json]. rewrite length_app.
      split_and!; [lia|rewrite !elem_of_cons; lia| |intros [?|?]; done|done].
      split; [done|]. by intros [? _].
    + destruct Hresult as (text & Htext & ->).
      eexists _, _. split; [by rewrite <- app_assoc|].
      cbn [Response.statusCode Response.json]. rewrite length_app.
      split_and!; [lia|rewrite !elem_of_cons; lia| |intros [?|?]; done|].
      * split; [done|]. by intros [? _].
      * intros _. exists text, researcher, found2.2. by rewrite HR'.
  - (* the analysis of the researcher is to be generated *)
    rewrite ?HM; cbn [negb orb].
    destruct (blankQuery query) eqn:Hq.
    { eexists _, []. split; [by rewrite app_nil_r|].
      cbn [Response.statusCode Response.json length].
      split_and!; [lia|rewrite !elem_of_cons; lia| |done|done].
      split; [|done]. intros _. split; [done|]. right. split; [done|by left]. }
    unfold mbind, run_bind, mret, run_ret.
    match goal with
    | |- context [tryGenerate generateContent ?p made] =>
        set (researcherPrompt := p);
        destruct (tryGenerate_outcome generateContent researcherPrompt made)
          as (k1 & result1 & Hk1 & -> & Hresult1)
    end.
    pose proof (length_callsTo_le researcherPrompt k1).
    destruct (truthy_text _ HM) as (model & HM' & ?).
    destruct result1 as [error|found1].
    { eexists _, _. split; [done|].
      cbn [Response.statusCode Response.json].
      split_and!; [lia|rewrite !elem_of_cons; lia| |intros [?|?]; done|done].
      split; [done|]. by intros [? _]. }
    destruct Hresult1 as [_ Hfound1].
    destruct (conclude_outcome generateContent (Some found1.2) providedModel
                (made ++ callsTo researcherPrompt k1))
      as (k & result & Hk & -> & Hresult).
    pose proof (length_callsTo_le
                  (synthPrompt (Some found1.2) providedModel) k).
    destruct result as [error|response].
    + eexists _, _. split; [by rewrite <- app_assoc|].
      cbn [Response.statusCode Response.json]. rewrite length_app.
      split_and!; [lia|rewrite !elem_of_cons; lia| |intros [?|?]; done|done].
      split; [done|]. by intros [? _].
    + destruct Hresult as (text & Htext & ->).
      eexists _, _. split; [by rewrite <- app_assoc|].
      cbn [Response.statusCode Response.json]. rewrite length_app.
      split_and!; [lia|rewrite !elem_of_cons; lia| |intros [?|?]; done|].
      * split; [done|]. by intros [? _].
      * intros _. exists text, found1.2, model. by rewrite HM'.
  - (* both analyses are to be generated *)
    destruct (blankQuery query) eqn:Hq.
    { eexists _, []. split; [by rewrite app_nil_r|].
      cbn [Response.statusCode Response.json length].
      split_and!; [lia|rewrite !elem_of_cons; lia| |done|done].
      split; [|done]. intros _. split; [done|by left]. }
    unfold mbind, run_bind, mret, run_ret.
   
    match goal with
    | |- context [tryGenerate generateContent ?p made] =>
        set (researcherPrompt := p);
        destruct (tryGenerate_outcome generateContent researcherPrompt made)
          as (k1 & result1 & Hk1 & -> & Hresult1)
    end.
    pose proof (length_callsTo_le researcherPrompt k1).
    destruct result1 as [error|found1].
    { eexists _, _. split; [done|].
      cbn [Response.statusCode Response.json].
      split_and!; [lia|rewrite !elem_of_cons; lia| |intros [?|?]; done|done].
      split; [done|]. by intros [? _]. }
    destruct Hresult1 as [_ Hfound1].
    match goal with
    | |- context [tryGenerate generateContent ?p
                    (made ++ callsTo researcherPrompt k1)] =>
        set (modelPrompt := p);
        destruct (tryGenerate_outcome generateContent modelPrompt
                    (made ++ callsTo researcherPrompt k1))
          as (k2 & result2 & Hk2 & -> & Hresult2)
    end.
    pose proof (length_callsTo_le modelPrompt k2).
    destruct result2 as [error|found2].
    { eexists _, _. split; [by rewrite <- app_assoc|].
      cbn [Response.statusCode Response.json]. rewrite length_app.
      split_and!; [lia|rewrite !elem_of_cons; lia| |intros [?|?]; done|done].
      split; [done|]. by intros [? _]. }
    destruct Hresult2 as [_ Hfound2].
    destruct (conclude_outcome generateContent (Some found1.2) (Some found2.2)
                ((made ++ callsTo researcherPrompt k1) ++ callsTo modelPrompt k2))
      as (k & result & Hk & -> & Hresult).
    pose proof (length_callsTo_le
                  (synthPrompt (Some found1.2) (Some found2.2)) k).
    destruct result as [error|response].
    + eexists _, _. split; [by rewrite <- !app_assoc|].
      cbn [Response.statusCode Response.json]. rewrite !length_app.
      split_and!; [lia|rewrite !elem_of_cons; lia| |intros [?|?]; done|done].
      split; [done|]. by intros [? _].
    + destruct Hresult as (text & Htext & ->).
      eexists _, _. split; [by rewrite <- !app_assoc|].
      cbn [Response.statusCode Response.json]. rewrite !length_app.
      split_and!; [lia|rewrite !elem_of_cons; lia| |intros [?|?]; done|].
      * split; [done|]. by intros [? _].
      * intros _. by exists text, found1.2, found2.2.
Qed.

(** X20: unlike the other two handlers, [getConclusion] passes over a model
    that answers with an empty text: the synthesis is the text of the first
    model that answers with one, after models that answered with nothing
    or were not to be had; and when all four models answer with an empty
    text the response is 500 with the details "All model attempts
    failed". *)
Theorem conclusion_passes_over_empty_answers (generateContent : service)
    (researcherSystemPrompt modelSystemPrompt : string)
    (query providedResearcher providedModel GEMINI_API_KEY : option string)
    (csvRows : list row) (made : calls) :
  truthy providedResearcher = true → truthy providedModel = true →
  truthy GEMINI_API_KEY = true →
  let prompt := synthPrompt providedResearcher providedModel in
  (∀ k modelName text,
     modelsToTry !! k = Some modelName →
     silentFirst generateContent prompt made k →
     generateContent (length made + k)%nat modelName prompt = Answer text →
     text ≠ "" →
     getConclusion generateContent researcherSystemPrompt modelSystemPrompt
       query providedResearcher providedModel GEMINI_API_KEY csvRows made
     = (inr {| Response.statusCode := 200;
               Response.json :=
                 Conclusion text providedResearcher providedModel |},
        made ++ callsTo prompt (S k)))
  ∧ ((∀ i modelName,
        modelsToTry !! i = Some modelName →
        generateContent (length made + i)%nat modelName prompt = Answer "") →
     getConclusion generateContent researcherSystemPrompt modelSystemPrompt
       query providedResearcher providedModel GEMINI_API_KEY csvRows made
     = (inr {| Response.statusCode := 500;
               Response.json :=
                 Refusal "Failed to generate conclusion"
                   (Some "All model attempts failed") |},
        made ++ callsTo prompt 4)).
Proof.
  intros HR HM Hkey prompt.
  assert (getConclusion generateContent researcherSystemPrompt modelSystemPrompt
            query providedResearcher providedModel GEMINI_API_KEY csvRows made
          = catch (conclude generateContent providedResearcher providedModel)
              (λ error,
                 mret {| Response.statusCode := 500;
                         Response.json :=
                           Refusal "Failed to generate conclusion"
                             (Some (orElse (Error.message error) "Unknown error")) |})
              made) as ->.
  { unfold getConclusion, catch, orNothing.
    rewrite HR, HM, Hkey. cbn [negb andb orb]. by rewrite HR, HM. }
  unfold catch, conclude, mbind, run_bind, tryGenerate. fold prompt. split.
  - intros k modelName text Hk Hskip Hcall Htext.
    destruct (tryGenerateFrom_skip generateContent prompt modelsToTry k None
                made Hskip) as (lastError & ->).
    destruct (drop_models k modelName Hk) as (rest & ->).
    fold (callsTo prompt k).
    assert (length (made ++ callsTo prompt k) = (length made + k)%nat) as Hlen
      by by rewrite length_app, (length_callsTo _ _ _ Hk).
    rewrite <- Hlen in Hcall.
    rewrite (tryGenerateFrom_answer _ _ _ _ _ _ _ Hcall Htext).
    cbn [snd]. unfold mret, run_ret.
    by rewrite (callsTo_S _ _ _ Hk), app_assoc.
  - intros Hempty.
    pose proof (Hempty 0%nat "gemini-2.0-flash" eq_refl) as H0.
    pose proof (Hempty 1%nat "gemini-1.5-pro" eq_refl) as H1.
    pose proof (Hempty 2%nat "gemini-pro" eq_refl) as H2.
    pose proof (Hempty 3%nat "gemini-1.0-pro" eq_refl) as H3.
    rewrite Nat.add_0_r in H0. unfold modelsToTry.
    rewrite (tryGenerateFrom_empty _ _ _ _ _ _ H0).
    rewrite tryGenerateFrom_empty by by rewrite length_app.
    rewrite tryGenerateFrom_empty
      by (rewrite !length_app; cbn [length]; by rewrite <- Nat.add_assoc).
    rewrite tryGenerateFrom_empty
      by (rewrite !length_app; cbn [length]; by rewrite <- !Nat.add_assoc).
    cbn [tryGenerateFrom default]. unfold throw, mret, run_ret, callsTo.
    by rewrite <- !app_assoc.
Qed.

Lemma conclusion_passes_over_empty_answers_witness :
  getConclusion (λ n _ _, match n with O => Answer "" | _ => Answer "Shoot." end)
    "Analyst." "Model." None (Some "Risky.") (Some "0.12 xG") (Some "key")
    Sample.records []
  = (inr {| Response.statusCode := 200;
            Response.json := Conclusion "Shoot." (Some "Risky.") (Some "0.12 xG") |},
     [] ++ callsTo (synthPrompt (Some "Risky.") (Some "0.12 xG")) 2).
Proof.
  apply (proj1 (conclusion_passes_over_empty_answers
                  (λ n _ _, match n with O => Answer "" | _ => Answer "Shoot." end)
                  "Analyst." "Model." None (Some "Risky.") (Some "0.12 xG")
                  (Some "key") Sample.records [] ltac:(reflexivity)
                  ltac:(reflexivity) ltac:(reflexivity))
               1%nat "gemini-1.5-pro" "Shoot." ltac:(reflexivity)).
  - intros i modelName Hi _. destruct i; [|lia]. by left.
  - reflexivity.
  - discriminate.
Defined.
